(** * RmlUi: bitmap font handle, scroll controller and style sheet

  A shallow embedding of three units of RmlUi:
  - [Source/Core/BitmapFont/FontFaceHandle.cpp]  (module [FontFaceHandle]),
  - [Source/Core/ScrollController.cpp]           (module [ScrollController]),
  - [Include/RmlUi/Core/StyleSheet.h]            (module [StyleSheet]).

  Conventions.
  - C++ [int] is a [Z] with the 32-bit two's complement wrap-around written
    out ([Int.wrap]); [size_t] values are [nat]; the character type [word]
    is an [N], and where a [word] is converted to or counted up its 16 bits
    are written out ([to_word]).
  - C++ [float] and [double] values are the rationals they denote ([Q]).
    Comparisons, [Min], [Max], [AbsoluteValue] and sign tests are exact on
    finite floats, so they are the same functions on [Q]. The operations of
    the autoscroll velocity, the conversion of the mouse offset and the time
    step are rounded as the machine rounds them ([Float.float],
    [Float.double]); the sums and products of the scroll distances are the
    exact ones.
  - [RMLUI_ASSERT] is a fatal assertion: code runs in the [outcome] monad,
    whose failures are [AssertionFailed] and [OutOfBounds]; a loop that has
    not ended within the steps it is given is [OutOfFuel].
  - The process-wide [Log] is a list of messages threaded through the code
    that writes to it. *)

From Stdlib Require Import ZArith QArith Qround Qabs Qpower Lqa Lia Ascii.
From stdpp Require Import gmap strings pretty list sorting.

Open Scope Z_scope.

(** ** Machine integers *)

Module Int.

Definition min_value : Z := - 2 ^ 31.
Definition max_value : Z := 2 ^ 31 - 1.

(** Reduction of an integer to the 32-bit two's complement range. *)
Definition wrap (z : Z) : Z := (z + 2 ^ 31) mod 2 ^ 32 - 2 ^ 31.

Definition add (a b : Z) : Z := wrap (a + b).
Definition sub (a b : Z) : Z := wrap (a - b).

(** [(int) v.size()] *)
Definition of_size (n : nat) : Z := wrap (Z.of_nat n).

Definition in_range (z : Z) : Prop := min_value <= z <= max_value.

End Int.

(** ** Binary floating-point rounding *)

Module Float.

(** [2 ^ e] for an integer exponent of either sign. *)
Definition pow2 (e : Z) : Q := Qpower 2 e.

(** The exponent [e] of a [q] that is not zero: [2^e <= |q| < 2^(e+1)]. *)
Definition exponent (q : Q) : Z :=
  let e := (Z.log2 (Z.abs (Qnum q)) - Z.log2 (Zpos (Qden q)))%Z in
  if Qle_bool (pow2 e) (Qabs q) then e else (e - 1)%Z.

(** The integer nearest to [q], the even one of the two when [q] lies half
    way between them. *)
Definition nearest_even (q : Q) : Z :=
  let f := Qfloor q in
  match Qcompare (q - inject_Z f) (1 # 2) with
  | Lt => f
  | Gt => (f + 1)%Z
  | Eq => if Z.even f then f else (f + 1)%Z
  end.

(** Rounding of a positive [q] to [precision] significant bits: [q] is
    scaled by the unit in the last place of its binade and rounded to the
    nearest integer. *)
Definition round_positive (precision : Z) (q : Q) : Q :=
  let ulp := pow2 (exponent q - precision + 1) in
  Qred (inject_Z (nearest_even (q / ulp)) * ulp).

(** Rounding to nearest, ties to even, as IEEE 754 arithmetic rounds the
    exact result of an operation. The exponent is not bounded: there is no
    overflow to an infinity and no gradual underflow. *)
Definition round (precision : Z) (q : Q) : Q :=
  match Qcompare q 0 with
  | Eq => 0%Q
  | Gt => round_positive precision q
  | Lt => (- round_positive precision (- q))%Q
  end.

(** C++ [float] is binary32 and [double] is binary64. *)
Definition float (q : Q) : Q := round 24 q.
Definition double (q : Q) : Q := round 53 q.

End Float.

(** ** Fatal assertions and checked indexing *)

Inductive outcome (A : Type) : Type :=
| Done (a : A)
| AssertionFailed
| OutOfBounds
| OutOfFuel.
Arguments Done {A} a.
Arguments AssertionFailed {A}.
Arguments OutOfBounds {A}.
Arguments OutOfFuel {A}.

Definition obind {A B} (m : outcome A) (k : A -> outcome B) : outcome B :=
match m with
| Done a => k a
| AssertionFailed => AssertionFailed
| OutOfBounds => OutOfBounds
| OutOfFuel => OutOfFuel
end.

Notation "'do' x <- m ; k" := (obind m (fun x => k))
(at level 10, x name, m at level 100, k at level 200).
Notation "'do' ' p <- m ; k" := (obind m (fun x => let 'p := x in k))
(at level 10, p pattern, m at level 100, k at level 200).

(** Modelled from the spec: [RMLUI_ASSERT(c)], a macro that is defined
    outside these sources, is a fatal assertion. *)
Definition RMLUI_ASSERT (c : bool) : outcome unit :=
if c then Done tt else AssertionFailed.

(** [v[i]] for a [std::vector] and an [int] index; reading outside the vector
  is the [OutOfBounds] failure. *)
Definition at_index {A} (v : list A) (i : Z) : outcome A :=
if i <? 0 then OutOfBounds
else match v !! Z.to_nat i with
     | Some a => Done a
     | None => OutOfBounds
     end.

(** ** The log *)

Inductive LogType := LT_ERROR | LT_WARNING | LT_INFO.

Record LogMessage := { log_type : LogType; log_text : string }.

Definition Log := list LogMessage.

Definition Log_Message (t : LogType) (text : string) (log : Log) : Log :=
log ++ [ {| log_type := t; log_text := text |} ].

(** ** Vectors of floats and of ints *)

Record Vector2f := { fx : Q; fy : Q }.
Record Vector2i := { ix : Z; iy : Z }.

(** ** FontFaceHandle (bitmap fonts) *)

Module FontFaceHandle.

(** [word], the character type of [WString]: an unsigned integer of 16
    bits. *)
Definition word := N.

(** The conversion [(word) n], and what [++character_code] leaves in a
    [word]. *)
Definition to_word (n : N) : word := (n mod 65536)%N.

Definition Colourb : Type := N * N * N * N.
Definition Texture := nat.

(** [URL]: the class is not part of this unit; a value carries what its
    accessors return. *)
Record URL := {
  GetPath : string;
  GetFileName : string;
  GetExtension : string;
  GetPathedFileName : string
}.

Record FontFaceInfo := { Source : URL; BitmapSource : URL }.

Record CommonCharactersInfoT := {
  ScaleWidth : Z;
  ScaleHeight : Z;
  LineHeight : Z;
  BaseLine : Z
}.

Record CharacterInfo := {
  Width : Z; Height : Z;
  XOffset : Z; YOffset : Z;
  Advance : Z;
  X : Z; Y : Z
}.

(** [BitmapFontDefinitions]: the fields this unit reads, and its two helper
    methods, whose bodies are not part of this unit, as function fields. *)
Record BitmapFontDefinitions := {
  Face : FontFaceInfo;
  CommonCharactersInfo : CommonCharactersInfoT;
  CharactersInfo : list CharacterInfo;
  BM_Helper_GetCharacterTableIndex : word -> Z;
  BM_Helper_GetXKerning : Z -> Z -> Z
}.

Record FontGlyph := {
  character : word;
  dimensions : Z * Z;
  bearing : Z * Z;
  advance : Z;
  bitmap_dimensions : Z * Z
}.

(** A value-initialised glyph, as [glyphs.resize] fills in. *)
Definition FontGlyph_default : FontGlyph :=
  {| character := 0%N; dimensions := (0, 0); bearing := (0, 0);
     advance := 0; bitmap_dimensions := (0, 0) |}.

Record UnicodeRange := { min_codepoint : N; max_codepoint : N }.

(** [Geometry]: the texture bound to it and the glyph quads written to it
    (character, cursor position, colour). *)
Record Geometry := {
  geometry_texture : option Texture;
  geometry_quads : list (word * Vector2f * Colourb)
}.

Definition Geometry_default : Geometry :=
  {| geometry_texture := None; geometry_quads := [] |}.

Definition SetTexture (t : option Texture) (g : Geometry) : Geometry :=
  {| geometry_texture := t; geometry_quads := geometry_quads g |}.

(** [FontFaceLayer]: the class is not part of this unit. A layer is known by
    its address; [GenerateGeometry] receives the geometries from
    [&geometry[geometry_index]] on and returns them updated. *)
Record FontFaceLayer := {
  layer_address : nat;
  GetColour : Colourb;
  layer_textures : list Texture;
  GenerateGeometry : list Geometry -> word -> Vector2f -> Colourb -> list Geometry
}.

Definition GetNumTextures (l : FontFaceLayer) : Z :=
  Int.of_size (length (layer_textures l)).

Definition GetTexture (l : FontFaceLayer) (i : Z) : option Texture :=
  layer_textures l !! Z.to_nat i.

Definition LayerConfiguration := list FontFaceLayer.

Record t := {
  bm_face : option BitmapFontDefinitions;
  size : Z;
  average_advance : Z;
  x_height : Z;
  line_height : Z;
  baseline : Z;
  underline_position : Q;
  underline_thickness : Q;
  texture_width : Z;
  texture_height : Z;
  texture_source : string;
  raw_charset : string;
  charset : list UnicodeRange;
  glyphs : list FontGlyph;
  base_layer : option nat;
  layers : list FontFaceLayer;
  layer_configurations : list LayerConfiguration
}.

(** [FontFaceHandle::FontFaceHandle()] *)
Definition new : t :=
  {| bm_face := None; size := 0; average_advance := 0; x_height := 0;
     line_height := 0; baseline := 0;
     underline_position := 0%Q; underline_thickness := 0%Q;
     texture_width := 0; texture_height := 0; texture_source := "";
     raw_charset := ""; charset := []; glyphs := [];
     base_layer := None; layers := []; layer_configurations := [] |}.

(** [FontFaceHandle::GetKerning] *)
Definition GetKerning (h : t) (lhs rhs : word) : Z :=
  match bm_face h with
  | Some face => BM_Helper_GetXKerning face (Z.of_N lhs) (Z.of_N rhs)
  | None => 0
  end.

(** [character_code >= glyphs.size()] *)
Definition beyond_glyphs (h : t) (character_code : word) : bool :=
  (N.of_nat (length (glyphs h)) <=? character_code)%N.

(** [glyphs[character_code]], read after the guard above. *)
Definition glyph_at (h : t) (character_code : word) : FontGlyph :=
  default FontGlyph_default (glyphs h !! N.to_nat character_code).

(** The loop of [FontFaceHandle::GetStringWidth]: the rest of the string,
    and the loop-carried [prior_character] and [width]. *)
Fixpoint GetStringWidth_loop (h : t) (string : list word)
    (prior_character : word) (width : Z) : Z :=
  match string with
  | [] => width
  | character_code :: rest =>
      if beyond_glyphs h character_code then
        GetStringWidth_loop h rest prior_character width
      else
        let glyph := glyph_at h character_code in
        let width :=
          if negb (prior_character =? 0)%N
          then Int.add width (GetKerning h prior_character character_code)
          else width in
        let width := Int.add width (advance glyph) in
        GetStringWidth_loop h rest character_code width
  end.

(** [FontFaceHandle::GetStringWidth] *)
Definition GetStringWidth (h : t) (string : list word) (prior_character : word) : Z :=
  GetStringWidth_loop h string prior_character 0.

(** The loop-carried [prior_character] when the loop of [GetStringWidth]
    ends. *)
Fixpoint GetStringWidth_prior (h : t) (string : list word) (prior_character : word)
    : word :=
  match string with
  | [] => prior_character
  | character_code :: rest =>
      if beyond_glyphs h character_code
      then GetStringWidth_prior h rest prior_character
      else GetStringWidth_prior h rest character_code
  end.

(** *** The width as a sum (the reading of the documentation)

    The characters that count are those with a code below [glyphs.size()];
    each is paired with its predecessor among them, the first one with
    [prior_character]. *)
Definition counted_characters (h : t) (string : list word) : list word :=
  List.filter (fun c => negb (beyond_glyphs h c)) string.

Definition character_width (h : t) (previous current : word) : Z :=
  advance (glyph_at h current)
  + (if (previous =? 0)%N then 0 else GetKerning h previous current).

Definition string_width_sum (h : t) (string : list word) (prior_character : word) : Z :=
  let cs := counted_characters h string in
  foldr Z.add 0 (zip_with (character_width h) (prior_character :: cs) cs).

(** *** Building the glyph table *)

(** [FontFaceHandle::BuildGlyph] *)
Definition BuildGlyph (glyph : FontGlyph) (bm_glyph : CharacterInfo) : FontGlyph :=
  {| character := character glyph;
     dimensions := (Width bm_glyph, Height bm_glyph);
     bearing := (XOffset bm_glyph, YOffset bm_glyph);
     advance := Advance bm_glyph;
     bitmap_dimensions := (X bm_glyph, Y bm_glyph) |}.

Definition set_glyphs (h : t) (g : list FontGlyph) : t :=
  {| bm_face := bm_face h; size := size h; average_advance := average_advance h;
     x_height := x_height h; line_height := line_height h; baseline := baseline h;
     underline_position := underline_position h;
     underline_thickness := underline_thickness h;
     texture_width := texture_width h; texture_height := texture_height h;
     texture_source := texture_source h; raw_charset := raw_charset h;
     charset := charset h; glyphs := g; base_layer := base_layer h;
     layers := layers h; layer_configurations := layer_configurations h |}.

(** The body of the loop of [BuildGlyphMap] for one [character_code]. *)
Definition BuildGlyphMap_step (face : BitmapFontDefinitions)
    (glyphs : list FontGlyph) (character_code : word) : outcome (list FontGlyph) :=
  let index := BM_Helper_GetCharacterTableIndex face character_code in
  if index <? 0 then Done glyphs
  else
    do info <- at_index (CharactersInfo face) index;
    let glyph := BuildGlyph
      {| character := character_code; dimensions := (0, 0); bearing := (0, 0);
         advance := 0; bitmap_dimensions := (0, 0) |} info in
    Done (<[N.to_nat character_code := glyph]> glyphs).

(** The loop of [BuildGlyphMap], from the value of [character_code] on. The
    counter is a [word]: [++character_code] wraps from 65535 to 0. [fuel]
    bounds the number of times the condition of the loop is tested; a loop
    that has not ended by then is [OutOfFuel]. *)
Fixpoint BuildGlyphMap_loop (fuel : nat) (face : BitmapFontDefinitions)
    (max_codepoint : N) (character_code : word) (glyphs : list FontGlyph)
    : outcome (list FontGlyph) :=
  match fuel with
  | O => OutOfFuel
  | S fuel =>
      if (character_code <=? max_codepoint)%N then
        do glyphs <- BuildGlyphMap_step face glyphs character_code;
        BuildGlyphMap_loop fuel face max_codepoint (to_word (character_code + 1)) glyphs
      else Done glyphs
  end.

(** [FontFaceHandle::BuildGlyphMap]; the loop starts at
    [(word) Max(min_codepoint, 32)]. *)
Definition BuildGlyphMap (fuel : nat) (h : t) (face : BitmapFontDefinitions)
    (unicode_range : UnicodeRange) : outcome t :=
  let glyphs := resize (N.to_nat (max_codepoint unicode_range + 1)) FontGlyph_default (glyphs h) in
  let first := to_word (N.max (min_codepoint unicode_range) 32) in
  do glyphs <- BuildGlyphMap_loop fuel face (max_codepoint unicode_range) first glyphs;
  Done (set_glyphs h glyphs).

(** The codes from [first] to [last], in order, and the body of the loop
    applied to a list of codes one after the other: what the loop of
    [BuildGlyphMap] does while its counter does not wrap. *)
Definition codes_between (first last : N) : list word :=
  List.map N.of_nat (seq (N.to_nat first) (N.to_nat (last + 1 - first))).

Fixpoint BuildGlyphMap_visit (face : BitmapFontDefinitions)
    (codes : list word) (glyphs : list FontGlyph) : outcome (list FontGlyph) :=
  match codes with
  | [] => Done glyphs
  | character_code :: rest =>
      do glyphs <- BuildGlyphMap_step face glyphs character_code;
      BuildGlyphMap_visit face rest glyphs
  end.

(** *** Metrics *)

(** Conversion of a float to [int]: the fraction is dropped. *)
Definition Q_to_int (q : Q) : Z :=
  if Qle_bool 0 q then Qfloor q else Qceiling q.

(** [FontFaceHandle::GenerateMetrics] *)
Definition GenerateMetrics (h : t) (face : BitmapFontDefinitions) : outcome t :=
  let line_height := LineHeight (CommonCharactersInfo face) in
  let baseline := BaseLine (CommonCharactersInfo face) in
  let underline_position :=
    (inject_Z line_height - inject_Z (BaseLine (CommonCharactersInfo face)))%Q in
  let baseline := Int.add baseline (Q_to_int (underline_position / (16 # 10))%Q) in
  let underline_thickness := 1%Q in
  let average_advance := foldl (fun acc g => Int.add acc (advance g)) 0 (glyphs h) in
  let average_advance :=
    Q_to_int (inject_Z average_advance
              / (inject_Z (Z.of_nat (length (glyphs h))) * (9 # 10)))%Q in
  let index := BM_Helper_GetCharacterTableIndex face 120%N in
  do x_height <-
    (if 0 <=? index
     then do info <- at_index (CharactersInfo face) index; Done (Height info)
     else Done 0);
  Done {| bm_face := bm_face h; size := size h; average_advance := average_advance;
          x_height := x_height; line_height := line_height; baseline := baseline;
          underline_position := underline_position;
          underline_thickness := underline_thickness;
          texture_width := texture_width h; texture_height := texture_height h;
          texture_source := texture_source h; raw_charset := raw_charset h;
          charset := charset h; glyphs := glyphs h; base_layer := base_layer h;
          layers := layers h; layer_configurations := layer_configurations h |}.

(** *** Initialisation *)

Section Initialise.

(** [UnicodeRange::BuildList(list, string)] is not part of this unit: it
    receives the list to fill and the charset string and returns whether the
    string is a valid charset, with the list as it leaves it. *)
Variable BuildList : list UnicodeRange -> string -> bool * list UnicodeRange.

(** [FontFaceHandle::GenerateLayer] is not part of this unit: it returns the
    layer for a font effect ([NULL] is [None]) and the updated handle. *)
Variable GenerateLayer : t -> option nat -> FontFaceLayer * t.

Fixpoint BuildGlyphMaps (fuel : nat) (h : t) (face : BitmapFontDefinitions)
    (ranges : list UnicodeRange) : outcome t :=
  match ranges with
  | [] => Done h
  | r :: rest =>
      do h <- BuildGlyphMap fuel h face r; BuildGlyphMaps fuel h face rest
  end.

(** [FontFaceHandle::Initialise]: the value returned, the handle and the log
    afterwards; [fuel] is the bound of the loop of each [BuildGlyphMap]. *)
Definition Initialise (fuel : nat) (h : t) (log : Log) (face : BitmapFontDefinitions)
    (_charset : string) (_size : Z) : outcome (bool * t * Log) :=
  let fnt_source := Source (Face face) in
  let bitmap_source := BitmapSource (Face face) in
  let source :=
    if decide (GetPath bitmap_source = "") then
      let source := GetPath fnt_source +:+ GetFileName bitmap_source in
      if decide (GetExtension bitmap_source = "") then source
      else source +:+ "." +:+ GetExtension bitmap_source
    else GetPathedFileName bitmap_source in
  let '(valid, ranges) := BuildList (charset h) _charset in
  let h :=
    {| bm_face := Some face; size := _size; average_advance := average_advance h;
       x_height := x_height h; line_height := _size; baseline := baseline h;
       underline_position := underline_position h;
       underline_thickness := underline_thickness h;
       texture_width := ScaleWidth (CommonCharactersInfo face);
       texture_height := ScaleHeight (CommonCharactersInfo face);
       texture_source := source; raw_charset := _charset;
       charset := ranges; glyphs := glyphs h; base_layer := base_layer h;
       layers := layers h; layer_configurations := layer_configurations h |} in
  if negb valid then
    let log := Log_Message LT_ERROR
      ("Invalid font charset '" +:+ raw_charset h +:+ "'.") log in
    Done (false, h, log)
  else
    do h <- BuildGlyphMaps fuel h face (charset h);
    do h <- GenerateMetrics h face;
    let '(layer, h) := GenerateLayer h None in
    let h :=
      {| bm_face := bm_face h; size := size h; average_advance := average_advance h;
         x_height := x_height h; line_height := line_height h; baseline := baseline h;
         underline_position := underline_position h;
         underline_thickness := underline_thickness h;
         texture_width := texture_width h; texture_height := texture_height h;
         texture_source := texture_source h; raw_charset := raw_charset h;
         charset := charset h; glyphs := glyphs h;
         base_layer := Some (layer_address layer);
         layers := layers h;
         layer_configurations := layer_configurations h ++ [[layer]] |} in
    Done (true, h, log).

(** The reading of the documentation of a malformed charset: the error is
    recovered locally, and initialisation still goes on to its end and
    reports success. *)
Definition charset_error_recovered_locally : Prop :=
  forall (h : t) (log : Log) (face : BitmapFontDefinitions)
         (_charset : string) (_size : Z),
    fst (BuildList (charset h) _charset) = false ->
    exists fuel h' log',
      Initialise fuel h log face _charset _size = Done (true, h', log').

End Initialise.

(** *** Generating the geometry of a line of text *)

(** The loop over the characters of the string, for one layer. *)
Fixpoint GenerateString_glyphs (h : t) (layer : FontFaceLayer) (layer_colour : Colourb)
    (position : Vector2f) (geometry_index : Z) (string : list word)
    (geometry : list Geometry) (line_width : Z) (prior_character : word)
    : list Geometry * Z :=
  match string with
  | [] => (geometry, line_width)
  | c :: rest =>
      if beyond_glyphs h c then
        GenerateString_glyphs h layer layer_colour position geometry_index rest
          geometry line_width prior_character
      else
        let glyph := glyph_at h c in
        let line_width :=
          if negb (prior_character =? 0)%N
          then Int.add line_width (GetKerning h prior_character c)
          else line_width in
        let i := Z.to_nat geometry_index in
        let geometry :=
          take i geometry ++
          GenerateGeometry layer (drop i geometry) c
            {| fx := (fx position + inject_Z line_width)%Q; fy := fy position |}
            layer_colour in
        let line_width := Int.add line_width (advance glyph) in
        GenerateString_glyphs h layer layer_colour position geometry_index rest
          geometry line_width c
  end.

(** The body of the loop over the layers of the configuration; the state is
    [geometry], [geometry_index] and [line_width]. *)
Definition GenerateString_layer (h : t) (string : list word) (position : Vector2f)
    (colour : Colourb) (st : list Geometry * Z * Z) (layer : FontFaceLayer)
    : list Geometry * Z * Z :=
  let '(geometry, geometry_index, _) := st in
  let layer_colour :=
    if decide (Some (layer_address layer) = base_layer h) then colour
    else GetColour layer in
  let needed := Int.add geometry_index (GetNumTextures layer) in
  let geometry :=
    if Int.of_size (length geometry) <? needed
    then resize (Z.to_nat needed) Geometry_default geometry
    else geometry in
  let geometry :=
    foldl (fun g i =>
             alter (SetTexture (GetTexture layer (Z.of_nat i)))
                   (Z.to_nat (Int.add geometry_index (Z.of_nat i))) g)
          geometry (seq 0 (Z.to_nat (GetNumTextures layer))) in
  let '(geometry, line_width) :=
    GenerateString_glyphs h layer layer_colour position geometry_index string
      geometry 0 0%N in
  (geometry, Int.add geometry_index (GetNumTextures layer), line_width).

(** [FontFaceHandle::GenerateString]: the geometry list afterwards and the
    width returned. *)
Definition GenerateString (h : t) (geometry : list Geometry) (string : list word)
    (position : Vector2f) (colour : Colourb) (layer_configuration_index : Z)
    : outcome (list Geometry * Z) :=
  do _ <- RMLUI_ASSERT (0 <=? layer_configuration_index);
  do _ <- RMLUI_ASSERT
    (layer_configuration_index <? Int.of_size (length (layer_configurations h)));
  do layer_configuration <- at_index (layer_configurations h) layer_configuration_index;
  let '(geometry, geometry_index, line_width) :=
    foldl (GenerateString_layer h string position colour)
          (geometry, 0, 0) layer_configuration in
  Done (resize (Z.to_nat geometry_index) Geometry_default geometry, line_width).

(** The number of textures of all layers of a configuration. *)
Definition texture_count (configuration : LayerConfiguration) : nat :=
  foldr (fun layer n => (length (layer_textures layer) + n)%nat) 0%nat configuration.

(** *** Generating the geometry of a line under the text *)


Section GenerateLine.

(** [Vertex] and [GeometryUtilities::GenerateQuad] are not part of this unit.
    [GenerateQuad] receives the origin, the dimensions, the colour and the
    index offset of the quad and writes four vertices and six indices, which
    are what the function here returns. *)
Variable Vertex : Type.
Variable Vertex_default : Vertex.
Variable GenerateQuad :
  Vector2f -> Vector2f -> Colourb -> Z -> list Vertex * list Z.




End GenerateLine.


End FontFaceHandle.

(** ** ScrollController *)

Module ScrollController.

(** [0.09f], the [float] nearest to 9/100. *)
Definition AUTOSCROLL_SPEED_FACTOR : Q := Float.float (9 # 100).
Definition AUTOSCROLL_DEADZONE : Q := 10.

Definition SMOOTHSCROLL_WINDOW_SIZE : Q := 50.
Definition SMOOTHSCROLL_VELOCITY_CONSTANT : Q := 800.
Definition SMOOTHSCROLL_VELOCITY_SQUARE_FACTOR : Q := 5 # 100.

(** *** Float comparisons and the [Math] helpers *)

Definition Qlt_bool (a b : Q) : bool := negb (Qle_bool b a).

(** [Math::Min], [Math::Max], [Math::AbsoluteValue], [Math::Clamp]: the
    helpers of [Math.h], written with the one comparison they use. *)
Definition Min (a b : Q) : Q := if Qlt_bool a b then a else b.
Definition Max (a b : Q) : Q := if Qlt_bool a b then b else a.
Definition AbsoluteValue (a : Q) : Q := if Qlt_bool a 0 then (- a)%Q else a.
Definition Clamp (v lo hi : Q) : Q :=
  if Qlt_bool v lo then lo else if Qlt_bool hi v then hi else v.

(** [Vector2f::Round], on one component: rounding to the nearest integer,
    halves away from zero. *)
Definition Round (a : Q) : Q :=
  if Qle_bool 0 a then inject_Z (Qfloor (a + (1 # 2))%Q)
  else inject_Z (Qceiling (a - (1 # 2))%Q).

(** *** Vector operations *)

Definition vec (a : Q) : Vector2f := {| fx := a; fy := a |}.
Definition vmap (f : Q -> Q) (v : Vector2f) : Vector2f :=
  {| fx := f (fx v); fy := f (fy v) |}.
Definition vzip (f : Q -> Q -> Q) (v w : Vector2f) : Vector2f :=
  {| fx := f (fx v) (fx w); fy := f (fy v) (fy w) |}.
Definition vadd := vzip Qplus.
Definition vsub := vzip Qminus.
Definition vmul := vzip Qmult.
Definition vscale (a : Q) (v : Vector2f) : Vector2f := vmap (Qmult a) v.
Definition vdiv (v : Vector2f) (a : Q) : Vector2f := vmap (fun c => (c / a)%Q) v.

(** [v == w] and [v != w] on [Vector2f] *)
Definition veq (v w : Vector2f) : bool :=
  Qeq_bool (fx v) (fx w) && Qeq_bool (fy v) (fy w).
Definition vne (v w : Vector2f) : bool := negb (veq v w).

(** [Vector2i - Vector2i], and the conversion [Vector2f(Vector2i)], which
    rounds each [int] to a [float]. *)
Definition isub (v w : Vector2i) : Vector2i :=
  {| ix := Int.sub (ix v) (ix w); iy := Int.sub (iy v) (iy w) |}.
Definition to_Vector2f (v : Vector2i) : Vector2f :=
  {| fx := Float.float (inject_Z (ix v)); fy := Float.float (inject_Z (iy v)) |}.

(** The quotient and the product of two [float]s, rounded to a [float]. *)
Definition fdiv (a b : Q) : Q := Float.float (a / b).
Definition fmul (a b : Q) : Q := Float.float (a * b).

(** *** Velocities *)

(** [CalculateAutoscrollVelocity] *)
Definition CalculateAutoscrollVelocity (target_delta : Vector2f) (dp_ratio : Q)
    : Vector2f :=
  let target_delta := vmap (fun c => fdiv c dp_ratio) target_delta in
  let target_delta :=
    {| fx := if Qlt_bool (AbsoluteValue (fx target_delta)) AUTOSCROLL_DEADZONE
             then 0%Q else fx target_delta;
       fy := if Qlt_bool (AbsoluteValue (fy target_delta)) AUTOSCROLL_DEADZONE
             then 0%Q else fy target_delta |} in
  vzip fmul (vmap (fmul AUTOSCROLL_SPEED_FACTOR) target_delta)
       (vmap AbsoluteValue target_delta).

(** One component of the velocity [CalculateAutoscrollVelocity] returns, for
    the component [c] of [target_delta]. *)
Definition autoscroll_axis (c dp_ratio : Q) : Q :=
  let t := fdiv c dp_ratio in
  let t := if Qlt_bool (AbsoluteValue t) AUTOSCROLL_DEADZONE then 0%Q else t in
  fmul (fmul AUTOSCROLL_SPEED_FACTOR t) (AbsoluteValue t).

Definition signum (a : Q) : Q :=
  if Qlt_bool 0 a then 1%Q else if Qlt_bool a 0 then (- (1))%Q else 0%Q.

Section Smoothscroll.

(** The easing curve [Tween(Tween::Exponential, Tween::Out)] is not part of
    this unit. *)
Variable tween : Q -> Q.

(** [CalculateSmoothscrollVelocity] *)
Definition CalculateSmoothscrollVelocity (target_delta scrolled_distance : Vector2f)
    (dp_ratio : Q) : Vector2f :=
  let scrolled_distance := vdiv (vmap AbsoluteValue scrolled_distance) dp_ratio in
  let target_delta := vdiv target_delta dp_ratio in
  let target_delta_abs := vmap AbsoluteValue target_delta in
  let target_delta_signum := vmap signum target_delta in
  let alpha_in := vzip Min (vdiv scrolled_distance SMOOTHSCROLL_WINDOW_SIZE) (vec 1) in
  let alpha_out := vzip Min (vdiv target_delta_abs SMOOTHSCROLL_WINDOW_SIZE) (vec 1) in
  let smooth_window :=
    {| fx := (tween (fx alpha_in) * tween (fx alpha_out))%Q;
       fy := (tween (fy alpha_in) * tween (fy alpha_out))%Q |} in
  let velocity_constant := vec SMOOTHSCROLL_VELOCITY_CONSTANT in
  let velocity_square :=
    vmul (vscale SMOOTHSCROLL_VELOCITY_SQUARE_FACTOR target_delta_abs) target_delta_abs in
  vmul (vscale dp_ratio target_delta_signum)
       (vadd (vmul smooth_window velocity_constant) velocity_square).

(** *** The controller *)

Inductive Mode := Mode_None | Autoscroll | Smoothscroll.

Definition Element := nat.

Record t := {
  mode : Mode;
  target : option Element;
  previous_update_time : Q;
  autoscroll_start_position : Vector2i;
  autoscroll_accumulated_length : Vector2f;
  autoscroll_holding : bool;
  smoothscroll_target_distance : Vector2f;
  smoothscroll_scrolled_distance : Vector2f
}.

(** The parameters of a [Mousescroll] event. *)
Record Dictionary := { delta_x : Q; delta_y : Q }.

(** What a step does to the rest of the system: the events it dispatches and
    its calls of [Reset]. *)
Inductive Effect :=
| Dispatched (target : Element) (parameters : Dictionary)
| ResetCalled.

(** [ScrollController::Reset] is not part of this unit. *)
Variable Reset : t -> t.

(** [Element::DispatchEvent(EventId::Mousescroll, parameters)]: whether the
    event went through without being handled. *)
Variable DispatchEvent : Element -> Dictionary -> bool.

Definition mode_is (m n : Mode) : bool :=
  match m, n with
  | Mode_None, Mode_None | Autoscroll, Autoscroll | Smoothscroll, Smoothscroll => true
  | _, _ => false
  end.

(** [ScrollController::UpdateTime]; [now] is what
    [GetSystemInterface()->GetElapsedTime()] returns. The difference of the
    two [double]s is rounded to a [double] and then to a [float], and the
    bounds are the [float] quotients [1.f / 500.f] and [1.f / 15.f]. *)
Definition UpdateTime (sc : t) (now : Q) : Q * t :=
  let previous_tick := previous_update_time sc in
  let sc :=
    {| mode := mode sc; target := target sc; previous_update_time := now;
       autoscroll_start_position := autoscroll_start_position sc;
       autoscroll_accumulated_length := autoscroll_accumulated_length sc;
       autoscroll_holding := autoscroll_holding sc;
       smoothscroll_target_distance := smoothscroll_target_distance sc;
       smoothscroll_scrolled_distance := smoothscroll_scrolled_distance sc |} in
  let dt := Float.float (Float.double (previous_update_time sc - previous_tick)) in
  (Clamp dt (fdiv 1 500) (fdiv 1 15), sc).

(** The body of the loop over the two axes in [UpdateSmoothscroll]. *)
Definition limit_scroll_distance (target_delta scroll_distance : Q) : Q :=
  if Qlt_bool 0 target_delta then
    Min (Max scroll_distance 1) target_delta
  else if Qlt_bool target_delta 0 then
    Max (Min scroll_distance (- (1))%Q) target_delta
  else 0%Q.

(** The local [target_delta] of [UpdateSmoothscroll]. *)
Definition smoothscroll_target_delta (sc : t) : Vector2f :=
  vsub (smoothscroll_target_distance sc) (smoothscroll_scrolled_distance sc).

(** The local [scroll_distance] of [UpdateSmoothscroll] after the loop over
    the axes: the distance the step scrolls by. *)
Definition smoothscroll_scroll_distance (sc : t) (dp_ratio now : Q) : Vector2f :=
  let target_delta := smoothscroll_target_delta sc in
  let velocity :=
    CalculateSmoothscrollVelocity target_delta (smoothscroll_scrolled_distance sc) dp_ratio in
  let '(dt, _) := UpdateTime sc now in
  let scroll_distance := vmap Round (vscale dt velocity) in
  vzip limit_scroll_distance target_delta scroll_distance.

Definition add_scrolled_distance (sc : t) (d : Vector2f) : t :=
  {| mode := mode sc; target := target sc;
     previous_update_time := previous_update_time sc;
     autoscroll_start_position := autoscroll_start_position sc;
     autoscroll_accumulated_length := autoscroll_accumulated_length sc;
     autoscroll_holding := autoscroll_holding sc;
     smoothscroll_target_distance := smoothscroll_target_distance sc;
     smoothscroll_scrolled_distance := vadd (smoothscroll_scrolled_distance sc) d |}.

(** [ScrollController::UpdateSmoothscroll]: the controller afterwards and the
    effects of the step, in order. *)
Definition UpdateSmoothscroll (sc : t) (mouse_position : Vector2i) (dp_ratio now : Q)
    : outcome (t * list Effect) :=
  match mode_is (mode sc) Smoothscroll, target sc with
  | true, Some element =>
      let target_delta := smoothscroll_target_delta sc in
      let scroll_distance := smoothscroll_scroll_distance sc dp_ratio now in
      let '(_, sc) := UpdateTime sc now in
      let '(sc, effects) :=
        if vne scroll_distance (vec 0) then
          let sc := add_scrolled_distance sc scroll_distance in
          let scroll_parameters :=
            {| delta_x := fx scroll_distance; delta_y := fy scroll_distance |} in
          if DispatchEvent element scroll_parameters
          then (Reset sc, [Dispatched element scroll_parameters; ResetCalled])
          else (sc, [Dispatched element scroll_parameters])
        else (sc, []) in
      if veq scroll_distance target_delta
      then Done (Reset sc, effects ++ [ResetCalled])
      else Done (sc, effects)
  | _, _ => AssertionFailed
  end.

(** [ScrollController::GetAutoscrollCursor] *)
Definition GetAutoscrollCursor (sc : t) (mouse_position : Vector2i) (dp_ratio : Q)
    : outcome string :=
  do _ <- RMLUI_ASSERT (mode_is (mode sc) Autoscroll);
  let scroll_delta := to_Vector2f (isub mouse_position (autoscroll_start_position sc)) in
  let scroll_velocity := CalculateAutoscrollVelocity scroll_delta dp_ratio in
  if veq scroll_velocity (vec 0) then Done "rmlui-scroll-idle"
  else
    let result := "rmlui-scroll" in
    let result :=
      if Qlt_bool 0 (fy scroll_velocity) then result +:+ "-up"
      else if Qlt_bool (fy scroll_velocity) 0 then result +:+ "-down"
      else result in
    let result :=
      if Qlt_bool 0 (fx scroll_velocity) then result +:+ "-right"
      else if Qlt_bool (fx scroll_velocity) 0 then result +:+ "-left"
      else result in
    Done result.

(** *** The reading of the documentation of a smooth scroll step

    On each axis the distance scrolled lies between one pixel and the
    remaining distance, in the direction of the target, and the controller
    is reset exactly when the distance scrolled is all that remained. *)
Definition within_one_and_target (target_delta scroll_distance : Q) : Prop :=
  (0 < target_delta -> 1 <= scroll_distance <= target_delta)%Q
  /\ (target_delta < 0 -> target_delta <= scroll_distance <= - (1))%Q
  /\ (target_delta == 0 -> scroll_distance == 0)%Q.

Definition smoothscroll_step_as_documented : Prop :=
  forall (sc : t) (mouse_position : Vector2i) (dp_ratio now : Q) sc' effects,
    (0 < dp_ratio)%Q ->
    UpdateSmoothscroll sc mouse_position dp_ratio now = Done (sc', effects) ->
    let target_delta := smoothscroll_target_delta sc in
    let scroll_distance := smoothscroll_scroll_distance sc dp_ratio now in
    within_one_and_target (fx target_delta) (fx scroll_distance)
    /\ within_one_and_target (fy target_delta) (fy scroll_distance)
    /\ (ResetCalled ∈ effects <-> veq scroll_distance target_delta = true).

(** The limits that the loop over the axes puts on the distance scrolled:
    towards the target and never beyond it, by at least one pixel when at
    least one pixel remains, and by all that remains otherwise. *)
Definition limited_to_target (target_delta scroll_distance : Q) : Prop :=
  (0 < target_delta ->
     0 < scroll_distance <= target_delta
     /\ (1 <= target_delta -> 1 <= scroll_distance)
     /\ (target_delta <= 1 -> scroll_distance == target_delta))%Q
  /\ (target_delta < 0 ->
        target_delta <= scroll_distance < 0
        /\ (target_delta <= - (1) -> scroll_distance <= - (1))
        /\ (- (1) <= target_delta -> scroll_distance == target_delta))%Q
  /\ (target_delta == 0 -> scroll_distance == 0)%Q.

End Smoothscroll.

(** *** Autoscroll and the mouse wheel *)

(** [Math::DecomposeFractionalIntegral(value, &integral)], a helper of
    [Math.h]: the part before the decimal point goes to [integral], the rest
    is returned; here the pair of the rest and the integral part. *)
Definition DecomposeFractionalIntegral (value : Q) : Q * Q :=
  let integral :=
    inject_Z (if Qle_bool 0 value then Qfloor value else Qceiling value) in
  ((value - integral)%Q, integral).

Section Autoscroll.

(** [ScrollController::Reset] and [ScrollController::ActivateSmoothscroll]
    are not part of this unit. *)
Variable Reset : t -> t.
Variable ActivateSmoothscroll : t -> Element -> t.

(** [Element::DispatchEvent(EventId::Mousescroll, parameters)]: whether the
    event went through without being handled. *)
Variable DispatchEvent : Element -> Dictionary -> bool.

Definition set_autoscroll (sc : t) (accumulated : Vector2f) (holding : bool) : t :=
  {| mode := mode sc; target := target sc;
     previous_update_time := previous_update_time sc;
     autoscroll_start_position := autoscroll_start_position sc;
     autoscroll_accumulated_length := accumulated;
     autoscroll_holding := holding;
     smoothscroll_target_distance := smoothscroll_target_distance sc;
     smoothscroll_scrolled_distance := smoothscroll_scrolled_distance sc |}.

(** The local [scroll_velocity] of [UpdateAutoscroll], and
    [autoscroll_accumulated_length] after [scroll_velocity * dt] is added to
    it. *)
Definition autoscroll_velocity (sc : t) (mouse_position : Vector2i) (dp_ratio : Q)
    : Vector2f :=
  CalculateAutoscrollVelocity
    (to_Vector2f (isub mouse_position (autoscroll_start_position sc))) dp_ratio.

Definition autoscroll_accumulated (sc : t) (mouse_position : Vector2i)
    (dp_ratio now : Q) : Vector2f :=
  let '(dt, _) := UpdateTime sc now in
  vadd (autoscroll_accumulated_length sc)
       (vscale dt (autoscroll_velocity sc mouse_position dp_ratio)).

(** [ScrollController::UpdateAutoscroll]: the controller afterwards and the
    effects of the step, in order. *)
Definition UpdateAutoscroll (sc : t) (mouse_position : Vector2i) (dp_ratio now : Q)
    : outcome (t * list Effect) :=
  match mode_is (mode sc) Autoscroll, target sc with
  | true, Some element =>
      let scroll_velocity := autoscroll_velocity sc mouse_position dp_ratio in
      let accumulated := autoscroll_accumulated sc mouse_position dp_ratio now in
      let '(_, sc) := UpdateTime sc now in
      let '(fractional_x, integral_x) := DecomposeFractionalIntegral (fx accumulated) in
      let '(fractional_y, integral_y) := DecomposeFractionalIntegral (fy accumulated) in
      let scroll_length_integral := {| fx := integral_x; fy := integral_y |} in
      let sc :=
        set_autoscroll sc {| fx := fractional_x; fy := fractional_y |}
          (if vne scroll_velocity (vec 0) then true else autoscroll_holding sc) in
      if vne scroll_length_integral (vec 0) then
        let scroll_parameters :=
          {| delta_x := fx scroll_length_integral;
             delta_y := fy scroll_length_integral |} in
        if DispatchEvent element scroll_parameters
        then Done (Reset sc, [Dispatched element scroll_parameters; ResetCalled])
        else Done (sc, [Dispatched element scroll_parameters])
      else Done (sc, [])
  | _, _ => AssertionFailed
  end.

(** [ScrollController::ActivateAutoscroll] *)
Definition ActivateAutoscroll (sc : t) (in_target : option Element)
    (start_position : Vector2i) (now : Q) : t :=
  let sc := Reset sc in
  let sc :=
    {| mode := Autoscroll; target := in_target;
       previous_update_time := previous_update_time sc;
       autoscroll_start_position := start_position;
       autoscroll_accumulated_length := autoscroll_accumulated_length sc;
       autoscroll_holding := autoscroll_holding sc;
       smoothscroll_target_distance := smoothscroll_target_distance sc;
       smoothscroll_scrolled_distance := smoothscroll_scrolled_distance sc |} in
  snd (UpdateTime sc now).




End Autoscroll.

(** The cursor that the offset of the mouse from the start position asks
    for, axis by axis: nothing while the [float] quotient of the offset by
    [dp_ratio] is within the deadzone, a direction beyond it. *)
Definition cursor_suffix (offset dp_ratio : Q) (positive negative : string) : string :=
  if Qle_bool AUTOSCROLL_DEADZONE (fdiv offset dp_ratio) then positive
  else if Qle_bool (fdiv offset dp_ratio) (- AUTOSCROLL_DEADZONE)%Q then negative
  else "".

Definition cursor_of_offset (offset : Vector2f) (dp_ratio : Q) : string :=
  let vertical := cursor_suffix (fy offset) dp_ratio "-up" "-down" in
  let horizontal := cursor_suffix (fx offset) dp_ratio "-right" "-left" in
  if decide (vertical = "" /\ horizontal = "") then "rmlui-scroll-idle"
  else "rmlui-scroll" +:+ vertical +:+ horizontal.


End ScrollController.


(** ** StyleSheet

    [StyleSheet.h] declares the class; the bodies of its members are in
    [StyleSheet.cpp] and [StyleSheetNode.cpp], which are not part of this
    development. The members are modelled from the specification of the
    style sheet and from the comments of the header. *)

Module StyleSheet.

(** *** Properties *)

Record Decorator := {
  decorator_instance_type : string;
  decorator_instance_properties : string
}.

Record FontEffect := {
  font_effect_type : string;
  font_effect_properties : string
}.

(** The value of a property: the text of the declaration, or the decorators
    or font effects instanced from it. *)
Inductive PropertyValue :=
| Text (s : string)
| Decorators (l : list Decorator)
| FontEffects (l : list FontEffect).

Record Property := {
  value : PropertyValue;
  source_file : string;
  source_line_number : Z
}.

(** [PropertyDictionary]: property id to value. *)
Abbreviation PropertyDictionary := (gmap string Property).

Record DecoratorSpecification := {
  decorator_type : string;
  properties : string
}.

Abbreviation DecoratorSpecificationMap := (gmap string DecoratorSpecification).

Record KeyframeBlock := {
  normalized_time : Q;
  keyframe_properties : PropertyDictionary
}.

Record Keyframes := {
  property_ids : list string;
  blocks : list KeyframeBlock
}.

(** *** The tree of style sheet nodes *)

Inductive Combinator := Descendant | Child | NextSibling | SubsequentSibling.

(** One selector step: tag (empty for none), id (empty for none), classes,
    pseudo-classes, and the combinator that ties the step to the one before
    it. Two children of a node are the same selector step when these are
    equal. *)
Record Selector := {
  tag : string;
  id : string;
  class_names : list string;
  pseudo_class_names : list string;
  combinator : Combinator
}.

#[global] Instance Combinator_eq_dec : EqDecision Combinator.
Proof. solve_decision. Defined.

#[global] Instance Selector_eq_dec : EqDecision Selector.
Proof. solve_decision. Defined.

Unset Elimination Schemes.
Inductive StyleSheetNode :=
| Node (selector : Selector) (specificity : Z)
       (node_properties : PropertyDictionary) (children : list StyleSheetNode).
Set Elimination Schemes.

Definition selector (n : StyleSheetNode) : Selector :=
  let 'Node s _ _ _ := n in s.
Definition specificity (n : StyleSheetNode) : Z :=
  let 'Node _ s _ _ := n in s.
Definition node_properties (n : StyleSheetNode) : PropertyDictionary :=
  let 'Node _ _ p _ := n in p.
Definition children (n : StyleSheetNode) : list StyleSheetNode :=
  let 'Node _ _ _ c := n in c.

Definition root_selector : Selector :=
  {| tag := ""; id := ""; class_names := []; pseudo_class_names := [];
     combinator := Descendant |}.

(** A node without declarations and children. *)
Definition empty_node (s : Selector) : StyleSheetNode := Node s 0 ∅ [].

(** A node is known by its place in the tree: the indices of the children
    taken from the root. This is the identity of a node, whatever its text. *)
Definition NodeRef := list nat.

Fixpoint node_at (n : StyleSheetNode) (ref : NodeRef) : option StyleSheetNode :=
  match ref with
  | [] => Some n
  | i :: rest =>
      match children n !! i with
      | Some c => node_at c rest
      | None => None
      end
  end.

(** The selector steps on the way from the root to the node at [ref], the
    node's own step last. *)
Fixpoint chain_at (n : StyleSheetNode) (ref : NodeRef) : list Selector :=
  match ref with
  | [] => []
  | i :: rest =>
      match children n !! i with
      | Some c => selector c :: chain_at c rest
      | None => []
      end
  end.

(** A selector chain is present in a tree when its steps lead from the root
    to a node. *)
Fixpoint has_chain (n : StyleSheetNode) (chain : list Selector) {struct chain} : bool :=
  match chain with
  | [] => true
  | s :: rest =>
      existsb (fun c => bool_decide (selector c = s) && has_chain c rest) (children n)
  end.

(** *** Combining two sheets (specification 4.1) *)

(** Modelled from the spec: the merge of one selector step of [other] into
    the children of a node. Where a child is the same selector step, [f]
    merges into it; where there is none, [f] fills a new, empty child. *)
Fixpoint merge_child (s : Selector) (f : StyleSheetNode -> StyleSheetNode)
    (cs : list StyleSheetNode) : list StyleSheetNode :=
  match cs with
  | [] => [f (empty_node s)]
  | c :: cs' =>
      if decide (selector c = s) then f c :: cs'
      else c :: merge_child s f cs'
  end.

(** Modelled from the spec: the lock-step walk of [StyleSheetNode]
    ([StyleSheetNode.cpp] is not part of this development). The tree
    [other], of the sheet included later, is merged into [this]: its
    specificities (plain numbers) are raised by [specificity_offset], its properties
    override those of [this] where both declare one, its children are
    merged into the children of the same selector step, and a branch that
    only [other] has is copied. A branch that only [this] has stays as it
    is. *)
Fixpoint MergeHierarchy (specificity_offset : Z) (other this : StyleSheetNode)
    {struct other} : StyleSheetNode :=
  let 'Node _ other_specificity other_properties other_children := other in
  let 'Node s _ this_properties this_children := this in
  Node s
    (other_specificity + specificity_offset)
    (other_properties ∪ this_properties)
    (foldl (fun cs other_child =>
              merge_child (selector other_child)
                (MergeHierarchy specificity_offset other_child) cs)
           this_children other_children).

(** *** Elements and selector matching (specification 4.3, steps 1 and 2) *)

Record ElementInfo := {
  element_tag : string;
  element_id : string;
  element_classes : list string;
  element_pseudo_classes : list string
}.

(** An element with the siblings before it, the nearest first, and its
    parent. *)
Unset Elimination Schemes.
Inductive Element :=
| mkElement (info : ElementInfo) (previous_siblings : list ElementInfo)
            (parent : option Element).
Set Elimination Schemes.

Definition info (e : Element) : ElementInfo := let 'mkElement i _ _ := e in i.
Definition previous_siblings (e : Element) : list ElementInfo :=
  let 'mkElement _ p _ := e in p.
Definition parent (e : Element) : option Element := let 'mkElement _ _ p := e in p.

Definition subset_of (l k : list string) : bool :=
  forallb (fun x => bool_decide (x ∈ k)) l.

(** Modelled from the spec: whether one selector step matches an element
    directly. *)
Definition matches_step (s : Selector) (e : ElementInfo) : bool :=
  (bool_decide (tag s = "") || bool_decide (tag s = "*")
   || bool_decide (tag s = element_tag e))
  && (bool_decide (id s = "") || bool_decide (id s = element_id e))
  && subset_of (class_names s) (element_classes e)
  && subset_of (pseudo_class_names s) (element_pseudo_classes e).

(** Modelled from the spec: some ancestor satisfies [p]; some sibling before
    the element does (a sibling stands with the siblings before it and has
    the same parent). *)
Fixpoint ancestors (e : Element) : list Element :=
  match e with
  | mkElement _ _ None => []
  | mkElement _ _ (Some up) => up :: ancestors up
  end.

Definition some_ancestor (p : Element -> bool) (e : Element) : bool :=
  existsb p (ancestors e).

Fixpoint some_previous_sibling (p : Element -> bool) (siblings : list ElementInfo)
    (up : option Element) : bool :=
  match siblings with
  | [] => false
  | i :: before => p (mkElement i before up) || some_previous_sibling p before up
  end.

(** Modelled from the spec: the walk up the selector chain of a candidate
    node. [steps] is the chain from the candidate's own step back towards
    the root. The descendant combinator scans all ancestors, the child
    combinator checks the parent only, the sibling combinators check the
    siblings before the element. *)
Fixpoint matches_chain (steps : list Selector) (e : Element) : bool :=
  match steps with
  | [] => true
  | s :: before =>
      matches_step s (info e)
      && match before with
         | [] => true
         | _ =>
             match combinator s with
             | Descendant => some_ancestor (matches_chain before) e
             | Child =>
                 match parent e with
                 | Some up => matches_chain before up
                 | None => false
                 end
             | NextSibling =>
                 match previous_siblings e with
                 | i :: rest => matches_chain before (mkElement i rest (parent e))
                 | [] => false
                 end
             | SubsequentSibling =>
                 some_previous_sibling (matches_chain before)
                   (previous_siblings e) (parent e)
             end
         end
  end.

(** *** Decorator and font-effect declarations (specification 4.5) *)

Definition is_space (c : ascii) : bool :=
  Ascii.eqb c " " || Ascii.eqb c "009" || Ascii.eqb c "010" || Ascii.eqb c "013".

Fixpoint strip_left (s : string) : string :=
  match s with
  | String c rest => if is_space c then strip_left rest else s
  | EmptyString => EmptyString
  end.

Definition StripWhitespace (s : string) : string :=
  String.rev (strip_left (String.rev (strip_left s))).

(** The entries between the commas of a declaration; [current] is the entry
    being read. *)
Fixpoint split_entries (s : string) (current : string) : list string :=
  match s with
  | EmptyString => [current]
  | String c rest =>
      if Ascii.eqb c ","
      then current :: split_entries rest EmptyString
      else split_entries rest (current +:+ String c EmptyString)
  end.

(** Modelled from the spec: the entries of a comma-separated declaration;
    the empty declaration has none. *)
Definition entries (declaration : string) : list string :=
  if decide (declaration = "") then []
  else List.map StripWhitespace (split_entries declaration "").

(** Modelled from the spec: an entry is a name, or a name followed by inline
    properties in parentheses. Anything else is malformed: an empty name, a
    parenthesis that is not closed, text after the closing parenthesis, a
    closing parenthesis without an opening one. *)
Definition parse_entry (entry : string) : option (string * string) :=
  match String.index 0 "(" entry with
  | None =>
      if decide (entry = "") then None
      else match String.index 0 ")" entry with
           | Some _ => None
           | None => Some (entry, "")
           end
  | Some open =>
      let name := StripWhitespace (String.substring 0 open entry) in
      let last := (String.length entry - 1)%nat in
      if decide (name = "") then None
      else if decide (String.index (S open) ")" entry = Some last)
      then Some (name, String.substring (S open) (last - S open) entry)
      else None
  end.

(** Modelled from the spec: the loop over the entries of a declaration, for
    decorators and font effects alike: an entry that [instance] turns into an object is added to
    the list, any other entry is logged with the source file and line and
    skipped. The state of the loop is the list so far and the log. *)
Definition instancing_diagnostic (kind entry source_file : string)
    (source_line_number : Z) : LogMessage :=
  {| log_type := LT_WARNING;
     log_text := "Could not instance " +:+ kind +:+ " '" +:+ entry
                 +:+ "', declared at " +:+ source_file +:+ ":"
                 +:+ pretty source_line_number |}.

Definition instance_step {A} (instance : string -> option A) (kind source_file : string)
    (source_line_number : Z) (st : list A * Log) (entry : string) : list A * Log :=
  let '(instanced, log) := st in
  match instance entry with
  | Some object => (instanced ++ [object], log)
  | None =>
      (instanced,
       log ++ [instancing_diagnostic kind entry source_file source_line_number])
  end.

(** The diagnostic of an entry that is not instanced, and nothing for one
    that is. *)
Definition diagnostic_of {A} (instance : string -> option A) (kind source_file : string)
    (source_line_number : Z) (entry : string) : option LogMessage :=
  match instance entry with
  | Some _ => None
  | None => Some (instancing_diagnostic kind entry source_file source_line_number)
  end.

Definition instance_entries {A} (instance : string -> option A) (kind : string)
    (declaration source_file : string) (source_line_number : Z) (log : Log)
    : list A * Log :=
  foldl (instance_step instance kind source_file source_line_number)
        ([], log) (entries declaration).

(** Modelled from the spec: one decorator entry names a specification of
    [decorator_map]; inline properties in parentheses are put after those of
    the specification. *)
Definition instance_decorator (decorator_map : DecoratorSpecificationMap)
    (entry : string) : option Decorator :=
  match parse_entry entry with
  | Some (name, inline) =>
      match decorator_map !! name with
      | Some specification =>
          Some {| decorator_instance_type := decorator_type specification;
                  decorator_instance_properties :=
                    if decide (inline = "") then properties specification
                    else properties specification +:+ " " +:+ inline |}
      | None => None
      end
  | None => None
  end.

(** Modelled from the spec: one font-effect entry names an effect type of
    the effect registry, with its properties in parentheses. *)
Definition instance_font_effect (effect_registry : gset string)
    (entry : string) : option FontEffect :=
  match parse_entry entry with
  | Some (name, inline) =>
      if decide (name ∈ effect_registry)
      then Some {| font_effect_type := name; font_effect_properties := inline |}
      else None
  | None => None
  end.

(** Modelled from the spec: [StyleSheet::InstanceDecoratorsFromString]. *)
Definition InstanceDecoratorsFromString (decorator_map : DecoratorSpecificationMap)
    (decorator_string_value source_file : string) (source_line_number : Z)
    (log : Log) : list Decorator * Log :=
  instance_entries (instance_decorator decorator_map) "decorator"
    decorator_string_value source_file source_line_number log.

(** Modelled from the spec: [StyleSheet::InstanceFontEffectsFromString]. *)
Definition InstanceFontEffectsFromString (effect_registry : gset string)
    (font_effect_string_value source_file : string) (source_line_number : Z)
    (log : Log) : list FontEffect * Log :=
  instance_entries (instance_font_effect effect_registry) "font-effect"
    font_effect_string_value source_file source_line_number log.

(** *** The style sheet *)

(** [NodeList] is a set of nodes, [NodeIndex] maps a key to a node list. *)
Abbreviation NodeList := (gset NodeRef).
Abbreviation NodeIndex := (gmap string NodeList).

(** [ElementDefinition]: the class is not part of this development; a
    definition is the cascaded property set. A
    [std::shared_ptr<ElementDefinition>] is the address of the definition in
    the store of all definitions, which only grows: a definition lives as
    long as someone holds a pointer to it. *)
Record ElementDefinition := { definition_properties : PropertyDictionary }.

Definition DefinitionStore := list ElementDefinition.

(** The members of [class StyleSheet]. *)
Record t := {
  root : StyleSheetNode;
  specificity_offset : Z;
  keyframes : gmap string Keyframes;
  decorator_map : DecoratorSpecificationMap;
  spritesheet_list : gmap string string;
  styled_node_index : NodeIndex;
  complete_node_index : NodeIndex;
  node_cache : gmap N nat
}.

(** [StyleSheet::StyleSheet()] *)
Definition new : t :=
  {| root := empty_node root_selector; specificity_offset := 0;
     keyframes := ∅; decorator_map := ∅; spritesheet_list := ∅;
     styled_node_index := ∅; complete_node_index := ∅; node_cache := ∅ |}.

(** Modelled from the spec: [StyleSheet::CombineStyleSheet]
    ([StyleSheet.cpp] is not part of this development). The sheet [sheet],
    included later, is merged into a copy of this one; following the comment
    of [specificity_offset] it "adds the offset of the less-specific style
    sheet onto its offset". The indices and the cache of the new sheet are
    empty. *)
Definition CombineStyleSheet (this sheet : t) : t :=
  {| root := MergeHierarchy (specificity_offset this) (root sheet) (root this);
     specificity_offset := Int.add (specificity_offset this) (specificity_offset sheet);
     keyframes := keyframes sheet ∪ keyframes this;
     decorator_map := decorator_map sheet ∪ decorator_map this;
     spritesheet_list := spritesheet_list sheet ∪ spritesheet_list this;
     styled_node_index := ∅;
     complete_node_index := ∅;
     node_cache := ∅ |}.

(** *** The node index and the optimised properties (specification 4.2) *)

Section Build.

(** The registry of font-effect types belongs to the factory, not to the
    sheet. *)
Variable effect_registry : gset string.

Definition set_value (p : Property) (v : PropertyValue) : Property :=
  {| value := v; source_file := source_file p;
     source_line_number := source_line_number p |}.

(** Modelled from the spec: the raw string of the [decorator] and of the
    [font-effect] property of a dictionary is replaced by the objects
    instanced from it; a value that is instanced already stays. *)
Definition optimize_properties (decorator_map : DecoratorSpecificationMap)
    (dictionary : PropertyDictionary) (log : Log) : PropertyDictionary * Log :=
  let '(dictionary, log) :=
    match dictionary !! "decorator" with
    | Some p =>
        match value p with
        | Text s =>
            let '(l, log) :=
              InstanceDecoratorsFromString decorator_map s (source_file p)
                (source_line_number p) log in
            (<["decorator" := set_value p (Decorators l)]> dictionary, log)
        | _ => (dictionary, log)
        end
    | None => (dictionary, log)
    end in
  match dictionary !! "font-effect" with
  | Some p =>
      match value p with
      | Text s =>
          let '(l, log) :=
            InstanceFontEffectsFromString effect_registry s (source_file p)
              (source_line_number p) log in
          (<["font-effect" := set_value p (FontEffects l)]> dictionary, log)
      | _ => (dictionary, log)
      end
  | None => (dictionary, log)
  end.

(** A function with a log, applied to the elements of a list from left to
    right. *)
Fixpoint map_with_log {A B} (f : A -> Log -> B * Log) (l : list A) (log : Log)
    : list B * Log :=
  match l with
  | [] => ([], log)
  | a :: rest =>
      let '(b, log) := f a log in
      let '(rest, log) := map_with_log f rest log in
      (b :: rest, log)
  end.

(** The pass over the tree, a node before its children. *)
Fixpoint optimize_node (decorator_map : DecoratorSpecificationMap)
    (n : StyleSheetNode) (log : Log) : StyleSheetNode * Log :=
  let 'Node s spec dictionary cs := n in
  let '(dictionary, log) := optimize_properties decorator_map dictionary log in
  let '(cs, log) := map_with_log (optimize_node decorator_map) cs log in
  (Node s spec dictionary cs, log).

(** Every node of the tree with its place. *)
Fixpoint nodes_with_refs (n : StyleSheetNode) : list (NodeRef * StyleSheetNode) :=
  let 'Node _ _ _ cs := n in
  ([], n) ::
  (fix from (i : nat) (cs : list StyleSheetNode) : list (NodeRef * StyleSheetNode) :=
     match cs with
     | [] => []
     | c :: rest =>
         List.map (fun '(ref, m) => (i :: ref, m)) (nodes_with_refs c)
         ++ from (S i) rest
     end) 0%nat cs.

(** Modelled from the spec: the keys of a node are its tag, or ["*"] without
    one, each of its classes and its id. *)
Definition node_keys (s : Selector) : list string :=
  (if decide (tag s = "") then "*" else tag s)
  :: List.map (fun c => "." +:+ c) (class_names s)
  ++ (if decide (id s = "") then [] else ["#" +:+ id s]).

Definition add_to_index (ref : NodeRef) (index : NodeIndex) (key : string) : NodeIndex :=
  <[key := {[ref]} ∪ index !!! key]> index.

Definition index_node (styled_only : bool) (index : NodeIndex)
    (entry : NodeRef * StyleSheetNode) : NodeIndex :=
  let '(ref, n) := entry in
  if styled_only && bool_decide (node_properties n = ∅) then index
  else foldl (add_to_index ref) index (node_keys (selector n)).

(** Modelled from the spec: [StyleSheet::BuildNodeIndexAndOptimizeProperties].
    The cache is not touched. *)
Definition BuildNodeIndexAndOptimizeProperties (s : t) (log : Log) : t * Log :=
  let '(new_root, log) := optimize_node (decorator_map s) (root s) log in
  let all := nodes_with_refs new_root in
  ({| root := new_root;
      specificity_offset := specificity_offset s;
      keyframes := keyframes s;
      decorator_map := decorator_map s;
      spritesheet_list := spritesheet_list s;
      styled_node_index := foldl (index_node true) ∅ all;
      complete_node_index := foldl (index_node false) ∅ all;
      node_cache := node_cache s |}, log).

End Build.

(** *** Element definitions and their cache (specification 4.3, steps 3 and 4) *)

Section Cache.

(** The hash of the node set ([size_t]) is computed from the identity of the
    nodes; the function is not part of this development. *)
Variable hash : list NodeRef -> N.

Definition element_keys (e : ElementInfo) : list string :=
  element_tag e :: "*"
  :: List.map (fun c => "." +:+ c) (element_classes e)
  ++ (if decide (element_id e = "") then [] else ["#" +:+ element_id e]).

(** Modelled from the spec: step 1, the candidates from the index of styled
    nodes. *)
Definition candidate_nodes (s : t) (e : Element) : NodeList :=
  ⋃ (List.map (fun key => styled_node_index s !!! key) (element_keys (info e))).

(** Modelled from the spec: step 2, a candidate is accepted when its whole
    chain verifies. *)
Definition is_applicable (s : t) (e : Element) (ref : NodeRef) : bool :=
  matches_chain (rev (chain_at (root s) ref)) e.

(** Modelled from the spec: step 3, the accepted nodes, in the order of the
    node set. *)
Definition applicable_nodes (s : t) (e : Element) : list NodeRef :=
  List.filter (is_applicable s e) (elements (candidate_nodes s e)).

Definition by_specificity (a b : StyleSheetNode) : Prop :=
  specificity a <= specificity b.

#[global] Instance by_specificity_dec a b : Decision (by_specificity a b).
Proof. unfold by_specificity. apply _. Defined.

(** Modelled from the spec: step 4, on a miss. The dictionaries of the
    accepted nodes are merged in ascending specificity, a later node
    overriding the earlier ones. *)
Definition build_definition (tree : StyleSheetNode) (nodes : list NodeRef)
    : ElementDefinition :=
  let sorted := merge_sort by_specificity (omap (node_at tree) nodes) in
  {| definition_properties :=
       foldl (fun merged n => node_properties n ∪ merged) ∅ sorted |}.

Definition set_node_cache (s : t) (cache : gmap N nat) : t :=
  {| root := root s; specificity_offset := specificity_offset s;
     keyframes := keyframes s; decorator_map := decorator_map s;
     spritesheet_list := spritesheet_list s;
     styled_node_index := styled_node_index s;
     complete_node_index := complete_node_index s;
     node_cache := cache |}.

(** Modelled from the spec: [StyleSheet::GetElementDefinition]. On a hit the
    cached pointer is returned; on a miss the definition is built, stored,
    entered into the cache under the hash of the node set, and returned. *)
Definition GetElementDefinition (s : t) (store : DefinitionStore) (e : Element)
    : nat * t * DefinitionStore :=
  let nodes := applicable_nodes s e in
  let seed := hash nodes in
  match node_cache s !! seed with
  | Some definition => (definition, s, store)
  | None =>
      let definition := length store in
      (definition,
       set_node_cache s (<[seed := definition]> (node_cache s)),
       store ++ [build_definition (root s) nodes])
  end.

(** What happens to a sheet in its lifetime once it is loaded or combined:
    its index is built and definitions are asked of it.
    ([CombineStyleSheet] makes a new sheet and leaves this one as it is.) *)
Inductive Operation :=
| OpBuildNodeIndexAndOptimizeProperties (effect_registry : gset string)
| OpGetElementDefinition (e : Element).

Definition State : Type := t * DefinitionStore * Log.

Definition step (st : State) (op : Operation) : State :=
  let '(s, store, log) := st in
  match op with
  | OpBuildNodeIndexAndOptimizeProperties effect_registry =>
      let '(s, log) := BuildNodeIndexAndOptimizeProperties effect_registry s log in
      (s, store, log)
  | OpGetElementDefinition e =>
      let '(_, s, store) := GetElementDefinition s store e in
      (s, store, log)
  end.

Definition run (st : State) (ops : list Operation) : State := foldl step st ops.



End Cache.

(** *** Well-formed sheets *)

(** The selector steps of the children of every node are distinct: the
    children are keyed by their selector. *)
Fixpoint unique_steps (n : StyleSheetNode) : bool :=
  let 'Node _ _ _ cs := n in
  bool_decide (NoDup (List.map selector cs)) && forallb unique_steps cs.

(** Several trees merged into one node, one after the other. *)
Definition merge_all (specificity_offset : Z) (others : list StyleSheetNode)
    (this : StyleSheetNode) : StyleSheetNode :=
  foldl (fun merged other => MergeHierarchy specificity_offset other merged)
        this others.

Section Specificity.

(** The specificity of a selector chain as it is written, before the order
    of declaration is added. The weights belong to [StyleSheetNode.cpp]. *)
Variable textual_specificity : list Selector -> Z.


End Specificity.

End StyleSheet.


(** *** Sample data for the scroll controller *)

Module ScrollSamples.
Import ScrollController.

(** An easing curve that rises from 0 to 1 on the unit interval. *)
Definition tween (a : Q) : Q := (a * (2 - a))%Q.

Definition Reset (sc : t) : t :=
  {| mode := Mode_None; target := None; previous_update_time := 0;
     autoscroll_start_position := {| ix := 0; iy := 0 |};
     autoscroll_accumulated_length := vec 0;
     autoscroll_holding := false;
     smoothscroll_target_distance := vec 0;
     smoothscroll_scrolled_distance := vec 0 |}.


(** Every scroll event is handled by some element. *)
Definition handled (e : Element) (d : Dictionary) : bool := false.
(** No scroll event is handled. *)
Definition unhandled (e : Element) (d : Dictionary) : bool := true.

(** A smooth scroll down by 100.5 pixels of which 100 are done. *)
Definition half_pixel_left : t :=
  {| mode := Smoothscroll; target := Some 1%nat; previous_update_time := 0;
     autoscroll_start_position := {| ix := 0; iy := 0 |};
     autoscroll_accumulated_length := vec 0;
     autoscroll_holding := false;
     smoothscroll_target_distance := {| fx := 0; fy := 201 # 2 |};
     smoothscroll_scrolled_distance := {| fx := 0; fy := 100 |} |}.

(** A smooth scroll down by 300 pixels that has just started. *)
Definition scroll_started : t :=
  {| mode := Smoothscroll; target := Some 1%nat; previous_update_time := 0;
     autoscroll_start_position := {| ix := 0; iy := 0 |};
     autoscroll_accumulated_length := vec 0;
     autoscroll_holding := false;
     smoothscroll_target_distance := {| fx := 0; fy := 300 |};
     smoothscroll_scrolled_distance := {| fx := 0; fy := 0 |} |}.

(** An autoscroll started at the position (100, 100). *)
Definition autoscrolling : t :=
  {| mode := Autoscroll; target := Some 1%nat; previous_update_time := 0;
     autoscroll_start_position := {| ix := 100; iy := 100 |};
     autoscroll_accumulated_length := vec 0;
     autoscroll_holding := false;
     smoothscroll_target_distance := vec 0;
     smoothscroll_scrolled_distance := vec 0 |}.

End ScrollSamples.


(** *** Sample data for the bitmap font handle *)

Module FontSamples.
Import FontFaceHandle.

Definition url (path file ext : string) : URL :=
  {| GetPath := path; GetFileName := file; GetExtension := ext;
     GetPathedFileName := path +:+ file +:+ "." +:+ ext |}.

(** A face with glyphs for [A] (65) and [V] (86) and one kerning pair. *)
Definition face : BitmapFontDefinitions :=
  {| Face := {| Source := url "fonts/" "arial" "fnt";
                BitmapSource := url "" "arial_0" "tga" |};
     CommonCharactersInfo :=
       {| ScaleWidth := 256; ScaleHeight := 256; LineHeight := 20; BaseLine := 16 |};
     CharactersInfo :=
       [ {| Width := 9; Height := 12; XOffset := 0; YOffset := 2; Advance := 10; X := 0; Y := 0 |};
         {| Width := 9; Height := 12; XOffset := 0; YOffset := 2; Advance := 9; X := 16; Y := 0 |} ];
     BM_Helper_GetCharacterTableIndex :=
       fun c => if (c =? 65)%N then 0 else if (c =? 86)%N then 1 else -1;
     BM_Helper_GetXKerning :=
       fun l r => if (l =? 65) && (r =? 86) then -2 else 0 |}.

(** A charset parser that accepts one charset string. *)
Definition BuildList (ranges : list UnicodeRange) (s : string)
    : bool * list UnicodeRange :=
  if decide (s = "U+0020-007E")
  then (true, ranges ++ [ {| min_codepoint := 32; max_codepoint := 126 |} ])
  else (false, ranges).

Definition layer (address : nat) : FontFaceLayer :=
  {| layer_address := address; GetColour := (255, 255, 255, 255)%N;
     layer_textures := [7%nat];
     GenerateGeometry := fun gs c p col =>
       match gs with
       | g :: rest =>
           {| geometry_texture := geometry_texture g;
              geometry_quads := geometry_quads g ++ [(c, p, col)] |} :: rest
       | [] => []
       end |}.

(** A layer generator that allocates the layers one after the other. *)
Definition GenerateLayer (h : t) (effect : option nat) : FontFaceLayer * t :=
  let l := layer (length (layers h)) in
  (l, {| bm_face := bm_face h; size := size h; average_advance := average_advance h;
         x_height := x_height h; line_height := line_height h; baseline := baseline h;
         underline_position := underline_position h;
         underline_thickness := underline_thickness h;
         texture_width := texture_width h; texture_height := texture_height h;
         texture_source := texture_source h; raw_charset := raw_charset h;
         charset := charset h; glyphs := glyphs h; base_layer := base_layer h;
         layers := layers h ++ [l];
         layer_configurations := layer_configurations h |}).


(** The handle after a successful initialisation with the sample face. *)
Definition handle : t :=
  match Initialise BuildList GenerateLayer 128 new [] face "U+0020-007E" 12 with
  | Done (_, h, _) => h
  | _ => new
  end.

End FontSamples.

(** *** Sample data for the style sheet *)

Module StyleSamples.
Import StyleSheet.

Definition by_tag (name : string) : Selector :=
  {| tag := name; id := ""; class_names := []; pseudo_class_names := [];
     combinator := Descendant |}.

Definition by_class (name : string) : Selector :=
  {| tag := ""; id := ""; class_names := [name]; pseudo_class_names := [];
     combinator := Descendant |}.

Definition declared (text file : string) (line : Z) : Property :=
  {| value := Text text; source_file := file; source_line_number := line |}.


(** [p { color: red; }  .big { color: blue; }] *)
Definition sheet_a : t :=
  {| root := Node root_selector 0 ∅
       [ Node (by_tag "p") 10000 {[ "color" := declared "red" "a.rcss" 1 ]} [];
         Node (by_class "big") 100001 {[ "color" := declared "blue" "a.rcss" 2 ]} [] ];
     specificity_offset := 2;
     keyframes := ∅; decorator_map := ∅; spritesheet_list := ∅;
     styled_node_index := ∅; complete_node_index := ∅; node_cache := ∅ |}.

(** [@decorator frame : tiled-box { ... }]
    [.big { color: green; }  div { decorator: frame, invalid-decorator(x; }] *)
Definition sheet_b : t :=
  {| root := Node root_selector 0 ∅
       [ Node (by_class "big") 100000 {[ "color" := declared "green" "b.rcss" 1 ]} [];
         Node (by_tag "div") 10001
           {[ "decorator" := declared "frame, invalid-decorator(x" "b.rcss" 2 ]} [] ];
     specificity_offset := 2;
     keyframes := ∅;
     decorator_map :=
       {[ "frame" := {| decorator_type := "tiled-box";
                        properties := "frame-image" |} ]};
     spritesheet_list := ∅;
     styled_node_index := ∅; complete_node_index := ∅; node_cache := ∅ |}.

Definition effect_registry : gset string := {[ "glow"; "shadow"; "outline" ]}.

(** The combined sheet with its index built. *)
Definition combined : t :=
  fst (BuildNodeIndexAndOptimizeProperties effect_registry
         (CombineStyleSheet sheet_a sheet_b) []).

(** A hash without collisions: the code of the list of nodes. *)
Definition hash (nodes : list NodeRef) : N := Npos (encode nodes).


Definition element (tag : string) (classes : list string) : Element :=
  mkElement {| element_tag := tag; element_id := ""; element_classes := classes;
               element_pseudo_classes := [] |} [] None.

(** Two paragraphs of class [big], the second after the first. *)
Definition first_paragraph : Element := element "p" ["big"].
Definition second_paragraph : Element :=
  mkElement {| element_tag := "p"; element_id := ""; element_classes := ["big"];
               element_pseudo_classes := [] |}
            [ {| element_tag := "p"; element_id := ""; element_classes := ["big"];
                 element_pseudo_classes := [] |} ] None.

(** An element that no rule is written for. *)
Definition span : Element := element "span" [].

End StyleSamples.

(** * Properties *)

(** ** Machine integers *)

Module IntFacts.
Import Int.

Lemma wrap_in_range z : in_range (wrap z).
Proof.
  unfold in_range, wrap, min_value, max_value.
  pose proof (Z.mod_pos_bound (z + 2 ^ 31) (2 ^ 32) ltac:(lia)). lia.
Qed.

Lemma wrap_small z : in_range z -> wrap z = z.
Proof.
  unfold in_range, wrap, min_value, max_value. intros Hz.
  rewrite Z.mod_small; lia.
Qed.

Lemma wrap_add_l a b : wrap (wrap a + b) = wrap (a + b).
Proof.
  unfold wrap.
  replace (((a + 2 ^ 31) mod 2 ^ 32 - 2 ^ 31) + b + 2 ^ 31)
    with ((a + 2 ^ 31) mod 2 ^ 32 + b) by lia.
  rewrite Zplus_mod_idemp_l. f_equal. f_equal. lia.
Qed.

Lemma wrap_add_r a b : wrap (a + wrap b) = wrap (a + b).
Proof. rewrite (Z.add_comm a), wrap_add_l. f_equal. lia. Qed.

Lemma wrap_wrap z : wrap (wrap z) = wrap z.
Proof. apply wrap_small, wrap_in_range. Qed.

(** A wrapped non-negative number never exceeds the number. *)
Lemma wrap_le_nonneg z : 0 <= z -> wrap z <= z.
Proof.
  intros Hz. unfold wrap.
  pose proof (Z.mod_le (z + 2 ^ 31) (2 ^ 32) ltac:(lia) ltac:(lia)). lia.
Qed.

End IntFacts.

(** ** Floating-point rounding *)

Module FloatFacts.
Import Float.
#[local] Open Scope Q_scope.

Lemma pow2_pos e : 0 < pow2 e.
Proof. apply Qpower_0_lt. reflexivity. Qed.

Lemma pow2_plus a b : pow2 (a + b) == pow2 a * pow2 b.
Proof. apply Qpower_plus. discriminate. Qed.

Lemma pow2_le a b : (a <= b)%Z -> pow2 a <= pow2 b.
Proof. intros H. apply Qpower_le_compat_l; [exact H | discriminate]. Qed.

Lemma pow2_inject n : (0 <= n)%Z -> pow2 n == inject_Z (2 ^ n).
Proof. intros H. unfold pow2. now rewrite Zpower_Qpower. Qed.

(** The exponent brackets a positive number between two powers of two. *)
Lemma exponent_spec q :
  0 < q -> pow2 (exponent q) <= q /\ q < pow2 (exponent q + 1).
Proof.
  intros Hq. destruct q as [n d].
  assert (Hn : (0 < n)%Z) by (unfold Qlt in Hq; simpl in Hq; lia).
  unfold exponent. cbn [Qnum Qden]. rewrite (Z.abs_eq n) by lia.
  set (la := Z.log2 n). set (ld := Z.log2 (Z.pos d)).
  destruct (Z.log2_spec n Hn) as [Hn1 Hn2]. fold la in Hn1, Hn2.
  destruct (Z.log2_spec (Z.pos d) ltac:(lia)) as [Hd1 Hd2]. fold ld in Hd1, Hd2.
  rewrite <- Z.add_1_r in Hn2, Hd2.
  assert (Hla : (0 <= la)%Z) by apply Z.log2_nonneg.
  assert (Hld : (0 <= ld)%Z) by apply Z.log2_nonneg.
  assert (Habs : Qabs (n # d) == n # d) by (apply Qabs_pos; lra).
  assert (Hdiv : n # d == inject_Z n / inject_Z (Z.pos d)) by apply Qmake_Qdiv.
  assert (HD : 0 < inject_Z (Z.pos d)) by (unfold Qlt; simpl; lia).
  assert (HN1 : pow2 la <= inject_Z n) by (rewrite pow2_inject, <- Zle_Qle; lia).
  assert (HN2 : inject_Z n < pow2 (la + 1))
    by (rewrite pow2_inject, <- Zlt_Qlt; lia).
  assert (HD1 : pow2 ld <= inject_Z (Z.pos d))
    by (rewrite pow2_inject, <- Zle_Qle; lia).
  assert (HD2 : inject_Z (Z.pos d) < pow2 (ld + 1))
    by (rewrite pow2_inject, <- Zlt_Qlt; lia).
  assert (Hlow : pow2 (la - ld - 1) <= n # d).
  { rewrite Hdiv. apply Qle_shift_div_l; [exact HD|].
    assert (E : pow2 la == pow2 (la - ld - 1) * pow2 (ld + 1)).
    { rewrite <- pow2_plus. apply Qpower_comp; [reflexivity | lia]. }
    pose proof (pow2_pos (la - ld - 1)). nra. }
  assert (Hhigh : n # d < pow2 (la - ld + 1)).
  { rewrite Hdiv. apply Qlt_shift_div_r; [exact HD|].
    assert (E : pow2 (la + 1) == pow2 (la - ld + 1) * pow2 ld).
    { rewrite <- pow2_plus. apply Qpower_comp; [reflexivity | lia]. }
    pose proof (pow2_pos (la - ld + 1)). nra. }
  destruct (Qle_bool (pow2 (la - ld)) (Qabs (n # d))) eqn:Hle.
  - apply Qle_bool_iff in Hle. rewrite Habs in Hle. split; assumption.
  - assert (Hlt : n # d < pow2 (la - ld)).
    { apply Qnot_le_lt. intros H. rewrite <- Habs in H.
      apply Qle_bool_iff in H. congruence. }
    split; [exact Hlow|].
    replace (la - ld - 1 + 1)%Z with (la - ld)%Z by lia. exact Hlt.
Qed.

Lemma nearest_even_cases q :
  nearest_even q = Qfloor q \/ nearest_even q = (Qfloor q + 1)%Z.
Proof.
  unfold nearest_even.
  destruct (q - inject_Z (Qfloor q) ?= 1 # 2); [destruct (Z.even _)| |]; auto.
Qed.

Lemma nearest_even_monotone x y : x <= y -> (nearest_even x <= nearest_even y)%Z.
Proof.
  intros Hxy. pose proof (Qfloor_resp_le x y Hxy) as Hfloor.
  destruct (Z.eq_dec (Qfloor x) (Qfloor y)) as [Heq|Hne].
  - unfold nearest_even. rewrite <- Heq.
    destruct (Qcompare_spec (x - inject_Z (Qfloor x)) (1 # 2)) as [Hx|Hx|Hx];
      destruct (Qcompare_spec (y - inject_Z (Qfloor x)) (1 # 2)) as [Hy|Hy|Hy];
      try destruct (Z.even (Qfloor x)); try lia; exfalso; lra.
  - destruct (nearest_even_cases x) as [-> | ->];
      destruct (nearest_even_cases y) as [-> | ->]; lia.
Qed.

Lemma nearest_even_inject n : nearest_even (inject_Z n) = n.
Proof.
  unfold nearest_even. rewrite Qfloor_Z.
  destruct (Qcompare_spec (inject_Z n - inject_Z n) (1 # 2)) as [H|H|H];
    [exfalso; lra | reflexivity | exfalso; lra].
Qed.

Section Precision.

Variable precision : Z.
Hypothesis precision_positive : (1 <= precision)%Z.

Lemma round_positive_eq q :
  round_positive precision q
  == inject_Z (nearest_even (q / pow2 (exponent q - precision + 1)))
     * pow2 (exponent q - precision + 1).
Proof. unfold round_positive. apply Qred_correct. Qed.

(** A positive number rounds to a number of its binade, or to the power of
    two above it. *)
Lemma round_positive_bounds q :
  0 < q ->
  pow2 (exponent q) <= round_positive precision q
  /\ round_positive precision q <= pow2 (exponent q + 1).
Proof.
  intros Hq. destruct (exponent_spec q Hq) as [Hlow Hhigh].
  rewrite round_positive_eq.
  set (s := (exponent q - precision + 1)%Z).
  pose proof (pow2_pos s) as Hs.
  assert (E1 : pow2 (exponent q) == inject_Z (2 ^ (precision - 1)) * pow2 s).
  { rewrite <- pow2_inject by lia. rewrite <- pow2_plus.
    apply Qpower_comp; [reflexivity | subst s; lia]. }
  assert (E2 : pow2 (exponent q + 1) == inject_Z (2 ^ precision) * pow2 s).
  { rewrite <- pow2_inject by lia. rewrite <- pow2_plus.
    apply Qpower_comp; [reflexivity | subst s; lia]. }
  assert (Hm1 : inject_Z (2 ^ (precision - 1)) <= q / pow2 s).
  { apply Qle_shift_div_l; [exact Hs|]. now rewrite <- E1. }
  assert (Hm2 : q / pow2 s <= inject_Z (2 ^ precision)).
  { apply Qle_shift_div_r; [exact Hs|]. rewrite <- E2. lra. }
  apply nearest_even_monotone in Hm1, Hm2.
  rewrite nearest_even_inject in Hm1, Hm2.
  rewrite Zle_Qle in Hm1, Hm2.
  rewrite E1, E2. split; nra.
Qed.

Lemma round_positive_pos q : 0 < q -> 0 < round_positive precision q.
Proof.
  intros Hq. destruct (round_positive_bounds q Hq) as [H _].
  pose proof (pow2_pos (exponent q)). lra.
Qed.

Lemma round_positive_monotone x y :
  0 < x -> x <= y -> round_positive precision x <= round_positive precision y.
Proof.
  intros Hx Hxy. assert (Hy : 0 < y) by lra.
  destruct (exponent_spec x Hx) as [Hx1 Hx2].
  destruct (exponent_spec y Hy) as [Hy1 Hy2].
  destruct (Z_lt_le_dec (exponent y) (exponent x)) as [Hlt|Hle].
  { exfalso. pose proof (pow2_le (exponent y + 1) (exponent x) ltac:(lia)). lra. }
  destruct (Z.eq_dec (exponent x) (exponent y)) as [Heq|Hne].
  - rewrite !round_positive_eq, Heq.
    set (s := (exponent y - precision + 1)%Z). pose proof (pow2_pos s) as Hs.
    assert (Hm : x / pow2 s <= y / pow2 s).
    { apply Qle_shift_div_l; [exact Hs|].
      unfold Qdiv. rewrite <- Qmult_assoc, (Qmult_comm (/ _)), Qmult_inv_r; lra. }
    apply nearest_even_monotone in Hm. rewrite Zle_Qle in Hm. nra.
  - destruct (round_positive_bounds x Hx) as [_ Hbx].
    destruct (round_positive_bounds y Hy) as [Hby _].
    pose proof (pow2_le (exponent x + 1) (exponent y) ltac:(lia)). lra.
Qed.

Lemma round_zero q : q == 0 -> round precision q = 0.
Proof.
  intros Hq. unfold round. destruct (Qcompare_spec q 0) as [H|H|H];
    [reflexivity | exfalso; lra | exfalso; lra].
Qed.

Lemma round_pos q : 0 < q -> 0 < round precision q.
Proof.
  intros Hq. unfold round. destruct (Qcompare_spec q 0) as [H|H|H];
    [exfalso; lra | exfalso; lra | now apply round_positive_pos].
Qed.

Lemma round_neg q : q < 0 -> round precision q < 0.
Proof.
  intros Hq. unfold round. destruct (Qcompare_spec q 0) as [H|H|H];
    [exfalso; lra | | exfalso; lra].
  pose proof (round_positive_pos (- q) ltac:(lra)). lra.
Qed.

(** Rounding keeps the order. *)
Lemma round_monotone x y : x <= y -> round precision x <= round precision y.
Proof.
  intros Hxy. unfold round.
  destruct (Qcompare_spec x 0) as [Hx|Hx|Hx];
    destruct (Qcompare_spec y 0) as [Hy|Hy|Hy]; try (exfalso; lra).
  - lra.
  - pose proof (round_positive_pos y Hy). lra.
  - pose proof (round_positive_pos (- x) ltac:(lra)). lra.
  - pose proof (round_positive_monotone (- y) (- x) ltac:(lra) ltac:(lra)). lra.
  - pose proof (round_positive_pos (- x) ltac:(lra)).
    pose proof (round_positive_pos y Hy). lra.
  - now apply round_positive_monotone.
Qed.

Lemma round_comp x y : x == y -> round precision x == round precision y.
Proof.
  intros H. apply Qle_antisym; apply round_monotone; lra.
Qed.

Lemma round_nonneg q : 0 <= q -> 0 <= round precision q.
Proof.
  intros Hq. pose proof (round_monotone 0 q Hq) as H.
  now rewrite (round_zero 0) in H by reflexivity.
Qed.

Lemma round_nonpos q : q <= 0 -> round precision q <= 0.
Proof.
  intros Hq. pose proof (round_monotone q 0 Hq) as H.
  now rewrite (round_zero 0) in H by reflexivity.
Qed.

End Precision.

End FloatFacts.

(** From here on a rounded value is taken as a whole: what the proofs below
    need of the rounding are the lemmas above. *)
Opaque Float.round.

(** ** FontFaceHandle *)

Module FontFaceHandleFacts.
Import Int IntFacts FontFaceHandle.

Lemma counted_characters_cons_beyond h c s :
  beyond_glyphs h c = true ->
  counted_characters h (c :: s) = counted_characters h s.
Proof. intros Hc. unfold counted_characters. simpl. now rewrite Hc. Qed.

Lemma counted_characters_cons_within h c s :
  beyond_glyphs h c = false ->
  counted_characters h (c :: s) = c :: counted_characters h s.
Proof. intros Hc. unfold counted_characters. simpl. now rewrite Hc. Qed.

Lemma counted_characters_app h s1 s2 :
  counted_characters h (s1 ++ s2) = counted_characters h s1 ++ counted_characters h s2.
Proof. unfold counted_characters. apply List.filter_app. Qed.

Lemma string_width_sum_beyond h c s p :
  beyond_glyphs h c = true ->
  string_width_sum h (c :: s) p = string_width_sum h s p.
Proof.
  intros Hc. unfold string_width_sum.
  now rewrite counted_characters_cons_beyond.
Qed.

Lemma string_width_sum_within h c s p :
  beyond_glyphs h c = false ->
  string_width_sum h (c :: s) p = character_width h p c + string_width_sum h s c.
Proof.
  intros Hc. unfold string_width_sum.
  rewrite counted_characters_cons_within by assumption. reflexivity.
Qed.

(** The loop adds the sum of the rest of the string to the width so far. *)
Lemma GetStringWidth_loop_sum h s : forall p w,
  GetStringWidth_loop h s p (wrap w) = wrap (w + string_width_sum h s p).
Proof.
  induction s as [|c s IH]; intros p w; simpl.
  - unfold string_width_sum. simpl. f_equal. lia.
  - destruct (beyond_glyphs h c) eqn:Hc.
    + rewrite IH, string_width_sum_beyond by assumption. reflexivity.
    + rewrite string_width_sum_within by assumption.
      unfold character_width.
      destruct (N.eqb_spec p 0) as [-> | Hp]; simpl; unfold add.
      * rewrite wrap_add_l, IH. f_equal. lia.
      * rewrite wrap_add_l, <- Z.add_assoc, wrap_add_l, IH. f_equal. lia.
Qed.

Lemma GetStringWidth_wrap_sum h s p :
  GetStringWidth h s p = wrap (string_width_sum h s p).
Proof.
  unfold GetStringWidth. change 0 with (wrap 0) at 1.
  rewrite GetStringWidth_loop_sum. reflexivity.
Qed.

(** C8. [GetStringWidth] returns, as an [int], the sum over the characters
    with a code below [glyphs.size()] of the glyph's advance plus the kerning
    with the previous such character (initially [prior_character]), the
    kerning counting only when that previous character is not zero; it is
    that sum itself when the sum is an [int]. Characters with a code of
    [glyphs.size()] or more add nothing and are no predecessor of a later
    character, wherever they stand in the string. [GetKerning] is 0 when
    [bm_face] is null. *)
Theorem GetStringWidth_sum (h : t) (string : list word) (prior_character : word) :
  GetStringWidth h string prior_character
    = wrap (string_width_sum h string prior_character)
  /\ (in_range (string_width_sum h string prior_character) ->
      GetStringWidth h string prior_character
        = foldr Z.add 0
            (zip_with (fun previous c =>
                         advance (glyph_at h c)
                         + (if (previous =? 0)%N then 0 else GetKerning h previous c))
               (prior_character :: List.filter (fun c => (c <? N.of_nat (length (glyphs h)))%N) string)
               (List.filter (fun c => (c <? N.of_nat (length (glyphs h)))%N) string)))
  /\ (forall before c after,
        (N.of_nat (length (glyphs h)) <= c)%N ->
        GetStringWidth h (before ++ c :: after) prior_character
          = GetStringWidth h (before ++ after) prior_character)
  /\ (bm_face h = None -> forall lhs rhs, GetKerning h lhs rhs = 0).
Proof.
  split; [apply GetStringWidth_wrap_sum|]. split; [|split].
  - intros Hr. rewrite GetStringWidth_wrap_sum, wrap_small by assumption.
    unfold string_width_sum, counted_characters, character_width, beyond_glyphs.
    assert (Hf : forall l : list word,
      List.filter (fun c => negb (N.of_nat (length (glyphs h)) <=? c)%N) l
      = List.filter (fun c => (c <? N.of_nat (length (glyphs h)))%N) l).
    { intros l. apply List.filter_ext. intros c.
      rewrite N.leb_antisym. now rewrite negb_involutive. }
    now rewrite Hf.
  - intros before c after Hc. rewrite !GetStringWidth_wrap_sum. f_equal.
    unfold string_width_sum. rewrite !counted_characters_app.
    rewrite counted_characters_cons_beyond; [reflexivity|].
    unfold beyond_glyphs. now apply N.leb_le.
  - intros Hface lhs rhs. unfold GetKerning. now rewrite Hface.
Qed.

(** The sample handle has 127 glyph slots; in ["A", 200, "V"] the character
    200 is skipped and [V] is kerned against [A]: 10 + (9 - 2). *)
Lemma GetStringWidth_sum_witness :
  GetStringWidth FontSamples.handle [65; 200; 86]%N 0%N = 17
  /\ GetStringWidth FontSamples.handle ([65] ++ 200 :: [86])%N 0%N
     = GetStringWidth FontSamples.handle ([65] ++ [86])%N 0%N
  /\ GetKerning new 65%N 86%N = 0.
Proof.
  destruct (GetStringWidth_sum FontSamples.handle [65; 200; 86]%N 0%N)
    as (_ & Hsum & Hskip & _).
  destruct (GetStringWidth_sum new [] 0%N) as (_ & _ & _ & Hkern).
  split; [|split].
  - rewrite Hsum; [reflexivity|]. vm_compute. split; discriminate.
  - apply (Hskip [65%N] 200%N [86%N]). vm_compute. discriminate.
  - apply Hkern. reflexivity.
Defined.

(** *** The layer configuration index of [GenerateString] *)

Lemma at_index_Done {A} (v : list A) (i : Z) :
  0 <= i < Z.of_nat (length v) ->
  exists a, v !! Z.to_nat i = Some a /\ at_index v i = Done a.
Proof.
  intros [Hlo Hhi]. unfold at_index.
  destruct (Z.ltb_spec i 0) as [Hneg|_]; [lia|].
  destruct (lookup_lt_is_Some_2 v (Z.to_nat i) ltac:(lia)) as [a Ha].
  exists a. now rewrite Ha.
Qed.

Lemma of_size_le (n : nat) : of_size n <= Z.of_nat n.
Proof. apply wrap_le_nonneg. lia. Qed.

(** C7. [GenerateString] asserts [0 <= layer_configuration_index] and
    [layer_configuration_index < (int) layer_configurations.size()]: outside
    that range the call ends in the failed assertion. Inside it the index is
    below [layer_configurations.size()], the indexing of
    [layer_configurations] yields a configuration and the call returns. In no
    case is [layer_configurations] read out of bounds. When the size is an
    [int], the call returns exactly for the indices from 0 up to the size. *)
Theorem GenerateString_layer_configuration_in_bounds
    (h : t) (geometry : list Geometry) (string : list word)
    (position : Vector2f) (colour : Colourb) (layer_configuration_index : Z) :
  (0 <= layer_configuration_index
     < of_size (length (layer_configurations h)) ->
   (Z.to_nat layer_configuration_index < length (layer_configurations h))%nat
   /\ (exists configuration,
         at_index (layer_configurations h) layer_configuration_index
           = Done configuration)
   /\ exists result,
        GenerateString h geometry string position colour layer_configuration_index
          = Done result)
  /\ (~ (0 <= layer_configuration_index
           < of_size (length (layer_configurations h))) ->
      GenerateString h geometry string position colour layer_configuration_index
        = AssertionFailed)
  /\ GenerateString h geometry string position colour layer_configuration_index
       <> OutOfBounds
  /\ (in_range (Z.of_nat (length (layer_configurations h))) ->
      (0 <= layer_configuration_index
         < Z.of_nat (length (layer_configurations h))
       <-> exists result,
             GenerateString h geometry string position colour
               layer_configuration_index = Done result)).
Proof.
  pose proof (of_size_le (length (layer_configurations h))) as Hsize.
  assert (Hin : 0 <= layer_configuration_index
                  < of_size (length (layer_configurations h)) ->
                exists result,
                  GenerateString h geometry string position colour
                    layer_configuration_index = Done result).
  { intros [Hlo Hhi]. unfold GenerateString.
    destruct (at_index_Done (layer_configurations h) layer_configuration_index)
      as (cfg & _ & Hcfg); [lia|].
    rewrite (proj2 (Z.leb_le _ _) Hlo), (proj2 (Z.ltb_lt _ _) Hhi), Hcfg.
    simpl.
    destruct (foldl _ _ cfg) as [[g gi] lw]. eauto. }
  assert (Hout : ~ (0 <= layer_configuration_index
                      < of_size (length (layer_configurations h))) ->
                 GenerateString h geometry string position colour
                   layer_configuration_index = AssertionFailed).
  { intros Hn. unfold GenerateString.
    destruct (Z.leb_spec 0 layer_configuration_index) as [Hlo|Hlo]; [|reflexivity].
    destruct (Z.ltb_spec layer_configuration_index
                (of_size (length (layer_configurations h)))) as [Hhi|Hhi];
      [lia|reflexivity]. }
  split; [|split; [|split]].
  - intros Hr. split; [lia|]. split; [|auto].
    destruct (at_index_Done (layer_configurations h) layer_configuration_index)
      as (cfg & _ & Hcfg); [lia|]. eauto.
  - exact Hout.
  - destruct (Z_le_dec 0 layer_configuration_index) as [Hlo|Hlo];
      [destruct (Z_lt_dec layer_configuration_index
                   (of_size (length (layer_configurations h)))) as [Hhi|Hhi]|].
    + destruct Hin as [r Hr]; [lia|]. rewrite Hr. discriminate.
    + rewrite Hout by lia. discriminate.
    + rewrite Hout by lia. discriminate.
  - intros Hfit.
    assert (Heq : of_size (length (layer_configurations h))
                  = Z.of_nat (length (layer_configurations h)))
      by (apply wrap_small; exact Hfit).
    split; [intros Hr; apply Hin; lia|]. intros [r Hr].
    destruct (Z_le_dec 0 layer_configuration_index) as [Hlo|Hlo];
      [destruct (Z_lt_dec layer_configuration_index
                   (Z.of_nat (length (layer_configurations h)))) as [Hhi|Hhi]|].
    + lia.
    + rewrite Hout in Hr by lia. discriminate.
    + rewrite Hout in Hr by lia. discriminate.
Qed.

(** The sample handle has one layer configuration: index 0 is served, index 1
    is rejected by the assertion. *)
Lemma GenerateString_layer_configuration_in_bounds_witness :
  (exists result,
     GenerateString FontSamples.handle [] [65; 86]%N {| fx := 0; fy := 0 |}
       (0, 0, 0, 255)%N 0 = Done result)
  /\ GenerateString FontSamples.handle [] [65; 86]%N {| fx := 0; fy := 0 |}
       (0, 0, 0, 255)%N 1 = AssertionFailed.
Proof.
  destruct (GenerateString_layer_configuration_in_bounds FontSamples.handle []
              [65; 86]%N {| fx := 0; fy := 0 |} (0, 0, 0, 255)%N 0)
    as (Hin & _).
  destruct (GenerateString_layer_configuration_in_bounds FontSamples.handle []
              [65; 86]%N {| fx := 0; fy := 0 |} (0, 0, 0, 255)%N 1)
    as (_ & Hout & _).
  split.
  - apply Hin. vm_compute. split; [discriminate | reflexivity].
  - apply Hout. vm_compute. intros [_ H]. discriminate H.
Defined.

(** *** A charset that [BuildList] rejects *)

Section InitialiseFacts.

Variable BuildList : list UnicodeRange -> string -> bool * list UnicodeRange.
Variable GenerateLayer : t -> option nat -> FontFaceLayer * t.

(** C6, as the code has it. When [BuildList] rejects the charset,
    [Initialise] logs one error, "Invalid font charset", with the charset
    string, and returns false at once: the whole initialisation is given up.
    No glyph is built, no layer is generated and no layer configuration is
    added. No metrics are generated: the average advance, the x-height, the
    baseline and the position and thickness of the underline are those the
    handle had, and the line height is the [_size] that [Initialise] itself
    stored before it read the charset, not the line height of the face. The
    charset of the handle is what [BuildList] left in it. *)
Theorem Initialise_invalid_charset_aborts
    (fuel : nat) (h : t) (log : Log) (face : BitmapFontDefinitions)
    (_charset : string) (_size : Z) :
  fst (BuildList (charset h) _charset) = false ->
  exists h',
    Initialise BuildList GenerateLayer fuel h log face _charset _size
      = Done (false, h',
              log ++ [ {| log_type := LT_ERROR;
                          log_text := "Invalid font charset '" +:+ _charset +:+ "'." |} ])
    /\ glyphs h' = glyphs h
    /\ layers h' = layers h
    /\ base_layer h' = base_layer h
    /\ layer_configurations h' = layer_configurations h
    /\ average_advance h' = average_advance h
    /\ x_height h' = x_height h
    /\ baseline h' = baseline h
    /\ underline_position h' = underline_position h
    /\ underline_thickness h' = underline_thickness h
    /\ line_height h' = _size
    /\ size h' = _size
    /\ charset h' = snd (BuildList (charset h) _charset).
Proof.
  intros Hbad. unfold Initialise.
  destruct (BuildList (charset h) _charset) as [valid ranges].
  simpl in Hbad. subst valid. simpl.
  eexists. split; [reflexivity|]. simpl. tauto.
Qed.

End InitialiseFacts.

Lemma Initialise_invalid_charset_aborts_witness :
  exists h',
    Initialise FontSamples.BuildList FontSamples.GenerateLayer 128 new []
      FontSamples.face "U+0020-007E,U+ZZ" 12
      = Done (false, h',
              [ {| log_type := LT_ERROR;
                   log_text := "Invalid font charset 'U+0020-007E,U+ZZ'." |} ])
    /\ glyphs h' = [] /\ layer_configurations h' = []
    /\ baseline h' = 0 /\ line_height h' = 12.
Proof.
  destruct (Initialise_invalid_charset_aborts FontSamples.BuildList
              FontSamples.GenerateLayer 128 new [] FontSamples.face
              "U+0020-007E,U+ZZ" 12)
    as (h' & Hrun & Hg & _ & _ & Hc & _ & _ & Hb & _ & _ & Hl & _).
  - reflexivity.
  - exists h'. repeat split; assumption.
Defined.

(** With the charset ["U+0020-007E,U+ZZ"], whose second entry is malformed,
    [Initialise] returns false; it does not go on with the first entry. *)
Lemma Initialise_invalid_charset_not_recovered :
  ~ charset_error_recovered_locally FontSamples.BuildList FontSamples.GenerateLayer.
Proof.
  intros Hdoc.
  destruct (Hdoc new [] FontSamples.face "U+0020-007E,U+ZZ" 12 eq_refl)
    as (fuel & h' & log' & Hrun).
  vm_compute in Hrun. discriminate Hrun.
Qed.

(** *** Measuring a text piece by piece *)

Lemma GetStringWidth_loop_app h s1 s2 : forall p w,
  GetStringWidth_loop h (s1 ++ s2) p w
  = GetStringWidth_loop h s2 (GetStringWidth_prior h s1 p) (GetStringWidth_loop h s1 p w).
Proof.
  induction s1 as [|c s1 IH]; intros p w; simpl; [reflexivity|].
  destruct (beyond_glyphs h c); apply IH.
Qed.

Lemma GetStringWidth_loop_add h s p w :
  wrap w = w ->
  GetStringWidth_loop h s p w = add w (GetStringWidth h s p).
Proof.
  intros Hw. rewrite <- Hw at 1.
  rewrite GetStringWidth_loop_sum, GetStringWidth_wrap_sum.
  unfold add. now rewrite wrap_add_r.
Qed.

Lemma last_cons {A} (l : list A) : forall a d, List.last (a :: l) d = List.last l a.
Proof.
  induction l as [|b l IH]; intros a d; [reflexivity|].
  change (List.last (b :: l) d = List.last (b :: l) a). now rewrite !IH.
Qed.

Lemma GetStringWidth_prior_last h s : forall p,
  GetStringWidth_prior h s p = List.last (counted_characters h s) p.
Proof.
  induction s as [|c s IH]; intros p; [reflexivity|]. cbn [GetStringWidth_prior].
  destruct (beyond_glyphs h c) eqn:Hc.
  - rewrite counted_characters_cons_beyond by assumption. apply IH.
  - rewrite counted_characters_cons_within by assumption.
    now rewrite IH, last_cons.
Qed.

(** X10. The width of a text in two pieces: [GetStringWidth] of [s1 ++ s2]
    is the ([int]) sum of the width of [s1] and of the width of [s2] measured
    with, as prior character, the last character of [s1] with a code below
    [glyphs.size()], or the prior character of [s1] when it has none. *)
Theorem GetStringWidth_app (h : t) (s1 s2 : list word) (prior_character : word) :
  let last_counted :=
    List.last (List.filter (fun c => (c <? N.of_nat (length (glyphs h)))%N) s1)
      prior_character in
  GetStringWidth h (s1 ++ s2) prior_character
  = add (GetStringWidth h s1 prior_character) (GetStringWidth h s2 last_counted).
Proof.
  intros last_counted.
  assert (Hlast : last_counted = GetStringWidth_prior h s1 prior_character).
  { rewrite GetStringWidth_prior_last. subst last_counted.
    unfold counted_characters, beyond_glyphs. f_equal.
    apply List.filter_ext. intros c.
    rewrite N.leb_antisym. now rewrite negb_involutive. }
  rewrite Hlast. unfold GetStringWidth at 1.
  rewrite GetStringWidth_loop_app.
  apply GetStringWidth_loop_add.
  rewrite GetStringWidth_wrap_sum. apply wrap_wrap.
Qed.

(** *** The width and the geometries of [GenerateString] *)

Lemma GenerateString_glyphs_width h layer layer_colour position geometry_index string :
  forall geometry line_width prior_character,
  snd (GenerateString_glyphs h layer layer_colour position geometry_index string
         geometry line_width prior_character)
  = GetStringWidth_loop h string prior_character line_width.
Proof.
  induction string as [|c string IH]; intros geometry line_width prior_character;
    simpl; [reflexivity|].
  destruct (beyond_glyphs h c); apply IH.
Qed.

Lemma GenerateString_layer_state h string position colour geometry geometry_index
    line_width layer :
  exists geometry',
    GenerateString_layer h string position colour
      (geometry, geometry_index, line_width) layer
    = (geometry', add geometry_index (GetNumTextures layer), GetStringWidth h string 0%N).
Proof.
  unfold GenerateString_layer.
  match goal with
  | |- context [GenerateString_glyphs ?a ?b ?c ?d ?e ?f ?g ?i ?j] =>
      pose proof (GenerateString_glyphs_width a b c d e f g i j) as Hw;
      destruct (GenerateString_glyphs a b c d e f g i j) as [geometry' width]
  end.
  simpl in Hw. subst width. eexists. reflexivity.
Qed.

(** The state after the loop over the layers: the geometry index is the
    [int] sum of the texture counts, the width is that of the last layer. *)
Lemma GenerateString_layers_state h string position colour configuration :
  forall geometry geometry_index line_width,
  exists geometry',
    foldl (GenerateString_layer h string position colour)
      (geometry, geometry_index, line_width) configuration
    = (geometry',
       foldl (fun index layer => add index (GetNumTextures layer))
         geometry_index configuration,
       match configuration with
       | [] => line_width
       | _ :: _ => GetStringWidth h string 0%N
       end).
Proof.
  induction configuration as [|layer configuration IH];
    intros geometry geometry_index line_width; cbn [foldl]; [eauto|].
  destruct (GenerateString_layer_state h string position colour geometry
              geometry_index line_width layer) as [geometry1 ->].
  destruct (IH geometry1 (add geometry_index (GetNumTextures layer))
              (GetStringWidth h string 0%N)) as [geometry' ->].
  exists geometry'. destruct configuration; reflexivity.
Qed.

Lemma GenerateString_Done h geometry string position colour index result :
  GenerateString h geometry string position colour index = Done result ->
  exists configuration geometry',
    layer_configurations h !! Z.to_nat index = Some configuration
    /\ 0 <= index < Z.of_nat (length (layer_configurations h))
    /\ result
       = (resize (Z.to_nat (foldl (fun index layer => add index (GetNumTextures layer))
                              0 configuration))
            Geometry_default geometry',
          match configuration with
          | [] => 0
          | _ :: _ => GetStringWidth h string 0%N
          end).
Proof.
  unfold GenerateString, at_index.
  destruct (Z.leb_spec 0 index) as [Hlo|Hlo]; [|discriminate].
  destruct (Z.ltb_spec index (of_size (length (layer_configurations h)))) as [Hhi|Hhi];
    [|discriminate].
  simpl. destruct (Z.ltb_spec index 0) as [Hneg|_]; [lia|].
  destruct (layer_configurations h !! Z.to_nat index) as [configuration|] eqn:Hcfg;
    [|discriminate].
  simpl.
  destruct (GenerateString_layers_state h string position colour configuration
              geometry 0 0) as [geometry' ->].
  intros [= <-]. exists configuration, geometry'.
  split; [reflexivity|]. split; [|reflexivity].
  pose proof (of_size_le (length (layer_configurations h))). lia.
Qed.

(** X11. The width [GenerateString] returns is the width [GetStringWidth]
    reports for the string with no prior character, whatever the layers do,
    when the layer configuration has a layer; it is 0 when the configuration
    is empty. *)
Theorem GenerateString_width
    (h : t) (geometry geometry' : list Geometry) (string : list word)
    (position : Vector2f) (colour : Colourb) (layer_configuration_index : Z)
    (line_width : Z) :
  GenerateString h geometry string position colour layer_configuration_index
    = Done (geometry', line_width) ->
  exists configuration,
    layer_configurations h !! Z.to_nat layer_configuration_index = Some configuration
    /\ (configuration <> [] -> line_width = GetStringWidth h string 0%N)
    /\ (configuration = [] -> line_width = 0).
Proof.
  intros Hrun.
  destruct (GenerateString_Done _ _ _ _ _ _ _ Hrun)
    as (configuration & g & Hcfg & _ & Hresult).
  exists configuration. split; [exact Hcfg|].
  injection Hresult as _ ->.
  destruct configuration; split; intros H; congruence.
Qed.

Lemma texture_index_sum configuration : forall index,
  0 <= index ->
  in_range (index + Z.of_nat (texture_count configuration)) ->
  foldl (fun index layer => add index (GetNumTextures layer)) index configuration
  = index + Z.of_nat (texture_count configuration).
Proof.
  induction configuration as [|layer configuration IH]; intros index Hindex Hfit; simpl.
  - lia.
  - simpl in Hfit. unfold in_range, min_value, max_value in *.
    assert (Hn : GetNumTextures layer = Z.of_nat (length (layer_textures layer))).
    { apply wrap_small. unfold in_range, min_value, max_value. lia. }
    assert (Ha : add index (GetNumTextures layer)
                 = index + Z.of_nat (length (layer_textures layer))).
    { rewrite Hn. apply wrap_small. unfold in_range, min_value, max_value. lia. }
    rewrite Ha, IH; lia.
Qed.

(** X12. [GenerateString] leaves in the geometry list one geometry for each
    texture of each layer of the configuration, however many geometries the
    list held before (when that number of textures is an [int]). *)
Theorem GenerateString_geometry_size
    (h : t) (geometry geometry' : list Geometry) (string : list word)
    (position : Vector2f) (colour : Colourb) (layer_configuration_index : Z)
    (line_width : Z) :
  GenerateString h geometry string position colour layer_configuration_index
    = Done (geometry', line_width) ->
  exists configuration,
    layer_configurations h !! Z.to_nat layer_configuration_index = Some configuration
    /\ (in_range (Z.of_nat (texture_count configuration)) ->
        length geometry' = texture_count configuration).
Proof.
  intros Hrun.
  destruct (GenerateString_Done _ _ _ _ _ _ _ Hrun)
    as (configuration & g & Hcfg & _ & Hresult).
  exists configuration. split; [exact Hcfg|]. intros Hfit.
  injection Hresult as -> _.
  rewrite length_resize, texture_index_sum by (try lia; exact Hfit). lia.
Qed.

(** The sample handle draws ["A", 200, "V"] in its one layer of one
    texture: the width is 17, and a list of three stale geometries is cut
    down to one. *)
Lemma GenerateString_width_witness :
  exists geometry',
    GenerateString FontSamples.handle [] [65; 200; 86]%N {| fx := 0; fy := 0 |}
      (0, 0, 0, 255)%N 0 = Done (geometry', 17).
Proof.
  destruct (GenerateString FontSamples.handle [] [65; 200; 86]%N {| fx := 0; fy := 0 |}
              (0, 0, 0, 255)%N 0) as [[geometry' width]| | |] eqn:Hrun;
    [|vm_compute in Hrun; discriminate Hrun ..].
  destruct (GenerateString_width _ _ _ _ _ _ _ _ Hrun) as (cfg & Hcfg & Hw & _).
  exists geometry'. rewrite Hw; [reflexivity|].
  vm_compute in Hcfg. injection Hcfg as <-. discriminate.
Defined.

Lemma GenerateString_geometry_size_witness :
  match GenerateString FontSamples.handle
          [Geometry_default; Geometry_default; Geometry_default]
          [65; 86]%N {| fx := 0; fy := 0 |} (0, 0, 0, 255)%N 0 with
  | Done (geometry', _) => length geometry' = 1%nat
  | _ => False
  end.
Proof.
  destruct (GenerateString FontSamples.handle
              [Geometry_default; Geometry_default; Geometry_default]
              [65; 86]%N {| fx := 0; fy := 0 |} (0, 0, 0, 255)%N 0)
    as [[geometry' width]| | |] eqn:Hrun;
    [|vm_compute in Hrun; discriminate Hrun ..].
  destruct (GenerateString_geometry_size _ _ _ _ _ _ _ _ Hrun) as (cfg & Hcfg & Hsize).
  vm_compute in Hcfg. injection Hcfg as <-.
  apply Hsize. vm_compute. split; discriminate.
Defined.


(** *** The glyph table *)

Lemma elem_of_codes_between (first last c : N) :
  c ∈ codes_between first last <-> (first <= c <= last)%N.
Proof.
  unfold codes_between. rewrite list_elem_of_In, in_map_iff. split.
  - intros (n & <- & Hn). apply in_seq in Hn. lia.
  - intros Hc. exists (N.to_nat c). split; [apply N2Nat.id|]. apply in_seq. lia.
Qed.

Lemma codes_between_cons (first last : N) :
  (first <= last)%N ->
  codes_between first last = first :: codes_between (first + 1) last.
Proof.
  intros H. unfold codes_between.
  replace (N.to_nat (last + 1 - first)) with (S (N.to_nat (last + 1 - (first + 1))))
    by lia.
  cbn [seq List.map]. rewrite N2Nat.id. do 2 f_equal. f_equal. lia.
Qed.

Lemma codes_between_nil (first last : N) :
  (last < first)%N -> codes_between first last = [].
Proof.
  intros H. unfold codes_between.
  replace (N.to_nat (last + 1 - first)) with 0%nat by lia. reflexivity.
Qed.

Lemma to_word_small (n : N) : (n < 65536)%N -> to_word n = n.
Proof. intros H. unfold to_word. now apply N.mod_small. Qed.

Lemma to_word_bound (n : N) : (to_word n < 65536)%N.
Proof. unfold to_word. now apply N.mod_lt. Qed.

(** While the counter cannot wrap, the loop with enough fuel visits the
    codes from the counter to [max_codepoint] in order. *)
Lemma BuildGlyphMap_loop_visit face max_codepoint :
  (max_codepoint < 65535)%N ->
  forall fuel character_code glyphs,
    (N.to_nat (max_codepoint + 1 - character_code) < fuel)%nat ->
    BuildGlyphMap_loop fuel face max_codepoint character_code glyphs
    = BuildGlyphMap_visit face (codes_between character_code max_codepoint) glyphs.
Proof.
  intros Hmax. induction fuel as [|fuel IH]; intros c glyphs Hfuel; [lia|].
  cbn [BuildGlyphMap_loop].
  destruct (N.leb_spec c max_codepoint) as [Hle|Hgt].
  - rewrite codes_between_cons by exact Hle. cbn [BuildGlyphMap_visit].
    rewrite to_word_small by lia.
    destruct (BuildGlyphMap_step face glyphs c) as [glyphs1| | |]; try reflexivity.
    cbn [obind]. apply IH. lia.
  - now rewrite codes_between_nil.
Qed.

(** A loop that returns has visited those codes, whatever fuel it had. *)
Lemma BuildGlyphMap_loop_Done face max_codepoint :
  (max_codepoint < 65535)%N ->
  forall fuel character_code glyphs glyphs',
    BuildGlyphMap_loop fuel face max_codepoint character_code glyphs = Done glyphs' ->
    BuildGlyphMap_visit face (codes_between character_code max_codepoint) glyphs
    = Done glyphs'.
Proof.
  intros Hmax. induction fuel as [|fuel IH]; intros c glyphs glyphs' Hloop;
    [discriminate|].
  cbn [BuildGlyphMap_loop] in Hloop.
  destruct (N.leb_spec c max_codepoint) as [Hle|Hgt].
  - rewrite codes_between_cons by exact Hle. cbn [BuildGlyphMap_visit].
    rewrite to_word_small in Hloop by lia.
    destruct (BuildGlyphMap_step face glyphs c) as [glyphs1| | |]; try discriminate.
    cbn [obind] in *. now apply IH.
  - now rewrite codes_between_nil.
Qed.

(** With [max_codepoint] at 65535 or above the condition of the loop holds
    for every value of the counter: the loop does not end. *)
Lemma BuildGlyphMap_loop_endless face max_codepoint :
  (65535 <= max_codepoint)%N ->
  forall fuel character_code glyphs glyphs',
    (character_code < 65536)%N ->
    BuildGlyphMap_loop fuel face max_codepoint character_code glyphs <> Done glyphs'.
Proof.
  intros Hmax. induction fuel as [|fuel IH]; intros c glyphs glyphs' Hc;
    [discriminate|].
  cbn [BuildGlyphMap_loop].
  destruct (N.leb_spec c max_codepoint) as [Hle|Hgt]; [|lia].
  destruct (BuildGlyphMap_step face glyphs c) as [glyphs1| | |]; try discriminate.
  cbn [obind]. apply IH, to_word_bound.
Qed.

Lemma BuildGlyphMap_step_Done face glyphs c glyphs' :
  BuildGlyphMap_step face glyphs c = Done glyphs' ->
  let index := BM_Helper_GetCharacterTableIndex face c in
  (index < 0 /\ glyphs' = glyphs)
  \/ (0 <= index
      /\ exists info,
           CharactersInfo face !! Z.to_nat index = Some info
           /\ glyphs'
              = <[N.to_nat c :=
                    BuildGlyph {| character := c; dimensions := (0, 0); bearing := (0, 0);
                                  advance := 0; bitmap_dimensions := (0, 0) |} info]>
                  glyphs).
Proof.
  unfold BuildGlyphMap_step, at_index. intros Hstep.
  set (index := BM_Helper_GetCharacterTableIndex face c) in *.
  destruct (Z.ltb_spec index 0) as [Hneg|Hpos].
  - left. split; [exact Hneg|]. now injection Hstep.
  - right. split; [exact Hpos|].
    destruct (CharactersInfo face !! Z.to_nat index) as [info|]; [|discriminate].
    exists info. split; [reflexivity|]. simpl in Hstep. now injection Hstep.
Qed.

Lemma BuildGlyphMap_step_length face glyphs c glyphs' :
  BuildGlyphMap_step face glyphs c = Done glyphs' -> length glyphs' = length glyphs.
Proof.
  intros Hstep. apply BuildGlyphMap_step_Done in Hstep. cbv zeta in Hstep.
  destruct Hstep as [[_ ->]|(_ & info & _ & ->)]; [reflexivity | apply length_insert].
Qed.

Lemma BuildGlyphMap_loop_length face max_codepoint :
  forall fuel character_code glyphs glyphs',
    BuildGlyphMap_loop fuel face max_codepoint character_code glyphs = Done glyphs' ->
    length glyphs' = length glyphs.
Proof.
  induction fuel as [|fuel IH]; intros c glyphs glyphs' Hloop; [discriminate|].
  cbn [BuildGlyphMap_loop] in Hloop.
  destruct (c <=? max_codepoint)%N; [|now injection Hloop as <-].
  destruct (BuildGlyphMap_step face glyphs c) as [glyphs1| | |] eqn:Hstep;
    try discriminate.
  cbn [obind] in Hloop. rewrite (IH _ _ _ Hloop).
  now apply BuildGlyphMap_step_length with face c.
Qed.

(** What the visit of a list of codes leaves in each place of the table. *)
Lemma BuildGlyphMap_visit_glyphs face codes : forall glyphs glyphs',
  BuildGlyphMap_visit face codes glyphs = Done glyphs' ->
  length glyphs' = length glyphs
  /\ forall n, (n < length glyphs)%nat ->
       (exists c info,
          c ∈ codes /\ N.to_nat c = n
          /\ 0 <= BM_Helper_GetCharacterTableIndex face c
          /\ CharactersInfo face !! Z.to_nat (BM_Helper_GetCharacterTableIndex face c)
             = Some info
          /\ glyphs' !! n
             = Some (BuildGlyph {| character := c; dimensions := (0, 0);
                                   bearing := (0, 0); advance := 0;
                                   bitmap_dimensions := (0, 0) |} info))
       \/ ((forall c, c ∈ codes -> N.to_nat c = n ->
              BM_Helper_GetCharacterTableIndex face c < 0)
           /\ glyphs' !! n = glyphs !! n).
Proof.
  induction codes as [|c0 codes IH]; intros glyphs glyphs' Hloop.
  - injection Hloop as <-. split; [reflexivity|]. intros n _. right.
    split; [|reflexivity]. intros c Hc. apply elem_of_nil in Hc. contradiction.
  - cbn [BuildGlyphMap_visit] in Hloop.
    destruct (BuildGlyphMap_step face glyphs c0) as [glyphs1| | |] eqn:Hstep;
      try discriminate Hloop.
    cbn in Hloop. destruct (IH _ _ Hloop) as [Hlen Hrest].
    pose proof (BuildGlyphMap_step_length _ _ _ _ Hstep) as Hlen1.
    apply BuildGlyphMap_step_Done in Hstep. cbv zeta in Hstep.
    split; [congruence|]. intros n Hn.
    destruct (Hrest n ltac:(lia)) as [(c & info & Hc & Hcn & Hidx & Hinfo & Hg)|[Hneg Hg]].
    + left. exists c, info. repeat split; try assumption.
      apply elem_of_cons. now right.
    + destruct Hstep as [[Hidx0 ->]|(Hidx0 & info & Hinfo & ->)].
      * right. split; [|exact Hg]. intros c Hc Hcn.
        apply elem_of_cons in Hc. destruct Hc as [->|Hc]; [exact Hidx0|].
        now apply Hneg.
      * destruct (decide (N.to_nat c0 = n)) as [Heq|Hne].
        -- left. exists c0, info. repeat split; try assumption.
           ++ apply elem_of_cons. now left.
           ++ rewrite Hg, Heq. apply list_lookup_insert_eq. exact Hn.
        -- right. split.
           ++ intros c Hc Hcn. apply elem_of_cons in Hc.
              destruct Hc as [->|Hc]; [contradiction|]. now apply Hneg.
           ++ rewrite Hg. now apply list_lookup_insert_ne.
Qed.

Lemma BuildGlyphMap_Done fuel h face unicode_range h' :
  BuildGlyphMap fuel h face unicode_range = Done h' ->
  exists glyphs',
    BuildGlyphMap_loop fuel face (max_codepoint unicode_range)
      (to_word (N.max (min_codepoint unicode_range) 32))
      (resize (N.to_nat (max_codepoint unicode_range + 1)) FontGlyph_default (glyphs h))
    = Done glyphs'
    /\ h' = set_glyphs h glyphs'.
Proof.
  unfold BuildGlyphMap. cbv zeta.
  destruct (BuildGlyphMap_loop _ _ _ _ _) as [glyphs'| | |]; try discriminate.
  cbn. intros [= <-]. eauto.
Qed.

Lemma BuildGlyphMap_length fuel h face unicode_range h' :
  BuildGlyphMap fuel h face unicode_range = Done h' ->
  length (glyphs h') = N.to_nat (max_codepoint unicode_range + 1).
Proof.
  intros Hrun. destruct (BuildGlyphMap_Done _ _ _ _ _ Hrun) as (glyphs' & Hloop & ->).
  cbn. rewrite (BuildGlyphMap_loop_length _ _ _ _ _ _ Hloop). apply length_resize.
Qed.

(** X13. The glyph table after a [BuildGlyphMap] that returns, for a range
    with [max_codepoint] below 65535 (the loop counter is a [word] of 16
    bits, and does not wrap there), has [max_codepoint + 1] places, whatever
    its size was. The loop starts at [(word) Max(min_codepoint, 32)], the
    low 16 bits of that maximum: a code from there to [max_codepoint] for
    which the face has a table index has the glyph built from
    [CharactersInfo] at that index, with the code as its character. Every
    other place keeps the glyph it had before, or holds a default glyph if
    the table was shorter. *)
Theorem BuildGlyphMap_glyphs
    (fuel : nat) (h : t) (face : BitmapFontDefinitions) (unicode_range : UnicodeRange)
    (h' : t) :
  (max_codepoint unicode_range < 65535)%N ->
  BuildGlyphMap fuel h face unicode_range = Done h' ->
  let first := (N.max (min_codepoint unicode_range) 32 mod 65536)%N in
  length (glyphs h') = N.to_nat (max_codepoint unicode_range + 1)
  /\ forall c : word,
       (c <= max_codepoint unicode_range)%N ->
       let index := BM_Helper_GetCharacterTableIndex face c in
       if (first <=? c)%N && (0 <=? index)
       then exists info,
              CharactersInfo face !! Z.to_nat index = Some info
              /\ glyphs h' !! N.to_nat c
                 = Some {| character := c;
                           dimensions := (Width info, Height info);
                           bearing := (XOffset info, YOffset info);
                           advance := Advance info;
                           bitmap_dimensions := (X info, Y info) |}
       else glyphs h' !! N.to_nat c
            = Some (default FontGlyph_default (glyphs h !! N.to_nat c)).
Proof.
  intros Hmax Hrun first. split; [now apply BuildGlyphMap_length with fuel h face|].
  destruct (BuildGlyphMap_Done _ _ _ _ _ Hrun) as (glyphs' & Hloop & ->).
  apply (BuildGlyphMap_loop_Done face _ Hmax) in Hloop.
  destruct (BuildGlyphMap_visit_glyphs _ _ _ _ Hloop) as [_ Hplaces].
  change (to_word (N.max (min_codepoint unicode_range) 32)) with first in *.
  intros c Hc index. cbn [glyphs set_glyphs].
  rewrite length_resize in Hplaces.
  assert (Hold : resize (N.to_nat (max_codepoint unicode_range + 1)) FontGlyph_default
                   (glyphs h) !! N.to_nat c
                 = Some (default FontGlyph_default (glyphs h !! N.to_nat c))).
  { destruct (decide (N.to_nat c < length (glyphs h))%nat) as [Hin|Hout].
    - rewrite lookup_resize by lia.
      destruct (lookup_lt_is_Some_2 _ _ Hin) as [g ->]. reflexivity.
    - rewrite lookup_resize_new by lia.
      rewrite (lookup_ge_None_2 (glyphs h)) by lia. reflexivity. }
  destruct (Hplaces (N.to_nat c) ltac:(lia))
    as [(c' & info & Hc' & Hcn & Hidx & Hinfo & Hg)|[Hneg Hg]].
  - apply N2Nat.inj in Hcn. subst c'. apply elem_of_codes_between in Hc'.
    fold index in Hidx, Hinfo.
    rewrite (proj2 (N.leb_le _ _) (proj1 Hc')), (proj2 (Z.leb_le _ _) Hidx).
    cbn [andb]. exists info. split; [exact Hinfo | exact Hg].
  - destruct (N.leb_spec first c) as [Hfirst|Hfirst];
      [|cbn [andb]; now rewrite Hg].
    assert (Hidx : index < 0).
    { apply Hneg; [|reflexivity]. apply elem_of_codes_between. lia. }
    destruct (Z.leb_spec 0 index) as [Hpos|_]; [lia|].
    cbn [andb]. now rewrite Hg.
Qed.

Lemma BuildGlyphMap_visit_in_bounds face codes : forall glyphs,
  (exists glyphs', BuildGlyphMap_visit face codes glyphs = Done glyphs')
  <-> forall c, c ∈ codes ->
        BM_Helper_GetCharacterTableIndex face c < Z.of_nat (length (CharactersInfo face)).
Proof.
  induction codes as [|c0 codes IH]; intros glyphs.
  - split; [|cbn; eauto]. intros _ c Hc. apply elem_of_nil in Hc. contradiction.
  - cbn [BuildGlyphMap_visit]. unfold BuildGlyphMap_step, at_index.
    destruct (Z.ltb_spec (BM_Helper_GetCharacterTableIndex face c0) 0) as [Hneg|Hpos].
    + cbn. rewrite IH. split.
      * intros Hrest c Hc. apply elem_of_cons in Hc.
        destruct Hc as [->|Hc]; [lia | now apply Hrest].
      * intros Hall c Hc. apply Hall, elem_of_cons. now right.
    + destruct (CharactersInfo face !! Z.to_nat (BM_Helper_GetCharacterTableIndex face c0))
        as [info|] eqn:Hinfo.
      * apply lookup_lt_Some in Hinfo. cbn. rewrite IH. split.
        -- intros Hrest c Hc. apply elem_of_cons in Hc.
           destruct Hc as [->|Hc]; [lia | now apply Hrest].
        -- intros Hall c Hc. apply Hall, elem_of_cons. now right.
      * apply lookup_ge_None in Hinfo. cbn. split.
        -- intros [glyphs' H]. discriminate H.
        -- intros Hall. specialize (Hall c0 ltac:(apply elem_of_cons; now left)). lia.
Qed.

(** X14. [BuildGlyphMap] returns exactly for the ranges and faces for which
    its loop ends and stays within [CharactersInfo]. With [max_codepoint]
    below 65535 the loop ends (fuel for one test of the condition more than
    the codes from [(word) Max(min_codepoint, 32)] to [max_codepoint] is
    enough), and it returns exactly when every index the face gives for one
    of these codes is below [CharactersInfo.size()]: [CharactersInfo[index]]
    is read with no check but [index >= 0]. With [max_codepoint] at 65535 or
    above the 16-bit counter never exceeds it, and [BuildGlyphMap] does not
    return, whatever the fuel. *)
Theorem BuildGlyphMap_in_bounds
    (h : t) (face : BitmapFontDefinitions) (unicode_range : UnicodeRange) :
  let first := (N.max (min_codepoint unicode_range) 32 mod 65536)%N in
  let in_bounds :=
    forall c : word,
      (first <= c <= max_codepoint unicode_range)%N ->
      BM_Helper_GetCharacterTableIndex face c < Z.of_nat (length (CharactersInfo face)) in
  ((max_codepoint unicode_range < 65535)%N ->
   (in_bounds ->
    forall fuel,
      (N.to_nat (max_codepoint unicode_range + 1 - first) < fuel)%nat ->
      exists h', BuildGlyphMap fuel h face unicode_range = Done h')
   /\ (forall fuel h', BuildGlyphMap fuel h face unicode_range = Done h' -> in_bounds))
  /\ ((65535 <= max_codepoint unicode_range)%N ->
      forall fuel h', BuildGlyphMap fuel h face unicode_range <> Done h').
Proof.
  intros first in_bounds. split.
  - intros Hmax. split.
    + intros Hall fuel Hfuel. unfold BuildGlyphMap. cbv zeta.
      change (to_word (N.max (min_codepoint unicode_range) 32)) with first.
      rewrite (BuildGlyphMap_loop_visit face _ Hmax) by exact Hfuel.
      match goal with |- context [BuildGlyphMap_visit ?f ?codes ?g] =>
        destruct (proj2 (BuildGlyphMap_visit_in_bounds f codes g)) as [glyphs' ->]
      end.
      * intros c Hc. apply Hall. now apply elem_of_codes_between.
      * cbn. eauto.
    + intros fuel h' Hrun c Hc.
      destruct (BuildGlyphMap_Done _ _ _ _ _ Hrun) as (glyphs' & Hloop & _).
      apply (BuildGlyphMap_loop_Done face _ Hmax) in Hloop.
      eapply BuildGlyphMap_visit_in_bounds; [eauto|].
      apply elem_of_codes_between. exact Hc.
  - intros Hmax fuel h' Hrun.
    destruct (BuildGlyphMap_Done _ _ _ _ _ Hrun) as (glyphs' & Hloop & _).
    revert Hloop. apply BuildGlyphMap_loop_endless; [exact Hmax|].
    apply to_word_bound.
Qed.

Lemma BuildGlyphMaps_app fuel face ranges1 ranges2 : forall h,
  BuildGlyphMaps fuel h face (ranges1 ++ ranges2)
  = (do h1 <- BuildGlyphMaps fuel h face ranges1; BuildGlyphMaps fuel h1 face ranges2).
Proof.
  induction ranges1 as [|r ranges1 IH]; intros h; [reflexivity|].
  cbn [app BuildGlyphMaps].
  destruct (BuildGlyphMap fuel h face r) as [h1| | |]; [cbn; apply IH | reflexivity ..].
Qed.

(** X15. The loop of [Initialise] over the ranges of the charset leaves the
    glyph table sized by the last range alone: it has the last range's
    [max_codepoint + 1] places, also when an earlier range went higher. The
    glyphs built for the higher codes of the earlier range are gone, and
    [GetStringWidth] measures a string as if its characters above the last
    range's [max_codepoint] were not there. *)
Theorem BuildGlyphMaps_sized_by_last_range
    (fuel : nat) (h : t) (face : BitmapFontDefinitions) (ranges : list UnicodeRange)
    (last_range : UnicodeRange) (h' : t) :
  BuildGlyphMaps fuel h face (ranges ++ [last_range]) = Done h' ->
  length (glyphs h') = N.to_nat (max_codepoint last_range + 1)
  /\ forall (string : list word) (prior_character : word),
       GetStringWidth h' string prior_character
       = GetStringWidth h'
           (List.filter (fun c => (c <=? max_codepoint last_range)%N) string)
           prior_character.
Proof.
  rewrite BuildGlyphMaps_app.
  destruct (BuildGlyphMaps fuel h face ranges) as [h1| | |]; try discriminate.
  cbn. destruct (BuildGlyphMap fuel h1 face last_range) as [h2| | |] eqn:Hlast;
    try discriminate.
  cbn. intros [= <-]. apply BuildGlyphMap_length in Hlast.
  split; [exact Hlast|]. intros string prior_character.
  rewrite !GetStringWidth_wrap_sum. f_equal. unfold string_width_sum.
  assert (Hcounted :
    counted_characters h2
      (List.filter (fun c => (c <=? max_codepoint last_range)%N) string)
    = counted_characters h2 string).
  { unfold counted_characters, beyond_glyphs. rewrite Hlast.
    induction string as [|c string IH]; [reflexivity|]. cbn [List.filter].
    destruct (N.leb_spec c (max_codepoint last_range)) as [Hle|Hgt].
    - cbn [List.filter]. now rewrite IH.
    - rewrite IH.
      destruct (N.leb_spec (N.of_nat (N.to_nat (max_codepoint last_range + 1))) c)
        as [_|Hlt]; [reflexivity | lia]. }
  now rewrite Hcounted.
Qed.

(** The sample face over the range from 0 to 126: [A] gets its glyph, the
    line feed (10), below 32, is left a default glyph. With a
    [min_codepoint] of 65601, whose low 16 bits are 65, the loop starts at
    [A] all the same. *)
Lemma BuildGlyphMap_glyphs_witness :
  match BuildGlyphMap 128 new FontSamples.face
          {| min_codepoint := 0; max_codepoint := 126 |},
        BuildGlyphMap 128 new FontSamples.face
          {| min_codepoint := 65601; max_codepoint := 126 |} with
  | Done h', Done h'' =>
      length (glyphs h') = 127%nat
      /\ (advance <$> glyphs h' !! 65%nat) = Some 10
      /\ glyphs h' !! 10%nat = Some FontGlyph_default
      /\ (advance <$> glyphs h'' !! 65%nat) = Some 10
  | _, _ => False
  end.
Proof.
  destruct (BuildGlyphMap 128 new FontSamples.face
              {| min_codepoint := 0; max_codepoint := 126 |}) as [h'| | |] eqn:Hrun;
    [|vm_compute in Hrun; discriminate Hrun ..].
  destruct (BuildGlyphMap 128 new FontSamples.face
              {| min_codepoint := 65601; max_codepoint := 126 |}) as [h''| | |] eqn:Hrun';
    [|vm_compute in Hrun'; discriminate Hrun' ..].
  assert (Hword : (126 < 65535)%N) by reflexivity.
  destruct (BuildGlyphMap_glyphs 128 new FontSamples.face
              {| min_codepoint := 0; max_codepoint := 126 |} h' Hword Hrun)
    as [Hlen Hglyphs].
  destruct (BuildGlyphMap_glyphs 128 new FontSamples.face
              {| min_codepoint := 65601; max_codepoint := 126 |} h'' Hword Hrun')
    as [_ Hglyphs'].
  split; [exact Hlen|]. split; [|split].
  - destruct (Hglyphs 65%N ltac:(vm_compute; discriminate)) as (info & Hinfo & Hg).
    change (glyphs h' !! 65%nat = Some
              {| character := 65%N; dimensions := (Width info, Height info);
                 bearing := (XOffset info, YOffset info); advance := Advance info;
                 bitmap_dimensions := (X info, Y info) |}) in Hg.
    rewrite Hg. vm_compute in Hinfo. injection Hinfo as <-. reflexivity.
  - exact (Hglyphs 10%N ltac:(vm_compute; discriminate)).
  - destruct (Hglyphs' 65%N ltac:(vm_compute; discriminate)) as (info & Hinfo & Hg).
    change (glyphs h'' !! 65%nat = Some
              {| character := 65%N; dimensions := (Width info, Height info);
                 bearing := (XOffset info, YOffset info); advance := Advance info;
                 bitmap_dimensions := (X info, Y info) |}) in Hg.
    rewrite Hg. vm_compute in Hinfo. injection Hinfo as <-. reflexivity.
Defined.

(** The sample face over the ASCII range returns with fuel for 96 tests;
    over the range up to 65535 it does not return. *)
Lemma BuildGlyphMap_in_bounds_witness :
  (exists h',
     BuildGlyphMap 96 new FontSamples.face {| min_codepoint := 32; max_codepoint := 126 |}
     = Done h')
  /\ forall fuel h',
       BuildGlyphMap fuel new FontSamples.face
         {| min_codepoint := 32; max_codepoint := 65535 |} <> Done h'.
Proof.
  split.
  - destruct (BuildGlyphMap_in_bounds new FontSamples.face
                {| min_codepoint := 32; max_codepoint := 126 |}) as [Hends _].
    destruct (Hends ltac:(reflexivity)) as [Hreturns _].
    apply Hreturns.
    + intros c _. cbn. destruct (c =? 65)%N; [lia|]. destruct (c =? 86)%N; lia.
    + vm_compute. lia.
  - destruct (BuildGlyphMap_in_bounds new FontSamples.face
                {| min_codepoint := 32; max_codepoint := 65535 |}) as [_ Hendless].
    apply Hendless. vm_compute. discriminate.
Defined.

(** A Cyrillic range followed by the ASCII range: 127 places are left. *)
Lemma BuildGlyphMaps_sized_by_last_range_witness :
  match BuildGlyphMaps 400 new FontSamples.face
          ([ {| min_codepoint := 1024; max_codepoint := 1279 |} ]
           ++ [ {| min_codepoint := 32; max_codepoint := 126 |} ]) with
  | Done h' => length (glyphs h') = 127%nat
  | _ => False
  end.
Proof.
  destruct (BuildGlyphMaps 400 new FontSamples.face
              ([ {| min_codepoint := 1024; max_codepoint := 1279 |} ]
               ++ [ {| min_codepoint := 32; max_codepoint := 126 |} ]))
    as [h'| | |] eqn:Hrun; [|vm_compute in Hrun; discriminate Hrun ..].
  exact (proj1 (BuildGlyphMaps_sized_by_last_range _ _ _ _ _ _ Hrun)).
Defined.

(** *** The line under a text *)



Section GenerateLineFacts.

Variable Vertex : Type.
Variable Vertex_default : Vertex.
Variable GenerateQuad : Vector2f -> Vector2f -> Colourb -> Z -> list Vertex * list Z.

(** [GenerateQuad] writes four vertices and six indices. *)
Hypothesis GenerateQuad_size : forall origin dimensions colour index_offset,
  length (fst (GenerateQuad origin dimensions colour index_offset)) = 4%nat
  /\ length (snd (GenerateQuad origin dimensions colour index_offset)) = 6%nat.


End GenerateLineFacts.



(** *** A successful initialisation *)

Lemma BuildGlyphMaps_keeps_layers fuel face ranges : forall h h',
  BuildGlyphMaps fuel h face ranges = Done h' ->
  layer_configurations h' = layer_configurations h.
Proof.
  induction ranges as [|r ranges IH]; intros h h' Hrun.
  - now injection Hrun as <-.
  - cbn [BuildGlyphMaps] in Hrun.
    destruct (BuildGlyphMap fuel h face r) as [h1| | |] eqn:Hfirst;
      try discriminate Hrun.
    cbn in Hrun. rewrite (IH _ _ Hrun).
    destruct (BuildGlyphMap_Done _ _ _ _ _ Hfirst) as (glyphs' & _ & ->). reflexivity.
Qed.

Lemma GenerateMetrics_keeps_layers h face h' :
  GenerateMetrics h face = Done h' ->
  layer_configurations h' = layer_configurations h /\ glyphs h' = glyphs h.
Proof.
  unfold GenerateMetrics. cbv zeta.
  destruct (if 0 <=? BM_Helper_GetCharacterTableIndex face 120%N then _ else _)
    as [x| | |]; try discriminate.
  cbn. intros [= <-]. split; reflexivity.
Qed.

Lemma GenerateString_at h geometry string position colour index
    (configuration : LayerConfiguration) :
  0 <= index < of_size (length (layer_configurations h)) ->
  layer_configurations h !! Z.to_nat index = Some configuration ->
  exists geometry',
    GenerateString h geometry string position colour index
    = Done (geometry',
            match configuration with
            | [] => 0
            | _ :: _ => GetStringWidth h string 0%N
            end).
Proof.
  intros [Hlo Hhi] Hcfg. unfold GenerateString, at_index.
  rewrite (proj2 (Z.leb_le _ _) Hlo), (proj2 (Z.ltb_lt _ _) Hhi). simpl.
  destruct (Z.ltb_spec index 0) as [Hneg|_]; [lia|].
  destruct (layer_configurations h !! Z.to_nat index) as [found|]; [|discriminate].
  injection Hcfg as ->. simpl.
  destruct (GenerateString_layers_state h string position colour configuration
              geometry 0 0) as [geometry' ->].
  eauto.
Qed.

Section InitialiseSuccess.

Variable BuildList : list UnicodeRange -> string -> bool * list UnicodeRange.
Variable GenerateLayer : t -> option nat -> FontFaceLayer * t.

(** [GenerateLayer] makes a layer and leaves the layer configurations of
    the handle as they are. *)
Hypothesis GenerateLayer_keeps_configurations : forall h effect,
  layer_configurations (snd (GenerateLayer h effect)) = layer_configurations h.

(** X17. When [Initialise] returns true, the charset was accepted and
    nothing was logged; one layer configuration was added behind those the
    handle had, holding the base layer alone, and [GenerateString] with the
    index of that configuration returns, for every string, the width
    [GetStringWidth] reports for it on the initialised handle (the number of
    configurations being an [int]). *)
Theorem Initialise_then_GenerateString
    (fuel : nat) (h : t) (log : Log) (face : BitmapFontDefinitions) (_charset : string)
    (_size : Z) (h' : t) (log' : Log) :
  Initialise BuildList GenerateLayer fuel h log face _charset _size
    = Done (true, h', log') ->
  in_range (Z.of_nat (length (layer_configurations h) + 1)) ->
  fst (BuildList (charset h) _charset) = true
  /\ log' = log
  /\ exists layer,
       base_layer h' = Some (layer_address layer)
       /\ layer_configurations h' = layer_configurations h ++ [[layer]]
       /\ forall geometry string position colour,
            exists geometry',
              GenerateString h' geometry string position colour
                (Z.of_nat (length (layer_configurations h)))
              = Done (geometry', GetStringWidth h' string 0%N).
Proof.
  unfold Initialise. cbv zeta.
  destruct (BuildList (charset h) _charset) as [valid ranges].
  destruct valid; cbn [negb fst]; [|discriminate].
  match goal with |- context [BuildGlyphMaps fuel ?h0 face ?r] =>
    pose proof (BuildGlyphMaps_keeps_layers fuel face r h0) as Hmaps;
    destruct (BuildGlyphMaps fuel h0 face r) as [h1| | |]; try discriminate
  end.
  specialize (Hmaps h1 eq_refl). cbn [layer_configurations] in Hmaps. cbn [obind].
  pose proof (GenerateMetrics_keeps_layers h1 face) as Hmetrics.
  destruct (GenerateMetrics h1 face) as [h2| | |]; try discriminate.
  destruct (Hmetrics h2 eq_refl) as [Hmetrics' _]. clear Hmetrics. cbn [obind].
  pose proof (GenerateLayer_keeps_configurations h2 None) as Hlayer.
  destruct (GenerateLayer h2 None) as [layer h3]. cbn [snd] in Hlayer.
  intros [= <- <-] Hfit. split; [reflexivity|]. split; [reflexivity|].
  exists layer. cbn [base_layer layer_configurations].
  assert (Hconfigurations : layer_configurations h3 = layer_configurations h)
    by congruence.
  rewrite Hconfigurations.
  split; [reflexivity|]. split; [reflexivity|].
  intros geometry string position colour.
  match goal with |- context [GenerateString ?hf _ _ _ _ _] => set (final := hf) end.
  apply (GenerateString_at final geometry string position colour _ [layer]).
  - subst final. cbn [layer_configurations].
    unfold of_size. rewrite length_app. cbn [length].
    rewrite (wrap_small _ Hfit). lia.
  - subst final. cbn [layer_configurations]. rewrite Nat2Z.id.
    apply list_lookup_middle. reflexivity.
Qed.

End InitialiseSuccess.

(** The sample face with the charset ["U+0020-007E"]: the first
    configuration is served, and ["AV"] is 17 wide. *)
Lemma Initialise_then_GenerateString_witness :
  match Initialise FontSamples.BuildList FontSamples.GenerateLayer 128 new []
          FontSamples.face "U+0020-007E" 12 with
  | Done (true, h', _) =>
      exists geometry',
        GenerateString h' [] [65; 86]%N {| fx := 0; fy := 0 |} (0, 0, 0, 255)%N 0
        = Done (geometry', GetStringWidth h' [65; 86]%N 0%N)
  | _ => False
  end.
Proof.
  destruct (Initialise FontSamples.BuildList FontSamples.GenerateLayer 128 new []
              FontSamples.face "U+0020-007E" 12) as [[[[] h'] log']| | |] eqn:Hrun;
    try (vm_compute in Hrun; discriminate Hrun).
  destruct (Initialise_then_GenerateString FontSamples.BuildList
              FontSamples.GenerateLayer (fun _ _ => eq_refl) 128 new []
              FontSamples.face "U+0020-007E" 12 h' log' Hrun)
    as (_ & _ & layer & _ & _ & Hstring).
  - vm_compute. split; discriminate.
  - exact (Hstring [] [65; 86]%N {| fx := 0; fy := 0 |} (0, 0, 0, 255)%N).
Defined.


End FontFaceHandleFacts.

(** ** ScrollController *)

Module ScrollControllerFacts.
Import ScrollController.

Local Open Scope Q_scope.

Lemma Qlt_bool_spec (a b : Q) : reflect (a < b) (Qlt_bool a b).
Proof.
  unfold Qlt_bool. destruct (Qlt_le_dec a b) as [Hab|Hba].
  - assert (Qle_bool b a = false) as ->.
    { destruct (Qle_bool b a) eqn:E; [apply Qle_bool_iff in E; lra | reflexivity]. }
    constructor. exact Hab.
  - assert (Qle_bool b a = true) as -> by now apply Qle_bool_iff.
    constructor. lra.
Qed.

Lemma Qlt_bool_true a b : Qlt_bool a b = true <-> a < b.
Proof. destruct (Qlt_bool_spec a b); split; intros; (discriminate || tauto || lra). Qed.

Lemma Qlt_bool_false a b : Qlt_bool a b = false <-> b <= a.
Proof.
  destruct (Qlt_bool_spec a b) as [H|H]; split; intros; try discriminate; try reflexivity; lra.
Qed.

Lemma veq_true v w : veq v w = true <-> fx v == fx w /\ fy v == fy w.
Proof.
  unfold veq. rewrite andb_true_iff, !Qeq_bool_iff. tauto.
Qed.

(** *** The distance scrolled by a smooth scroll step *)

Lemma limit_scroll_distance_limited (target_delta scroll_distance : Q) :
  limited_to_target target_delta (limit_scroll_distance target_delta scroll_distance).
Proof.
  unfold limited_to_target, limit_scroll_distance, Min, Max.
  destruct (Qlt_bool_spec 0 target_delta) as [Hpos|Hpos].
  - destruct (Qlt_bool_spec scroll_distance 1) as [H1|H1];
      [destruct (Qlt_bool_spec 1 target_delta) as [H2|H2]
      |destruct (Qlt_bool_spec scroll_distance target_delta) as [H2|H2]];
      repeat split; intros; lra.
  - destruct (Qlt_bool_spec target_delta 0) as [Hneg|Hneg].
    + destruct (Qlt_bool_spec scroll_distance (- (1))) as [H1|H1];
        [destruct (Qlt_bool_spec scroll_distance target_delta) as [H2|H2]
        |destruct (Qlt_bool_spec (- (1)) target_delta) as [H2|H2]];
        repeat split; intros; lra.
    + repeat split; intros; lra.
Qed.

Lemma AbsoluteValue_Qabs a : AbsoluteValue a == Qabs a.
Proof.
  unfold AbsoluteValue. destruct (Qlt_bool_spec a 0) as [H|H].
  - symmetry. apply Qabs_neg. lra.
  - symmetry. apply Qabs_pos. lra.
Qed.

Lemma AbsoluteValue_cases a :
  (a < 0 /\ AbsoluteValue a = - a) \/ (0 <= a /\ AbsoluteValue a = a).
Proof.
  unfold AbsoluteValue. destruct (Qlt_bool_spec a 0) as [H|H]; [left|right]; split;
    (reflexivity || lra).
Qed.

Section SmoothscrollFacts.

Variable tween : Q -> Q.
Variable Reset : t -> t.
Variable DispatchEvent : Element -> Dictionary -> bool.

(** C9, as the code has it. In every [UpdateSmoothscroll] step and on each
    axis, the distance scrolled points towards the target and never goes
    beyond it: for a positive remaining distance it is positive and at most
    that distance, at least 1 when at least 1 remains and all that remains
    when less than 1 remains; likewise with the signs reversed for a
    negative one; and 0 for 0. So what remains after the step never changes
    sign. A distance other than zero is dispatched as a scroll event, and
    [Reset] is called when the distance scrolled is all that remained, and
    also when the dispatched event was handled by no element. *)
Theorem UpdateSmoothscroll_distance_limited
    (sc : t) (mouse_position : Vector2i) (dp_ratio now : Q)
    (sc' : t) (effects : list Effect) :
  UpdateSmoothscroll tween Reset DispatchEvent sc mouse_position dp_ratio now
    = Done (sc', effects) ->
  let target_delta := smoothscroll_target_delta sc in
  let scroll_distance := smoothscroll_scroll_distance tween sc dp_ratio now in
  limited_to_target (fx target_delta) (fx scroll_distance)
  /\ limited_to_target (fy target_delta) (fy scroll_distance)
  /\ (0 <= fx target_delta -> 0 <= fx target_delta - fx scroll_distance)
  /\ (fx target_delta <= 0 -> fx target_delta - fx scroll_distance <= 0)
  /\ (0 <= fy target_delta -> 0 <= fy target_delta - fy scroll_distance)
  /\ (fy target_delta <= 0 -> fy target_delta - fy scroll_distance <= 0)
  /\ exists element, target sc = Some element
     /\ let parameters :=
          {| delta_x := fx scroll_distance; delta_y := fy scroll_distance |} in
        (vne scroll_distance (vec 0) = true ->
           head effects = Some (Dispatched element parameters))
        /\ (vne scroll_distance (vec 0) = false ->
              forall e p, Dispatched e p ∉ effects)
        /\ (ResetCalled ∈ effects <->
              veq scroll_distance target_delta = true
              \/ (vne scroll_distance (vec 0) = true
                  /\ DispatchEvent element parameters = true)).
Proof.
  intros Hrun target_delta scroll_distance.
  pose proof (limit_scroll_distance_limited (fx target_delta)
    (fx (vmap Round (vscale (fst (UpdateTime sc now))
       (CalculateSmoothscrollVelocity tween target_delta
          (smoothscroll_scrolled_distance sc) dp_ratio))))) as Hx.
  pose proof (limit_scroll_distance_limited (fy target_delta)
    (fy (vmap Round (vscale (fst (UpdateTime sc now))
       (CalculateSmoothscrollVelocity tween target_delta
          (smoothscroll_scrolled_distance sc) dp_ratio))))) as Hy.
  change (limited_to_target (fx target_delta) (fx scroll_distance)) in Hx.
  change (limited_to_target (fy target_delta) (fy scroll_distance)) in Hy.
  split; [exact Hx|]. split; [exact Hy|].
  assert (Hsign : forall td sd, limited_to_target td sd ->
            (0 <= td -> 0 <= td - sd) /\ (td <= 0 -> td - sd <= 0)).
  { intros td sd (Hp & Hn & Hz).
    destruct (Qlt_le_dec 0 td) as [H|H]; [specialize (Hp H); lra|].
    destruct (Qlt_le_dec td 0) as [H'|H']; [specialize (Hn H'); lra|].
    assert (td == 0) as H0 by lra. specialize (Hz H0). lra. }
  destruct (Hsign _ _ Hx) as [Hx1 Hx2]. destruct (Hsign _ _ Hy) as [Hy1 Hy2].
  do 4 (split; [assumption|]).
  unfold UpdateSmoothscroll in Hrun.
  destruct (mode_is (mode sc) Smoothscroll); [|discriminate].
  destruct (target sc) as [element|]; [|discriminate].
  exists element. split; [reflexivity|].
  fold target_delta scroll_distance in Hrun. simpl in Hrun.
  destruct (vne scroll_distance (vec 0)) eqn:Hne;
    [destruct (DispatchEvent element _) eqn:Hdisp|];
    destruct (veq scroll_distance target_delta) eqn:Heq;
    inversion Hrun; subst; clear Hrun; simpl;
    (split; [try discriminate; reflexivity|]);
    (split; [try discriminate; intros _ e p Hin;
             repeat (apply elem_of_cons in Hin as [Hin|Hin]; [discriminate|]);
             apply elem_of_nil in Hin; exact Hin|]);
    split; intros H;
    try (left; reflexivity);
    try (right; split; [reflexivity|assumption]);
    try (apply list_elem_of_In; simpl; tauto);
    try (destruct H as [H|[H1 H2]]; discriminate);
    try (destruct H as [H|[_ H]];
         [discriminate
         |pose proof (eq_trans (eq_sym H) Hdisp) as Hc; discriminate Hc]);
    try (repeat (apply elem_of_cons in H as [H|H]; [discriminate|]);
         apply elem_of_nil in H; destruct H).
Qed.

End SmoothscrollFacts.

(** With 300 pixels to go and every event handled, a first step of 1/60 s
    scrolls by a distance within the limits and dispatches it. *)
Lemma UpdateSmoothscroll_distance_limited_witness :
  limited_to_target 300
    (fy (smoothscroll_scroll_distance ScrollSamples.tween
           ScrollSamples.scroll_started 1 (1 # 60))).
Proof.
  destruct (UpdateSmoothscroll ScrollSamples.tween ScrollSamples.Reset
              ScrollSamples.handled ScrollSamples.scroll_started
              {| ix := 0; iy := 0 |} 1 (1 # 60)) as [[sc' effects]| | |] eqn:Hrun;
    [|vm_compute in Hrun; discriminate Hrun ..].
  destruct (UpdateSmoothscroll_distance_limited ScrollSamples.tween
              ScrollSamples.Reset ScrollSamples.handled
              ScrollSamples.scroll_started {| ix := 0; iy := 0 |} 1 (1 # 60)
              sc' effects Hrun) as (_ & Hy & _).
  exact Hy.
Defined.

(** With half a pixel to go, the step scrolls by that half pixel, which is
    less than one pixel. *)
Lemma UpdateSmoothscroll_less_than_one_pixel :
  ~ smoothscroll_step_as_documented ScrollSamples.tween ScrollSamples.Reset
      ScrollSamples.handled.
Proof.
  intros Hdoc.
  destruct (UpdateSmoothscroll ScrollSamples.tween ScrollSamples.Reset
              ScrollSamples.handled ScrollSamples.half_pixel_left
              {| ix := 0; iy := 0 |} 1 (1 # 60)) as [[sc' effects]| | |] eqn:Hrun;
    [|vm_compute in Hrun; discriminate Hrun ..].
  destruct (Hdoc ScrollSamples.half_pixel_left {| ix := 0; iy := 0 |} 1 (1 # 60)
              sc' effects ltac:(reflexivity) Hrun) as (_ & (Hpos & _) & _).
  assert (Hgo : 0 < fy (smoothscroll_target_delta ScrollSamples.half_pixel_left))
    by (vm_compute; reflexivity).
  specialize (Hpos Hgo).
  assert (Htd : fy (smoothscroll_target_delta ScrollSamples.half_pixel_left) == 1 # 2)
    by (vm_compute; reflexivity).
  rewrite Htd in Hpos. lra.
Qed.

(** *** The autoscroll velocity and cursor *)

Lemma Qabs_cases a : (a < 0 /\ Qabs a == - a) \/ (0 <= a /\ Qabs a == a).
Proof.
  destruct (Qlt_le_dec a 0) as [H|H]; [left|right]; split; try assumption.
  - apply Qabs_neg. lra.
  - now apply Qabs_pos.
Qed.

Lemma float_zero q : q == 0 -> Float.float q = 0.
Proof. apply FloatFacts.round_zero. Qed.

Lemma float_pos q : 0 < q -> 0 < Float.float q.
Proof. apply FloatFacts.round_pos. lia. Qed.

Lemma float_neg q : q < 0 -> Float.float q < 0.
Proof. apply FloatFacts.round_neg. lia. Qed.

Lemma float_monotone x y : x <= y -> Float.float x <= Float.float y.
Proof. apply FloatFacts.round_monotone. lia. Qed.

Lemma float_nonneg q : 0 <= q -> 0 <= Float.float q.
Proof. apply FloatFacts.round_nonneg. lia. Qed.

Lemma float_nonpos q : q <= 0 -> Float.float q <= 0.
Proof. apply FloatFacts.round_nonpos. lia. Qed.

Lemma AUTOSCROLL_SPEED_FACTOR_pos : 0 < AUTOSCROLL_SPEED_FACTOR.
Proof. vm_compute. reflexivity. Qed.

Lemma CalculateAutoscrollVelocity_components (target_delta : Vector2f) (dp_ratio : Q) :
  CalculateAutoscrollVelocity target_delta dp_ratio
  = {| fx := autoscroll_axis (fx target_delta) dp_ratio;
       fy := autoscroll_axis (fy target_delta) dp_ratio |}.
Proof.
  unfold CalculateAutoscrollVelocity, autoscroll_axis, vzip, vmap.
  cbn [fx fy]. reflexivity.
Qed.

(** The float quotient by a positive [dp_ratio] has the sign of the
    dividend, or is zero. *)
Lemma fdiv_sign (c dp_ratio : Q) :
  0 < dp_ratio ->
  (0 < fdiv c dp_ratio -> 0 < c) /\ (fdiv c dp_ratio < 0 -> c < 0).
Proof.
  intros Hdp. unfold fdiv.
  assert (Hinv : 0 < / dp_ratio) by now apply Qinv_lt_0_compat.
  split; intros H.
  - destruct (Qlt_le_dec 0 c) as [Hc|Hc]; [exact Hc|exfalso].
    assert (Hq : c / dp_ratio <= 0) by (unfold Qdiv; nra).
    apply float_nonpos in Hq. lra.
  - destruct (Qlt_le_dec c 0) as [Hc|Hc]; [exact Hc|exfalso].
    assert (Hq : 0 <= c / dp_ratio) by (unfold Qdiv; nra).
    apply float_nonneg in Hq. lra.
Qed.

(** The velocity as a function of the quotient [t] after the deadzone:
    zero at zero, and of the sign of [t] elsewhere. *)
Lemma autoscroll_curve_sign (t : Q) :
  let v := fmul (fmul AUTOSCROLL_SPEED_FACTOR t) (AbsoluteValue t) in
  (t == 0 -> v = 0) /\ (0 < t -> 0 < v) /\ (t < 0 -> v < 0).
Proof.
  intros v. subst v. unfold fmul. pose proof AUTOSCROLL_SPEED_FACTOR_pos as Hs.
  split; [|split]; intros Ht.
  - assert (H1 : Float.float (AUTOSCROLL_SPEED_FACTOR * t) = 0)
      by (apply float_zero; rewrite Ht; ring).
    rewrite H1. apply float_zero. ring.
  - assert (H1 : 0 < Float.float (AUTOSCROLL_SPEED_FACTOR * t))
      by (apply float_pos; nra).
    destruct (AbsoluteValue_cases t) as [[H _]|[_ ->]]; [lra|].
    apply float_pos. nra.
  - assert (H1 : Float.float (AUTOSCROLL_SPEED_FACTOR * t) < 0)
      by (apply float_neg; nra).
    destruct (AbsoluteValue_cases t) as [[_ ->]|[H _]]; [|lra].
    apply float_neg. nra.
Qed.

(** One component of [CalculateAutoscrollVelocity], for the component [c] of
    [target_delta]; [t] is the float quotient the deadzone is tested on. *)
Lemma autoscroll_component (c dp_ratio : Q) :
  0 < dp_ratio ->
  let t := fdiv c dp_ratio in
  let v := autoscroll_axis c dp_ratio in
  (Qabs t < 10 -> v == 0)
  /\ (10 <= t -> 0 < v /\ 0 < c)
  /\ (t <= - (10) -> v < 0 /\ c < 0).
Proof.
  intros Hdp t v. subst v. unfold autoscroll_axis. cbv zeta. fold t.
  unfold AUTOSCROLL_DEADZONE.
  pose proof (AbsoluteValue_Qabs t) as Habs.
  destruct (fdiv_sign c dp_ratio Hdp) as [Hpos Hneg]. fold t in Hpos, Hneg.
  pose proof (autoscroll_curve_sign 0) as (V0 & _).
  pose proof (autoscroll_curve_sign t) as (_ & Vp & Vn).
  cbv zeta in V0, Vp, Vn.
  destruct (Qabs_cases t) as [[Ht Ea]|[Ht Ea]];
    destruct (Qlt_bool_spec (AbsoluteValue t) 10) as [Hin|Hout];
    rewrite Habs, Ea in *.
  - split; [intros _; rewrite V0; reflexivity|]. split; intros H; exfalso; lra.
  - split; [intros H; exfalso; lra|]. split; intros H; [exfalso; lra|].
    split; [apply Vn | apply Hneg]; lra.
  - split; [intros _; rewrite V0; reflexivity|]. split; intros H; exfalso; lra.
  - split; [intros H; exfalso; lra|]. split; intros H; [|exfalso; lra].
    split; [apply Vp | apply Hpos]; lra.
Qed.

(** The component vanishes exactly in the deadzone, and has the sign of [c]
    outside. *)
Lemma autoscroll_component_zero (c dp_ratio : Q) :
  0 < dp_ratio ->
  let t := fdiv c dp_ratio in
  let v := autoscroll_axis c dp_ratio in
  (Qabs t < 10 <-> v == 0)
  /\ (~ Qabs t < 10 -> (0 < c <-> 0 < v) /\ (c < 0 <-> v < 0)).
Proof.
  intros Hdp t v. destruct (autoscroll_component c dp_ratio Hdp) as (Hin & Hup & Hdown).
  fold t in Hin, Hup, Hdown. fold v in Hin, Hup, Hdown.
  destruct (Qabs_cases t) as [[Ht Ea]|[Ht Ea]]; rewrite Ea.
  - destruct (Qlt_le_dec (- t) 10) as [Hd|Hd].
    + rewrite Ea in Hin. specialize (Hin Hd). split; [tauto|]. intros Hn. lra.
    + destruct Hdown as [Hv Hc]; [lra|]. split; [split; intros; lra|].
      intros _. split; split; intros; lra.
  - destruct (Qlt_le_dec t 10) as [Hd|Hd].
    + rewrite Ea in Hin. specialize (Hin Hd). split; [tauto|]. intros Hn. lra.
    + destruct Hup as [Hv Hc]; [lra|]. split; [split; intros; lra|].
      intros _. split; split; intros; lra.
Qed.

(** The velocity [GetAutoscrollCursor] computes, by its components. *)
Lemma GetAutoscrollCursor_idle (sc : t) (mouse_position : Vector2i) (dp_ratio : Q) :
  mode sc = Autoscroll ->
  let start := autoscroll_start_position sc in
  let vx :=
    autoscroll_axis
      (Float.float (inject_Z (Int.sub (ix mouse_position) (ix start)))) dp_ratio in
  let vy :=
    autoscroll_axis
      (Float.float (inject_Z (Int.sub (iy mouse_position) (iy start)))) dp_ratio in
  GetAutoscrollCursor sc mouse_position dp_ratio = Done "rmlui-scroll-idle"
  <-> vx == 0 /\ vy == 0.
Proof.
  intros Hmode start vx vy. unfold GetAutoscrollCursor. rewrite Hmode.
  cbn [mode_is RMLUI_ASSERT obind].
  rewrite CalculateAutoscrollVelocity_components.
  unfold to_Vector2f, isub, veq, vec. cbn [fx fy ix iy]. fold start. fold vx vy.
  destruct (Qeq_bool vx 0) eqn:Ex; destruct (Qeq_bool vy 0) eqn:Ey; cbn [andb].
  - apply Qeq_bool_iff in Ex, Ey. tauto.
  - split.
    + destruct (Qlt_bool 0 vy), (Qlt_bool vy 0), (Qlt_bool 0 vx), (Qlt_bool vx 0);
        discriminate.
    + intros [_ H]. apply Qeq_bool_iff in H. congruence.
  - split.
    + destruct (Qlt_bool 0 vy), (Qlt_bool vy 0), (Qlt_bool 0 vx), (Qlt_bool vx 0);
        discriminate.
    + intros [H _]. apply Qeq_bool_iff in H. congruence.
  - split.
    + destruct (Qlt_bool 0 vy), (Qlt_bool vy 0), (Qlt_bool 0 vx), (Qlt_bool vx 0);
        discriminate.
    + intros [H _]. apply Qeq_bool_iff in H. congruence.
Qed.

(** C10. For [dp_ratio > 0], each component of [CalculateAutoscrollVelocity]
    is 0 when the absolute value of that component of
    [target_delta / dp_ratio], the quotient of the two floats as the code
    computes it, is below the deadzone of 10, and has the sign of that
    component of [target_delta] otherwise. So in autoscroll mode
    [GetAutoscrollCursor] returns ["rmlui-scroll-idle"] exactly when both
    components of the offset of the mouse from the autoscroll start
    position, divided by [dp_ratio] in the same way, are within the
    deadzone. *)
Theorem CalculateAutoscrollVelocity_deadzone (target_delta : Vector2f) (dp_ratio : Q) :
  0 < dp_ratio ->
  let velocity := CalculateAutoscrollVelocity target_delta dp_ratio in
  let quotient_x := Float.float (fx target_delta / dp_ratio) in
  let quotient_y := Float.float (fy target_delta / dp_ratio) in
  (Qabs quotient_x < 10 -> fx velocity == 0)
  /\ (~ Qabs quotient_x < 10 ->
      (0 < fx target_delta <-> 0 < fx velocity)
      /\ (fx target_delta < 0 <-> fx velocity < 0))
  /\ (Qabs quotient_y < 10 -> fy velocity == 0)
  /\ (~ Qabs quotient_y < 10 ->
      (0 < fy target_delta <-> 0 < fy velocity)
      /\ (fy target_delta < 0 <-> fy velocity < 0))
  /\ forall (sc : t) (mouse_position : Vector2i),
       mode sc = Autoscroll ->
       let start := autoscroll_start_position sc in
       let offset_x :=
         Float.float (inject_Z (Int.sub (ix mouse_position) (ix start))) in
       let offset_y :=
         Float.float (inject_Z (Int.sub (iy mouse_position) (iy start))) in
       GetAutoscrollCursor sc mouse_position dp_ratio = Done "rmlui-scroll-idle"
       <-> Qabs (Float.float (offset_x / dp_ratio)) < 10
           /\ Qabs (Float.float (offset_y / dp_ratio)) < 10.
Proof.
  intros Hdp velocity quotient_x quotient_y.
  subst velocity. rewrite CalculateAutoscrollVelocity_components. cbn [fx fy].
  destruct (autoscroll_component_zero (fx target_delta) dp_ratio Hdp) as [Hx0 Hx1].
  destruct (autoscroll_component_zero (fy target_delta) dp_ratio Hdp) as [Hy0 Hy1].
  unfold fdiv in Hx0, Hx1, Hy0, Hy1.
  fold quotient_x in Hx0, Hx1. fold quotient_y in Hy0, Hy1.
  split; [apply Hx0|]. split; [exact Hx1|].
  split; [apply Hy0|]. split; [exact Hy1|].
  intros sc mouse_position Hmode. cbv zeta.
  rewrite (GetAutoscrollCursor_idle sc mouse_position dp_ratio Hmode).
  set (offset_x := Float.float (inject_Z (Int.sub (ix mouse_position)
                                            (ix (autoscroll_start_position sc))))).
  set (offset_y := Float.float (inject_Z (Int.sub (iy mouse_position)
                                            (iy (autoscroll_start_position sc))))).
  destruct (autoscroll_component_zero offset_x dp_ratio Hdp) as [Hox _].
  destruct (autoscroll_component_zero offset_y dp_ratio Hdp) as [Hoy _].
  unfold fdiv in Hox, Hoy.
  split; intros [Hx Hy]; (split; [apply Hox; exact Hx | apply Hoy; exact Hy]).
Qed.

(** At 96 dpi ([dp_ratio] 1) a mouse 5 pixels right of and 3 pixels above
    the start position is in the deadzone; 40 pixels to the right it is not.
    With [dp_ratio] the float 1.1 and the mouse 11 pixels to the right, the
    float quotient is 10: the mouse is out of the deadzone, though the
    quotient of the reals is below 10. *)
Lemma CalculateAutoscrollVelocity_deadzone_witness :
  GetAutoscrollCursor ScrollSamples.autoscrolling {| ix := 105; iy := 97 |} 1
    = Done "rmlui-scroll-idle"
  /\ GetAutoscrollCursor ScrollSamples.autoscrolling {| ix := 140; iy := 100 |} 1
     <> Done "rmlui-scroll-idle"
  /\ GetAutoscrollCursor ScrollSamples.autoscrolling {| ix := 111; iy := 100 |}
       (9227469 # 8388608)
     <> Done "rmlui-scroll-idle"
  /\ fx (CalculateAutoscrollVelocity {| fx := 5; fy := -3 |} 1) == 0
  /\ 0 < fx (CalculateAutoscrollVelocity {| fx := 40; fy := -3 |} 1)
  /\ 0 < fx (CalculateAutoscrollVelocity {| fx := 11; fy := 0 |} (9227469 # 8388608)).
Proof.
  assert (Hdp : 0 < 1) by reflexivity.
  assert (Hdp' : 0 < 9227469 # 8388608) by reflexivity.
  destruct (CalculateAutoscrollVelocity_deadzone {| fx := 5; fy := -3 |} 1 Hdp)
    as (Hx0 & _ & _ & _ & Hcursor).
  destruct (CalculateAutoscrollVelocity_deadzone {| fx := 40; fy := -3 |} 1 Hdp)
    as (_ & Hx1 & _).
  destruct (CalculateAutoscrollVelocity_deadzone {| fx := 11; fy := 0 |}
              (9227469 # 8388608) Hdp') as (_ & Hx2 & _ & _ & Hcursor').
  assert (Hauto : mode ScrollSamples.autoscrolling = Autoscroll) by reflexivity.
  split; [|split; [|split; [|split; [|split]]]].
  - apply (Hcursor ScrollSamples.autoscrolling {| ix := 105; iy := 97 |} Hauto).
    split; vm_compute; reflexivity.
  - intros Hidle.
    apply (Hcursor ScrollSamples.autoscrolling {| ix := 140; iy := 100 |} Hauto)
      in Hidle as [H _].
    vm_compute in H. discriminate H.
  - intros Hidle.
    apply (Hcursor' ScrollSamples.autoscrolling {| ix := 111; iy := 100 |} Hauto)
      in Hidle as [H _].
    vm_compute in H. discriminate H.
  - apply Hx0. vm_compute. reflexivity.
  - assert (Hout : ~ Qabs (Float.float (40 / 1)) < 10)
      by (intros H; vm_compute in H; discriminate H).
    apply (Hx1 Hout). reflexivity.
  - assert (Hout : ~ Qabs (Float.float (11 / (9227469 # 8388608))) < 10)
      by (intros H; vm_compute in H; discriminate H).
    apply (Hx2 Hout). reflexivity.
Defined.

(** *** The smooth scroll velocity *)

Lemma div_sign (c dp_ratio : Q) :
  0 < dp_ratio ->
  (0 < c <-> 0 < c / dp_ratio) /\ (c < 0 <-> c / dp_ratio < 0)
  /\ (c == 0 <-> c / dp_ratio == 0).
Proof.
  intros Hdp.
  assert (Hc : c == (c / dp_ratio) * dp_ratio).
  { rewrite Qmult_comm, Qmult_div_r; [reflexivity|lra]. }
  set (t := c / dp_ratio) in *.
  repeat split; intros H; nra.
Qed.

Lemma AbsoluteValue_nonnegative a : 0 <= AbsoluteValue a.
Proof. destruct (AbsoluteValue_cases a) as [[H ->]|[H ->]]; lra. Qed.

Lemma window_alpha (y : Q) :
  0 <= y -> 0 <= Min (y / SMOOTHSCROLL_WINDOW_SIZE) 1 <= 1.
Proof.
  intros Hy. unfold Min, SMOOTHSCROLL_WINDOW_SIZE.
  assert (0 <= y / 50) by (apply Qle_shift_div_l; lra).
  destruct (Qlt_bool_spec (y / 50) 1); lra.
Qed.

Lemma smooth_component (t dp_ratio window : Q) :
  0 < dp_ratio -> 0 <= window ->
  let v := dp_ratio * signum t
           * (window * SMOOTHSCROLL_VELOCITY_CONSTANT
              + SMOOTHSCROLL_VELOCITY_SQUARE_FACTOR * AbsoluteValue t * AbsoluteValue t) in
  (t == 0 -> v == 0) /\ (0 < t -> 0 < v) /\ (t < 0 -> v < 0).
Proof.
  intros Hdp Hw v. subst v.
  unfold SMOOTHSCROLL_VELOCITY_CONSTANT, SMOOTHSCROLL_VELOCITY_SQUARE_FACTOR, signum.
  set (a := AbsoluteValue t).
  assert (Ha : (t == 0 -> a == 0) /\ (0 < t -> 0 < a) /\ (t < 0 -> 0 < a)).
  { subst a. destruct (AbsoluteValue_cases t) as [[H ->]|[H ->]];
      repeat split; intros; lra. }
  destruct Ha as (Ha0 & Hap & Han).
  destruct (Qlt_bool_spec 0 t) as [Hp|Hp]; [|destruct (Qlt_bool_spec t 0) as [Hn|Hn]].
  - specialize (Hap Hp).
    assert (0 < (5 # 100) * a * a) by nra.
    assert (0 < window * 800 + (5 # 100) * a * a) by lra.
    assert (0 < dp_ratio * 1 * (window * 800 + (5 # 100) * a * a)) by nra.
    repeat split; intros; lra.
  - specialize (Han Hn).
    assert (0 < (5 # 100) * a * a) by nra.
    assert (0 < window * 800 + (5 # 100) * a * a) by lra.
    assert (dp_ratio * - (1) * (window * 800 + (5 # 100) * a * a) < 0) by nra.
    repeat split; intros; lra.
  - assert (dp_ratio * 0 * (window * 800 + (5 # 100) * a * a) == 0) by ring.
    repeat split; intros; lra.
Qed.

Section SmoothscrollVelocityFacts.

Variable tween : Q -> Q.
Hypothesis tween_nonnegative : forall a, 0 <= a <= 1 -> 0 <= tween a.

(** X2. With an easing curve that is not negative on the unit interval and
    [dp_ratio > 0],
    each component of [CalculateSmoothscrollVelocity] points towards the
    target: it is positive, negative or zero as that component of
    [target_delta] is. In particular the velocity vanishes on an axis
    exactly when nothing remains to scroll there, whatever has been scrolled
    so far. *)
Theorem CalculateSmoothscrollVelocity_towards_target
    (target_delta scrolled_distance : Vector2f) (dp_ratio : Q) :
  0 < dp_ratio ->
  let velocity :=
    CalculateSmoothscrollVelocity tween target_delta scrolled_distance dp_ratio in
  ((fx target_delta == 0 <-> fx velocity == 0)
   /\ (0 < fx target_delta <-> 0 < fx velocity)
   /\ (fx target_delta < 0 <-> fx velocity < 0))
  /\ ((fy target_delta == 0 <-> fy velocity == 0)
      /\ (0 < fy target_delta <-> 0 < fy velocity)
      /\ (fy target_delta < 0 <-> fy velocity < 0)).
Proof.
  intros Hdp velocity.
  assert (Haxis : forall c a b : Q,
    0 <= a <= 1 -> 0 <= b <= 1 ->
    let v := dp_ratio * signum (c / dp_ratio)
             * (tween a * tween b * SMOOTHSCROLL_VELOCITY_CONSTANT
                + SMOOTHSCROLL_VELOCITY_SQUARE_FACTOR * AbsoluteValue (c / dp_ratio)
                  * AbsoluteValue (c / dp_ratio)) in
    (c == 0 <-> v == 0) /\ (0 < c <-> 0 < v) /\ (c < 0 <-> v < 0)).
  { intros c a b Ha Hb v.
    assert (Hw : 0 <= tween a * tween b).
    { apply Qmult_le_0_compat; now apply tween_nonnegative. }
    destruct (smooth_component (c / dp_ratio) dp_ratio (tween a * tween b) Hdp Hw)
      as (H0 & Hp & Hn). fold v in H0, Hp, Hn.
    destruct (div_sign c dp_ratio Hdp) as (Dp & Dn & D0).
    destruct (Qlt_le_dec 0 c) as [Hc|Hc].
    - pose proof (Hp (proj1 Dp Hc)). repeat split; intros; lra.
    - destruct (Qlt_le_dec c 0) as [Hc'|Hc'].
      + pose proof (Hn (proj1 Dn Hc')). repeat split; intros; lra.
      + assert (Hz : c == 0) by lra. pose proof (H0 (proj1 D0 Hz)).
        repeat split; intros; lra. }
  assert (Hin : forall x, 0 <= AbsoluteValue x / dp_ratio).
  { intros x. apply Qle_shift_div_l; [exact Hdp|].
    pose proof (AbsoluteValue_nonnegative x). lra. }
  split; apply Haxis; apply window_alpha;
    (apply Hin || apply AbsoluteValue_nonnegative).
Qed.

End SmoothscrollVelocityFacts.

Lemma sample_tween_nonnegative a : 0 <= a <= 1 -> 0 <= ScrollSamples.tween a.
Proof. intros H. unfold ScrollSamples.tween. nra. Qed.

(** With 300 pixels to go down, the velocity points down. *)
Lemma CalculateSmoothscrollVelocity_towards_target_witness :
  0 < fy (CalculateSmoothscrollVelocity ScrollSamples.tween
            {| fx := 0; fy := 300 |} {| fx := 0; fy := 0 |} 1)
  /\ fx (CalculateSmoothscrollVelocity ScrollSamples.tween
           {| fx := 0; fy := 300 |} {| fx := 0; fy := 0 |} 1) == 0.
Proof.
  destruct (CalculateSmoothscrollVelocity_towards_target ScrollSamples.tween
              sample_tween_nonnegative {| fx := 0; fy := 300 |}
              {| fx := 0; fy := 0 |} 1 ltac:(reflexivity))
    as ((Hx & _) & (_ & Hy & _)).
  split; [apply Hy | apply Hx]; reflexivity.
Defined.



(** *** Progress of a smooth scroll *)

Lemma mode_is_true m n : mode_is m n = true -> m = n.
Proof. destruct m, n; simpl; congruence. Qed.


Section SmoothscrollProgress.

Variable tween : Q -> Q.
Variable Reset : t -> t.
Variable DispatchEvent : Element -> Dictionary -> bool.


End SmoothscrollProgress.


(** *** More on the autoscroll velocity *)

(** The velocity as a function of the quotient after the deadzone. *)
Lemma autoscroll_curve_monotone (d1 d2 : Q) :
  d1 <= d2 ->
  fmul (fmul AUTOSCROLL_SPEED_FACTOR d1) (AbsoluteValue d1)
  <= fmul (fmul AUTOSCROLL_SPEED_FACTOR d2) (AbsoluteValue d2).
Proof.
  intros Hle. unfold fmul. pose proof AUTOSCROLL_SPEED_FACTOR_pos as Hs.
  set (a1 := Float.float (AUTOSCROLL_SPEED_FACTOR * d1)).
  set (a2 := Float.float (AUTOSCROLL_SPEED_FACTOR * d2)).
  assert (Ha : a1 <= a2) by (apply float_monotone; nra).
  assert (Hn1 : d1 <= 0 -> a1 <= 0) by (intros; apply float_nonpos; nra).
  assert (Hn2 : d2 <= 0 -> a2 <= 0) by (intros; apply float_nonpos; nra).
  assert (Hp1 : 0 <= d1 -> 0 <= a1) by (intros; apply float_nonneg; nra).
  assert (Hp2 : 0 <= d2 -> 0 <= a2) by (intros; apply float_nonneg; nra).
  apply float_monotone.
  destruct (AbsoluteValue_cases d1) as [[N1 ->]|[N1 ->]];
    destruct (AbsoluteValue_cases d2) as [[N2 ->]|[N2 ->]].
  - assert (a1 <= 0) by (apply Hn1; lra). assert (a2 <= 0) by (apply Hn2; lra). nra.
  - assert (a1 <= 0) by (apply Hn1; lra). assert (0 <= a2) by (apply Hp2; lra). nra.
  - exfalso. lra.
  - assert (0 <= a1) by (apply Hp1; lra). assert (0 <= a2) by (apply Hp2; lra). nra.
Qed.

Lemma deadzone_monotone (t1 t2 : Q) :
  t1 <= t2 ->
  (if Qlt_bool (AbsoluteValue t1) AUTOSCROLL_DEADZONE then 0 else t1)
  <= (if Qlt_bool (AbsoluteValue t2) AUTOSCROLL_DEADZONE then 0 else t2).
Proof.
  intros Hle. unfold AUTOSCROLL_DEADZONE.
  destruct (Qlt_bool_spec (AbsoluteValue t1) 10) as [D1|D1];
    destruct (Qlt_bool_spec (AbsoluteValue t2) 10) as [D2|D2];
    destruct (AbsoluteValue_cases t1) as [[N1 E1]|[N1 E1]];
    destruct (AbsoluteValue_cases t2) as [[N2 E2]|[N2 E2]];
    rewrite ?E1, ?E2 in *; lra.
Qed.

Lemma div_monotone (c1 c2 dp_ratio : Q) :
  0 < dp_ratio -> c1 <= c2 -> c1 / dp_ratio <= c2 / dp_ratio.
Proof.
  intros Hdp Hle. unfold Qdiv. apply Qmult_le_compat_r; [exact Hle|].
  apply Qlt_le_weak, Qinv_lt_0_compat, Hdp.
Qed.

Lemma autoscroll_axis_monotone (c1 c2 dp_ratio : Q) :
  0 < dp_ratio -> c1 <= c2 ->
  autoscroll_axis c1 dp_ratio <= autoscroll_axis c2 dp_ratio.
Proof.
  intros Hdp Hle. unfold autoscroll_axis. cbv zeta.
  apply autoscroll_curve_monotone, deadzone_monotone. unfold fdiv.
  apply float_monotone, div_monotone; assumption.
Qed.

(** X4. For [dp_ratio > 0] each component of [CalculateAutoscrollVelocity]
    grows with that component of [target_delta] and with nothing else:
    moving the mouse further from the start position in a direction never
    slows the autoscroll in that direction, and the one axis does not
    influence the other. *)
Theorem CalculateAutoscrollVelocity_monotone
    (first second : Vector2f) (dp_ratio : Q) :
  0 < dp_ratio ->
  (fx first <= fx second ->
   fx (CalculateAutoscrollVelocity first dp_ratio)
     <= fx (CalculateAutoscrollVelocity second dp_ratio))
  /\ (fy first <= fy second ->
      fy (CalculateAutoscrollVelocity first dp_ratio)
        <= fy (CalculateAutoscrollVelocity second dp_ratio)).
Proof.
  intros Hdp. rewrite !CalculateAutoscrollVelocity_components. cbn [fx fy].
  split; intros Hle; now apply autoscroll_axis_monotone.
Qed.

Lemma CalculateAutoscrollVelocity_monotone_witness :
  fx (CalculateAutoscrollVelocity {| fx := 20; fy := 0 |} 1)
    <= fx (CalculateAutoscrollVelocity {| fx := 30; fy := 500 |} 1).
Proof.
  assert (Hdp : 0 < 1) by reflexivity.
  assert (Hle : 20 <= 30) by (vm_compute; discriminate).
  exact (proj1 (CalculateAutoscrollVelocity_monotone {| fx := 20; fy := 0 |}
                  {| fx := 30; fy := 500 |} 1 Hdp) Hle).
Defined.

(** *** The autoscroll cursor *)

Lemma cursor_axis (c dp_ratio : Q) (positive negative : string) :
  0 < dp_ratio ->
  let v := autoscroll_axis c dp_ratio in
  (cursor_suffix c dp_ratio positive negative = positive
   /\ Qlt_bool 0 v = true)
  \/ (cursor_suffix c dp_ratio positive negative = negative
      /\ Qlt_bool 0 v = false /\ Qlt_bool v 0 = true)
  \/ (cursor_suffix c dp_ratio positive negative = ""
      /\ Qlt_bool 0 v = false /\ Qlt_bool v 0 = false /\ v == 0).
Proof.
  intros Hdp v.
  destruct (autoscroll_component c dp_ratio Hdp) as (Hin & Hup & Hdown).
  fold v in Hin, Hup, Hdown.
  unfold cursor_suffix, AUTOSCROLL_DEADZONE.
  set (t := fdiv c dp_ratio) in *.
  destruct (Qle_bool 10 t) eqn:E1.
  - left. apply Qle_bool_iff in E1. destruct (Hup E1) as [Hv _].
    split; [reflexivity|]. now apply Qlt_bool_true.
  - assert (Ht : t < 10).
    { apply Qnot_le_lt. intros H. apply Qle_bool_iff in H. congruence. }
    destruct (Qle_bool t (- (10))) eqn:E2.
    + right. left. apply Qle_bool_iff in E2. destruct (Hdown E2) as [Hv _].
      split; [reflexivity|]. split; [apply Qlt_bool_false; lra|].
      now apply Qlt_bool_true.
    + right. right.
      assert (Ht' : - (10) < t).
      { apply Qnot_le_lt. intros H. apply Qle_bool_iff in H. congruence. }
      assert (Hv : v == 0).
      { apply Hin. destruct (Qabs_cases t) as [[_ ->]|[_ ->]]; lra. }
      split; [reflexivity|].
      split; [apply Qlt_bool_false; lra|]. split; [apply Qlt_bool_false; lra|].
      exact Hv.
Qed.

Lemma GetAutoscrollCursor_cursor_of_offset
    (sc : t) (mouse_position : Vector2i) (dp_ratio : Q) :
  0 < dp_ratio -> mode sc = Autoscroll ->
  let start := autoscroll_start_position sc in
  GetAutoscrollCursor sc mouse_position dp_ratio
  = Done (cursor_of_offset
            {| fx := Float.float (inject_Z (Int.sub (ix mouse_position) (ix start)));
               fy := Float.float (inject_Z (Int.sub (iy mouse_position) (iy start))) |}
            dp_ratio).
Proof.
  intros Hdp Hmode start. unfold GetAutoscrollCursor, cursor_of_offset. rewrite Hmode.
  cbn [mode_is RMLUI_ASSERT obind].
  rewrite CalculateAutoscrollVelocity_components.
  unfold to_Vector2f, isub, veq, vec. cbn [fx fy ix iy]. fold start.
  set (offset_x := Float.float (inject_Z (Int.sub (ix mouse_position) (ix start)))).
  set (offset_y := Float.float (inject_Z (Int.sub (iy mouse_position) (iy start)))).
  pose proof (cursor_axis offset_y dp_ratio "-up" "-down" Hdp) as Hy.
  pose proof (cursor_axis offset_x dp_ratio "-right" "-left" Hdp) as Hx.
  cbv zeta in Hx, Hy.
  set (vx := autoscroll_axis offset_x dp_ratio) in *.
  set (vy := autoscroll_axis offset_y dp_ratio) in *.
  destruct Hy as [(-> & Py)|[(-> & Py & Ny)|(-> & Py & Ny & Zy)]];
    destruct Hx as [(-> & Px)|[(-> & Px & Nx)|(-> & Px & Nx & Zx)]];
    rewrite ?Py, ?Ny, ?Px, ?Nx;
    try (assert (Qeq_bool vx 0 && Qeq_bool vy 0 = false) as ->
           by (apply andb_false_iff;
               repeat match goal with
                      | H : Qlt_bool _ _ = true |- _ => apply Qlt_bool_true in H
                      end;
               first [ left; apply not_true_is_false; intros E;
                       apply Qeq_bool_iff in E; lra
                     | right; apply not_true_is_false; intros E;
                       apply Qeq_bool_iff in E; lra ]);
         reflexivity).
  assert (Qeq_bool vx 0 && Qeq_bool vy 0 = true) as ->
    by (apply andb_true_iff; split; apply Qeq_bool_iff; assumption).
  reflexivity.
Qed.

(** X5. In autoscroll mode and for [dp_ratio > 0], [GetAutoscrollCursor]
    returns the cursor that the offset of the mouse from the start position
    names, axis by axis: ["-up"] when the float quotient of the offset in y
    by [dp_ratio] is 10 or more, ["-down"] when it is -10 or less,
    ["-right"] and ["-left"] likewise in x, the vertical word before the
    horizontal one, and ["rmlui-scroll-idle"] when neither axis has a word.
    The offset is the difference of the [int] positions, converted to
    [float]. In any other mode the call ends in the failed assertion. *)
Theorem GetAutoscrollCursor_by_offset
    (sc : t) (mouse_position : Vector2i) (dp_ratio : Q) :
  0 < dp_ratio ->
  let start := autoscroll_start_position sc in
  let offset :=
    {| fx := Float.float (inject_Z (Int.sub (ix mouse_position) (ix start)));
       fy := Float.float (inject_Z (Int.sub (iy mouse_position) (iy start))) |} in
  (mode sc = Autoscroll ->
   GetAutoscrollCursor sc mouse_position dp_ratio
   = Done (cursor_of_offset offset dp_ratio))
  /\ (mode sc <> Autoscroll ->
      GetAutoscrollCursor sc mouse_position dp_ratio = AssertionFailed).
Proof.
  intros Hdp start offset. split.
  - intros Hmode. now apply GetAutoscrollCursor_cursor_of_offset.
  - intros Hmode. unfold GetAutoscrollCursor.
    destruct (mode sc); try reflexivity. congruence.
Qed.

(** The mouse 40 pixels right of and 50 pixels above the start position of
    the sample autoscroll; and 11 pixels to the right with [dp_ratio] the
    float 1.1, where the float quotient is 10. *)
Lemma GetAutoscrollCursor_by_offset_witness :
  GetAutoscrollCursor ScrollSamples.autoscrolling {| ix := 140; iy := 50 |} 1
    = Done "rmlui-scroll-down-right"
  /\ GetAutoscrollCursor ScrollSamples.autoscrolling {| ix := 111; iy := 100 |}
       (9227469 # 8388608)
     = Done "rmlui-scroll-right"
  /\ GetAutoscrollCursor ScrollSamples.scroll_started {| ix := 140; iy := 50 |} 1
     = AssertionFailed.
Proof.
  assert (Hdp : 0 < 1) by reflexivity.
  assert (Hdp' : 0 < 9227469 # 8388608) by reflexivity.
  assert (Hauto : mode ScrollSamples.autoscrolling = Autoscroll) by reflexivity.
  destruct (GetAutoscrollCursor_by_offset ScrollSamples.autoscrolling
              {| ix := 140; iy := 50 |} 1 Hdp) as [H1 _].
  destruct (GetAutoscrollCursor_by_offset ScrollSamples.autoscrolling
              {| ix := 111; iy := 100 |} (9227469 # 8388608) Hdp') as [H2 _].
  destruct (GetAutoscrollCursor_by_offset ScrollSamples.scroll_started
              {| ix := 140; iy := 50 |} 1 Hdp) as [_ Hother].
  split; [|split].
  - rewrite (H1 Hauto). vm_compute. reflexivity.
  - rewrite (H2 Hauto). vm_compute. reflexivity.
  - apply Hother. discriminate.
Defined.

(** *** Starting an autoscroll *)

Lemma cursor_of_offset_zero dp_ratio :
  cursor_of_offset {| fx := 0; fy := 0 |} dp_ratio = "rmlui-scroll-idle".
Proof.
  unfold cursor_of_offset, cursor_suffix, AUTOSCROLL_DEADZONE, fdiv. cbn [fx fy].
  assert (H0 : Float.float (0 / dp_ratio) = 0)
    by (apply float_zero; unfold Qdiv; ring).
  rewrite H0. reflexivity.
Qed.

(** X6. Whatever [Reset] does, after [ActivateAutoscroll] the controller is
    in autoscroll mode with the given target and start position and the
    clock at the present time, so [GetAutoscrollCursor] does not fail: for
    [dp_ratio > 0] it is the idle cursor while the mouse is still at the
    start position, and anywhere else the cursor of the offset from the
    start position (the difference of the [int] positions converted to
    [float], the deadzone being tested on its float quotient by
    [dp_ratio]). *)
Theorem ActivateAutoscroll_then_cursor
    (Reset : t -> t) (sc : t) (in_target : option Element)
    (start_position mouse_position : Vector2i) (now dp_ratio : Q) :
  0 < dp_ratio ->
  let sc' := ActivateAutoscroll Reset sc in_target start_position now in
  let offset :=
    {| fx := Float.float
               (inject_Z (Int.sub (ix mouse_position) (ix start_position)));
       fy := Float.float
               (inject_Z (Int.sub (iy mouse_position) (iy start_position))) |} in
  mode sc' = Autoscroll /\ target sc' = in_target
  /\ autoscroll_start_position sc' = start_position
  /\ previous_update_time sc' = now
  /\ GetAutoscrollCursor sc' start_position dp_ratio = Done "rmlui-scroll-idle"
  /\ GetAutoscrollCursor sc' mouse_position dp_ratio
     = Done (cursor_of_offset offset dp_ratio).
Proof.
  intros Hdp sc' offset.
  assert (Hmode : mode sc' = Autoscroll) by reflexivity.
  assert (Hstart : autoscroll_start_position sc' = start_position) by reflexivity.
  split; [exact Hmode|]. split; [reflexivity|]. split; [exact Hstart|].
  split; [reflexivity|]. split.
  - rewrite (GetAutoscrollCursor_cursor_of_offset sc' start_position dp_ratio Hdp Hmode).
    rewrite Hstart. unfold Int.sub. rewrite !Z.sub_diag.
    change (Float.float (inject_Z (Int.wrap 0))) with 0.
    now rewrite cursor_of_offset_zero.
  - rewrite (GetAutoscrollCursor_cursor_of_offset sc' mouse_position dp_ratio Hdp Hmode).
    now rewrite Hstart.
Qed.

(** After the activation at (7, 9): idle at (7, 9), and with the mouse 29
    pixels further right at a [dp_ratio] of 2 the cursor points right. *)
Lemma ActivateAutoscroll_then_cursor_witness :
  GetAutoscrollCursor
    (ActivateAutoscroll ScrollSamples.Reset ScrollSamples.scroll_started
       (Some 2%nat) {| ix := 7; iy := 9 |} 5)
    {| ix := 7; iy := 9 |} 2
  = Done "rmlui-scroll-idle"
  /\ GetAutoscrollCursor
       (ActivateAutoscroll ScrollSamples.Reset ScrollSamples.scroll_started
          (Some 2%nat) {| ix := 7; iy := 9 |} 5)
       {| ix := 36; iy := 9 |} 2
     = Done "rmlui-scroll-right".
Proof.
  assert (Hdp : 0 < 2) by reflexivity.
  destruct (ActivateAutoscroll_then_cursor ScrollSamples.Reset
              ScrollSamples.scroll_started (Some 2%nat) {| ix := 7; iy := 9 |}
              {| ix := 36; iy := 9 |} 5 2 Hdp) as (_ & _ & _ & _ & Hidle & Hright).
  split; [exact Hidle|]. rewrite Hright. vm_compute. reflexivity.
Defined.

(** *** An autoscroll step *)

Lemma DecomposeFractionalIntegral_spec (value : Q) :
  let '(fractional, integral) := DecomposeFractionalIntegral value in
  exists z : Z,
    integral = inject_Z z
    /\ value == inject_Z z + fractional
    /\ Qabs fractional < 1
    /\ (0 <= value -> 0 <= fractional /\ (0 <= z)%Z)
    /\ (value <= 0 -> fractional <= 0 /\ (z <= 0)%Z)
    /\ (Qabs value < 1 -> z = 0%Z).
Proof.
  unfold DecomposeFractionalIntegral.
  destruct (Qle_bool 0 value) eqn:Hs.
  - apply Qle_bool_iff in Hs. exists (Qfloor value).
    pose proof (Qfloor_le value) as Hlo. pose proof (Qlt_floor value) as Hhi.
    rewrite inject_Z_plus in Hhi. change (inject_Z 1) with 1 in Hhi.
    assert (Hz : (0 <= Qfloor value)%Z).
    { change 0%Z with (Qfloor 0). apply Qfloor_resp_le. exact Hs. }
    assert (HzQ : 0 <= inject_Z (Qfloor value)).
    { change 0 with (inject_Z 0). rewrite <- Zle_Qle. exact Hz. }
    split; [reflexivity|]. split; [ring|].
    split; [apply Qabs_Qlt_condition; split; lra|].
    split; [intros _; split; [lra|exact Hz]|].
    split.
    + intros Hv. assert (Hv0 : value == 0) by lra.
      split; [lra|]. rewrite Zle_Qle. change (inject_Z 0) with 0. lra.
    + intros Hsmall. apply Qabs_Qlt_condition in Hsmall.
      assert (Hlt : inject_Z (Qfloor value) < inject_Z 1) by (change (inject_Z 1) with 1; lra).
      rewrite <- Zlt_Qlt in Hlt. lia.
  - assert (Hneg : value < 0).
    { destruct (Qlt_le_dec value 0) as [H|H]; [exact H|].
      apply Qle_bool_iff in H. congruence. }
    exists (Qceiling value).
    pose proof (Qle_ceiling value) as Hhi. pose proof (Qceiling_lt value) as Hlo.
    unfold Z.sub in Hlo. rewrite inject_Z_plus, inject_Z_opp in Hlo.
    change (inject_Z 1) with 1 in Hlo.
    assert (Hz : (Qceiling value <= 0)%Z).
    { change 0%Z with (Qceiling 0). apply Qceiling_resp_le. lra. }
    assert (HzQ : inject_Z (Qceiling value) <= 0).
    { change 0 with (inject_Z 0). rewrite <- Zle_Qle. exact Hz. }
    split; [reflexivity|]. split; [ring|].
    split; [apply Qabs_Qlt_condition; split; lra|].
    split; [intros Hv; lra|].
    split; [intros _; split; [lra|exact Hz]|].
    intros Hsmall. apply Qabs_Qlt_condition in Hsmall.
    assert (Hgt : inject_Z (- 1) < inject_Z (Qceiling value))
      by (change (inject_Z (- 1)) with (- (1)); lra).
    rewrite <- Zlt_Qlt in Hgt. lia.
Qed.

Lemma Qeq_bool_inject_Z_zero (z : Z) : Qeq_bool (inject_Z z) 0 = (z =? 0)%Z.
Proof.
  destruct (Z.eqb_spec z 0) as [->|Hne]; [reflexivity|].
  destruct (Qeq_bool (inject_Z z) 0) eqn:E; [|reflexivity].
  apply Qeq_bool_iff in E. exfalso. apply Hne.
  unfold Qeq in E. simpl in E. lia.
Qed.

Lemma autoscroll_velocity_components (sc : t) (mouse_position : Vector2i) (dp_ratio : Q) :
  autoscroll_velocity sc mouse_position dp_ratio
  = {| fx := autoscroll_axis
               (Float.float (inject_Z (Int.sub (ix mouse_position)
                                         (ix (autoscroll_start_position sc)))))
               dp_ratio;
       fy := autoscroll_axis
               (Float.float (inject_Z (Int.sub (iy mouse_position)
                                         (iy (autoscroll_start_position sc)))))
               dp_ratio |}.
Proof.
  unfold autoscroll_velocity. rewrite CalculateAutoscrollVelocity_components.
  reflexivity.
Qed.

Section AutoscrollFacts.

Variable Reset : t -> t.
Variable DispatchEvent : Element -> Dictionary -> bool.

(** X7. An [UpdateAutoscroll] step splits the accumulated scroll length,
    after the velocity times the time step is added, into whole pixels and
    a rest: the rest is below one pixel in absolute value and has the sign
    of the length, and pixels and rest add up to the length, so no scroll
    length is lost between steps. Without a whole pixel on either axis
    nothing is dispatched and the rest is stored; otherwise one scroll
    event with the whole pixels is dispatched, [Reset] is called exactly
    when no element handled it, and without [Reset] the rest is stored.
    A step that does not call [Reset] keeps the mode, and
    [autoscroll_holding] is set once the velocity is not zero and never
    cleared. *)
Theorem UpdateAutoscroll_accumulates
    (sc : t) (mouse_position : Vector2i) (dp_ratio now : Q)
    (sc' : t) (effects : list Effect) :
  UpdateAutoscroll Reset DispatchEvent sc mouse_position dp_ratio now
    = Done (sc', effects) ->
  let length := autoscroll_accumulated sc mouse_position dp_ratio now in
  let velocity := autoscroll_velocity sc mouse_position dp_ratio in
  exists (pixels_x pixels_y : Z) (rest : Vector2f) (element : Element),
    target sc = Some element
    /\ fx length == inject_Z pixels_x + fx rest
    /\ fy length == inject_Z pixels_y + fy rest
    /\ Qabs (fx rest) < 1 /\ Qabs (fy rest) < 1
    /\ (0 <= fx length -> 0 <= fx rest /\ (0 <= pixels_x)%Z)
    /\ (fx length <= 0 -> fx rest <= 0 /\ (pixels_x <= 0)%Z)
    /\ (0 <= fy length -> 0 <= fy rest /\ (0 <= pixels_y)%Z)
    /\ (fy length <= 0 -> fy rest <= 0 /\ (pixels_y <= 0)%Z)
    /\ (Qabs (fx length) < 1 -> pixels_x = 0%Z)
    /\ (Qabs (fy length) < 1 -> pixels_y = 0%Z)
    /\ (pixels_x = 0%Z /\ pixels_y = 0%Z -> effects = [])
    /\ (~ (pixels_x = 0%Z /\ pixels_y = 0%Z) ->
        let parameters :=
          {| delta_x := inject_Z pixels_x; delta_y := inject_Z pixels_y |} in
        head effects = Some (Dispatched element parameters)
        /\ (ResetCalled ∈ effects <-> DispatchEvent element parameters = true))
    /\ (ResetCalled ∉ effects ->
        autoscroll_accumulated_length sc' = rest
        /\ mode sc' = Autoscroll
        /\ target sc' = target sc
        /\ autoscroll_start_position sc' = autoscroll_start_position sc
        /\ previous_update_time sc' = now
        /\ autoscroll_holding sc'
           = (vne velocity (vec 0) || autoscroll_holding sc)).
Proof.
  intros Hrun length velocity. unfold UpdateAutoscroll in Hrun.
  destruct (mode_is (mode sc) Autoscroll) eqn:Hmode; [|discriminate].
  apply mode_is_true in Hmode.
  destruct (target sc) as [element|] eqn:Htarget; [|discriminate].
  fold length velocity in Hrun.
  pose proof (DecomposeFractionalIntegral_spec (fx length)) as Hx.
  pose proof (DecomposeFractionalIntegral_spec (fy length)) as Hy.
  revert Hrun Hx Hy. cbn [UpdateTime].
  destruct (DecomposeFractionalIntegral (fx length)) as [rx ix].
  destruct (DecomposeFractionalIntegral (fy length)) as [ry iy].
  intros Hrun (zx & -> & Ex & Ax & Px & Nx & Sx) (zy & -> & Ey & Ay & Py & Ny & Sy).
  exists zx, zy, {| fx := rx; fy := ry |}, element.
  cbn [fx fy]. do 11 (split; [first [reflexivity | assumption]|]).
  assert (Hne : vne {| fx := inject_Z zx; fy := inject_Z zy |} (vec 0)
                = negb ((zx =? 0)%Z && (zy =? 0)%Z)).
  { unfold vne, veq. cbn [fx fy vec]. now rewrite !Qeq_bool_inject_Z_zero. }
  rewrite Hne in Hrun. clear Hne. cbn [fx fy] in Hrun.
  assert (Hhold : (if vne velocity (vec 0) then true else autoscroll_holding sc)
                  = (vne velocity (vec 0) || autoscroll_holding sc))
    by (destruct (vne velocity (vec 0)); reflexivity).
  destruct (Z.eqb_spec zx 0) as [Hzx|Hzx]; [destruct (Z.eqb_spec zy 0) as [Hzy|Hzy]|];
    cbn [andb negb] in Hrun.
  - injection Hrun as <- <-. split; [reflexivity|]. split; [tauto|].
    intros _. cbn. rewrite Hmode, Htarget, Hhold. repeat split; reflexivity.
  - split; [intros [_ H]; contradiction|].
    destruct (DispatchEvent element _) eqn:Hd; injection Hrun as <- <-.
    + split.
      * intros _. split; [reflexivity|].
        split; [intros _; first [exact Hd | reflexivity]|].
        intros _. apply list_elem_of_In. simpl. tauto.
      * intros Hno. exfalso. apply Hno. apply list_elem_of_In. simpl. tauto.
    + split.
      * intros _. split; [reflexivity|]. split; [|congruence].
        intros Hin. apply list_elem_of_In in Hin. simpl in Hin.
        destruct Hin as [H|[]]. discriminate H.
      * intros _. cbn. rewrite Hmode, Htarget, Hhold. repeat split; reflexivity.
  - split; [intros [H _]; contradiction|].
    destruct (DispatchEvent element _) eqn:Hd; injection Hrun as <- <-.
    + split.
      * intros _. split; [reflexivity|].
        split; [intros _; first [exact Hd | reflexivity]|].
        intros _. apply list_elem_of_In. simpl. tauto.
      * intros Hno. exfalso. apply Hno. apply list_elem_of_In. simpl. tauto.
    + split.
      * intros _. split; [reflexivity|]. split; [|congruence].
        intros Hin. apply list_elem_of_In in Hin. simpl in Hin.
        destruct Hin as [H|[]]. discriminate H.
      * intros _. cbn. rewrite Hmode, Htarget, Hhold. repeat split; reflexivity.
Qed.

(** X8. While the float quotients by [dp_ratio] of both components of the
    offset of the mouse from the start position (the difference of the
    [int] positions, converted to [float]) are within the deadzone and less
    than one pixel is accumulated on each axis, an [UpdateAutoscroll] step
    (autoscroll mode, a target, [dp_ratio > 0]) dispatches nothing and calls
    no [Reset]; the accumulated length keeps its value, [autoscroll_holding]
    is not set, and only the clock moves on. *)
Theorem UpdateAutoscroll_in_deadzone
    (sc : t) (mouse_position : Vector2i) (dp_ratio now : Q) (element : Element) :
  0 < dp_ratio ->
  mode sc = Autoscroll -> target sc = Some element ->
  let start := autoscroll_start_position sc in
  let offset_x := Float.float (inject_Z (Int.sub (ix mouse_position) (ix start))) in
  let offset_y := Float.float (inject_Z (Int.sub (iy mouse_position) (iy start))) in
  Qabs (Float.float (offset_x / dp_ratio)) < 10 ->
  Qabs (Float.float (offset_y / dp_ratio)) < 10 ->
  Qabs (fx (autoscroll_accumulated_length sc)) < 1 ->
  Qabs (fy (autoscroll_accumulated_length sc)) < 1 ->
  exists sc',
    UpdateAutoscroll Reset DispatchEvent sc mouse_position dp_ratio now
      = Done (sc', [])
    /\ fx (autoscroll_accumulated_length sc') == fx (autoscroll_accumulated_length sc)
    /\ fy (autoscroll_accumulated_length sc') == fy (autoscroll_accumulated_length sc)
    /\ autoscroll_holding sc' = autoscroll_holding sc
    /\ mode sc' = Autoscroll /\ target sc' = Some element
    /\ autoscroll_start_position sc' = autoscroll_start_position sc
    /\ previous_update_time sc' = now.
Proof.
  intros Hdp Hmode Htarget start offset_x offset_y Hox Hoy Hax Hay.
  destruct (autoscroll_component offset_x dp_ratio Hdp) as [Hvx _].
  destruct (autoscroll_component offset_y dp_ratio Hdp) as [Hvy _].
  unfold fdiv in Hvx, Hvy. specialize (Hvx Hox). specialize (Hvy Hoy).
  set (velocity := autoscroll_velocity sc mouse_position dp_ratio).
  assert (Evelocity : velocity
                      = {| fx := autoscroll_axis offset_x dp_ratio;
                           fy := autoscroll_axis offset_y dp_ratio |})
    by apply autoscroll_velocity_components.
  assert (Hzx : fx velocity == 0) by (rewrite Evelocity; exact Hvx).
  assert (Hzy : fy velocity == 0) by (rewrite Evelocity; exact Hvy).
  clear Evelocity Hvx Hvy Hox Hoy.
  set (length := autoscroll_accumulated sc mouse_position dp_ratio now).
  assert (Hlx : fx length == fx (autoscroll_accumulated_length sc)).
  { subst length. unfold autoscroll_accumulated. cbn [UpdateTime].
    fold velocity. cbn [vadd vzip vscale vmap fx fy]. rewrite Hzx. ring. }
  assert (Hly : fy length == fy (autoscroll_accumulated_length sc)).
  { subst length. unfold autoscroll_accumulated. cbn [UpdateTime].
    fold velocity. cbn [vadd vzip vscale vmap fx fy]. rewrite Hzy. ring. }
  assert (Hzero : vne velocity (vec 0) = false).
  { unfold vne. apply negb_false_iff, veq_true. split; [exact Hzx | exact Hzy]. }
  unfold UpdateAutoscroll. rewrite Hmode, Htarget. cbn [mode_is UpdateTime].
  fold velocity length. rewrite Hzero.
  pose proof (DecomposeFractionalIntegral_spec (fx length)) as Hx.
  pose proof (DecomposeFractionalIntegral_spec (fy length)) as Hy.
  revert Hx Hy.
  destruct (DecomposeFractionalIntegral (fx length)) as [rx px].
  destruct (DecomposeFractionalIntegral (fy length)) as [ry py].
  intros (zx & -> & Ex & _ & _ & _ & Sx) (zy & -> & Ey & _ & _ & _ & Sy).
  rewrite Hlx in Sx. rewrite Hly in Sy.
  rewrite (Sx Hax) in *. rewrite (Sy Hay) in *.
  change (vne {| fx := inject_Z 0; fy := inject_Z 0 |} (vec 0)) with false.
  cbv iota. eexists. split; [reflexivity|].
  cbn [autoscroll_accumulated_length autoscroll_holding mode target
       autoscroll_start_position previous_update_time set_autoscroll fx fy].
  change (inject_Z 0) with 0 in Ex, Ey.
  repeat split; try assumption; lra.
Qed.

End AutoscrollFacts.

(** The sample autoscroll with the mouse 40 pixels to the right for 1/60 s:
    144 px/s give 2.4 pixels, of which 2 are dispatched and 0.4 kept. *)
Lemma UpdateAutoscroll_accumulates_witness :
  match UpdateAutoscroll ScrollSamples.Reset ScrollSamples.handled
          ScrollSamples.autoscrolling {| ix := 140; iy := 100 |} 1 (1 # 60) with
  | Done (sc', effects) =>
      effects = [Dispatched 1%nat {| delta_x := 2; delta_y := 0 |}]
      /\ Qabs (fx (autoscroll_accumulated_length sc')) < 1
  | _ => False
  end.
Proof.
  destruct (UpdateAutoscroll ScrollSamples.Reset ScrollSamples.handled
              ScrollSamples.autoscrolling {| ix := 140; iy := 100 |} 1 (1 # 60))
    as [[sc' effects]| | |] eqn:Hrun; [|vm_compute in Hrun; discriminate Hrun ..].
  destruct (UpdateAutoscroll_accumulates ScrollSamples.Reset ScrollSamples.handled
              ScrollSamples.autoscrolling {| ix := 140; iy := 100 |} 1 (1 # 60)
              sc' effects Hrun)
    as (zx & zy & rest & element & _ & _ & _ & Ax & _ & _ & _ & _ & _ & _ & _ & _ & _ & Hkeep).
  assert (He : effects = [Dispatched 1%nat {| delta_x := 2; delta_y := 0 |}]).
  { vm_compute in Hrun. injection Hrun as _ <-. reflexivity. }
  split; [exact He|].
  destruct Hkeep as [Hrest _].
  { rewrite He. intros Hin. apply list_elem_of_In in Hin. simpl in Hin.
    destruct Hin as [H|[]]. discriminate H. }
  rewrite Hrest. exact Ax.
Defined.

(** The sample autoscroll with the mouse 5 pixels right of and 3 pixels
    above the start position. *)
Lemma UpdateAutoscroll_in_deadzone_witness :
  exists sc',
    UpdateAutoscroll ScrollSamples.Reset ScrollSamples.handled
      ScrollSamples.autoscrolling {| ix := 105; iy := 97 |} 1 (1 # 60)
    = Done (sc', [])
    /\ autoscroll_holding sc' = false.
Proof.
  destruct (UpdateAutoscroll_in_deadzone ScrollSamples.Reset ScrollSamples.handled
              ScrollSamples.autoscrolling {| ix := 105; iy := 97 |} 1 (1 # 60)
              1%nat) as (sc' & Hrun & _ & _ & Hh & _);
    try reflexivity; try (vm_compute; reflexivity).
  exists sc'. split; [exact Hrun | exact Hh].
Defined.




Section MouseWheelFacts.

Variable Reset : t -> t.
Variable ActivateSmoothscroll : t -> Element -> t.


End MouseWheelFacts.



Section WheelThenSmoothscroll.

Variable tween : Q -> Q.
Variable Reset : t -> t.
Variable ActivateSmoothscroll : t -> Element -> t.
Variable DispatchEvent : Element -> Dictionary -> bool.


End WheelThenSmoothscroll.



End ScrollControllerFacts.

(** ** StyleSheet *)

Module StyleSheetFacts.
Import StyleSheet.

(** *** Merging trees *)


Lemma node_at_cons n i ref :
  node_at n (i :: ref) = c ← children n !! i; node_at c ref.
Proof. simpl. destruct (children n !! i); reflexivity. Qed.

Lemma has_chain_cons n s chain :
  has_chain n (s :: chain) = true
  <-> exists i c, children n !! i = Some c /\ selector c = s
                  /\ has_chain c chain = true.
Proof.
  destruct n as [s0 spec dictionary cs]. simpl. rewrite existsb_exists. split.
  - intros (c & Hin & Hc). apply andb_true_iff in Hc as [Hs Hc].
    apply bool_decide_eq_true in Hs.
    apply list_elem_of_In, list_elem_of_lookup in Hin as [i Hi]. eauto.
  - intros (i & c & Hi & Hs & Hc). exists c. split.
    + apply list_elem_of_In. eapply list_elem_of_lookup_2. exact Hi.
    + apply andb_true_iff. split; [now apply bool_decide_eq_true | exact Hc].
Qed.


(** *** Distinct selector steps *)

Lemma unique_steps_children n :
  unique_steps n = true ->
  NoDup (List.map selector (children n))
  /\ forall i c, children n !! i = Some c -> unique_steps c = true.
Proof.
  destruct n as [s spec dictionary cs]. simpl. intros H.
  apply andb_true_iff in H as [Hnd Hall]. apply bool_decide_eq_true in Hnd.
  split; [exact Hnd|]. intros i c Hi.
  rewrite forallb_forall in Hall. apply Hall.
  apply list_elem_of_In. eapply list_elem_of_lookup_2. exact Hi.
Qed.

Lemma unique_steps_node_at ref : forall n m,
  unique_steps n = true -> node_at n ref = Some m ->
  NoDup (List.map selector (children m)).
Proof.
  induction ref as [|i ref IH]; intros n m Hu Hm.
  - injection Hm as <-. now apply unique_steps_children.
  - rewrite node_at_cons in Hm. destruct (children n !! i) as [c|] eqn:Hc; [|discriminate].
    simpl in Hm. apply (IH c m); [|exact Hm].
    apply unique_steps_children in Hu as [_ Hu]. eauto.
Qed.


Lemma unique_steps_empty_node s : unique_steps (empty_node s) = true.
Proof. apply andb_true_iff. split; [|reflexivity]. apply bool_decide_eq_true. constructor. Qed.


Section MergeFacts.

Variable offset : Z.

#[local] Abbreviation merge := (MergeHierarchy offset).
#[local] Abbreviation merge_into :=
  (fun cs other => merge_child (selector other) (merge other) cs).

Lemma MergeHierarchy_selector other this :
  selector (merge other this) = selector this.
Proof. destruct other, this. reflexivity. Qed.


Lemma MergeHierarchy_properties other this :
  node_properties (merge other this) = node_properties other ∪ node_properties this.
Proof. destruct other, this. reflexivity. Qed.

Lemma MergeHierarchy_children other this :
  children (merge other this) = foldl merge_into (children this) (children other).
Proof. destruct other, this. reflexivity. Qed.

Lemma merge_all_cons o os base :
  merge_all offset (o :: os) base = merge_all offset os (merge o base).
Proof. reflexivity. Qed.

Lemma merge_all_selector os : forall base,
  selector (merge_all offset os base) = selector base.
Proof.
  induction os as [|o os IH]; intros base; [reflexivity|].
  rewrite merge_all_cons, IH. apply MergeHierarchy_selector.
Qed.

Lemma merge_all_children os : forall base,
  children (merge_all offset os base)
  = foldl merge_into (children base) (concat (List.map children os)).
Proof.
  induction os as [|o os IH]; intros base; [reflexivity|].
  rewrite merge_all_cons, IH, MergeHierarchy_children. simpl.
  now rewrite foldl_app.
Qed.


(** One selector step merged into a list of children with distinct steps. *)
Lemma merge_child_spec (s : Selector) (f : StyleSheetNode -> StyleSheetNode)
    (cs : list StyleSheetNode) :
  (forall x, selector (f x) = selector x) ->
  NoDup (List.map selector cs) ->
  NoDup (List.map selector (merge_child s f cs))
  /\ (forall i m, merge_child s f cs !! i = Some m ->
        (exists c, cs !! i = Some c
                   /\ ((selector c = s /\ m = f c) \/ (selector c <> s /\ m = c)))
        \/ (cs !! i = None /\ m = f (empty_node s)))
  /\ (forall i c, cs !! i = Some c ->
        exists m, merge_child s f cs !! i = Some m /\ selector m = selector c)
  /\ (exists i m, merge_child s f cs !! i = Some m /\ selector m = s).
Proof.
  intros Hf. induction cs as [|c cs IH]; intros Hnd; simpl.
  - split; [|split; [|split]].
    + rewrite Hf. simpl. apply NoDup_singleton.
    + intros [|i] m Hm; simpl in Hm; [|discriminate].
      right. split; [reflexivity|]. congruence.
    + intros i c Hc. discriminate.
    + exists 0%nat, (f (empty_node s)). split; [reflexivity|]. now rewrite Hf.
  - simpl in Hnd. apply NoDup_cons in Hnd as [Hc Hnd].
    destruct (IH Hnd) as (IH1 & IH2 & IH3 & IH4).
    destruct (decide (selector c = s)) as [Heq|Hne].
    + split; [|split; [|split]].
      * simpl. rewrite Hf. apply NoDup_cons. split; assumption.
      * intros [|i] m Hm; simpl in Hm.
        -- left. exists c. split; [reflexivity|]. left. split; congruence.
        -- left. exists m. split; [exact Hm|]. right. split; [|reflexivity].
           intros Hs. apply Hc. rewrite Heq, <- Hs.
           apply list_elem_of_fmap. exists m. split; [reflexivity|].
           eapply list_elem_of_lookup_2. exact Hm.
      * intros [|i] c' Hc'; simpl in *.
        -- injection Hc' as <-. exists (f c). split; [reflexivity | apply Hf].
        -- exists c'. split; [exact Hc' | reflexivity].
      * exists 0%nat, (f c). split; [reflexivity|]. now rewrite Hf.
    + split; [|split; [|split]].
      * simpl. apply NoDup_cons. split; [|exact IH1].
        intros Hin. apply list_elem_of_fmap in Hin as (m & Hm & Hin).
        apply list_elem_of_lookup in Hin as [i Hi].
        destruct (IH2 i m Hi) as [(c' & Hc' & [[Hs ->]|[Hs ->]])|[_ ->]].
        -- rewrite Hf in Hm. congruence.
        -- apply Hc. rewrite Hm. apply list_elem_of_fmap. exists c'.
           split; [reflexivity|]. eapply list_elem_of_lookup_2. exact Hc'.
        -- rewrite Hf in Hm. simpl in Hm. congruence.
      * intros [|i] m Hm; simpl in Hm.
        -- left. exists c. split; [reflexivity|]. right. split; congruence.
        -- exact (IH2 i m Hm).
      * intros [|i] c' Hc'; simpl in *.
        -- injection Hc' as <-. exists c. split; reflexivity.
        -- exact (IH3 i c' Hc').
      * destruct IH4 as (i & m & Hm & Hs). exists (S i), m. split; assumption.
Qed.

#[local] Abbreviation same_step s :=
  (fun other : StyleSheetNode => bool_decide (selector other = s)).

(** The children of a node after the children [others] have been merged
    into its children [cs] of distinct steps: the child at a place is what
    was there, or an empty node, with all of [others] of its selector step
    merged into it. *)
Lemma merge_children_spec (others : list StyleSheetNode) :
  forall cs : list StyleSheetNode,
  NoDup (List.map selector cs) ->
  NoDup (List.map selector (foldl merge_into cs others))
  /\ (forall i m, foldl merge_into cs others !! i = Some m ->
        exists base,
          m = merge_all offset (List.filter (same_step (selector m)) others) base
          /\ (cs !! i = Some base
              \/ (cs !! i = None /\ base = empty_node (selector m)
                  /\ List.filter (same_step (selector m)) others <> [])))
  /\ (forall i c, cs !! i = Some c ->
        exists m, foldl merge_into cs others !! i = Some m
                  /\ selector m = selector c)
  /\ (forall other, other ∈ others ->
        exists i m, foldl merge_into cs others !! i = Some m
                    /\ selector m = selector other).
Proof.
  induction others as [|oc rest IH]; intros cs Hnd.
  - simpl. split; [exact Hnd|]. split; [|split].
    + intros i m Hm. exists m. split; [reflexivity | now left].
    + intros i c Hc. eauto.
    + intros other Hin. apply elem_of_nil in Hin. destruct Hin.
  - destruct (merge_child_spec (selector oc) (merge oc) cs
                (MergeHierarchy_selector oc) Hnd) as (M1 & M2 & M3 & M4).
    destruct (IH _ M1) as (I1 & I2 & I3 & I4). clear IH.
    change (foldl merge_into cs (oc :: rest))
      with (foldl merge_into (merge_child (selector oc) (merge oc) cs) rest).
    split; [exact I1|]. split; [|split].
    + intros i m Hm. destruct (I2 i m Hm) as (base1 & Hmeq & Hbase).
      assert (Hsel : selector m = selector base1).
      { rewrite Hmeq. apply merge_all_selector. }
      destruct Hbase as [Hb | (Hnone & Hbe & Hfne)].
      * destruct (M2 i base1 Hb) as [(c & Hc & [[Hs Hf]|[Hs Hf]])|[Hnone Hf]].
        -- exists c. split; [|now left]. simpl.
           rewrite bool_decide_true
             by (rewrite Hsel, Hf, MergeHierarchy_selector; congruence).
           rewrite merge_all_cons, <- Hf. exact Hmeq.
        -- exists c. split; [|now left]. simpl.
           rewrite bool_decide_false by (rewrite Hsel, Hf; congruence).
           rewrite <- Hf. exact Hmeq.
        -- assert (Hs : selector m = selector oc).
           { rewrite Hsel, Hf, MergeHierarchy_selector. reflexivity. }
           exists (empty_node (selector m)). simpl.
           rewrite bool_decide_true by congruence.
           split; [|right; split; [exact Hnone | split; [reflexivity|discriminate]]].
           rewrite merge_all_cons, Hs, <- Hf. rewrite Hs in Hmeq. exact Hmeq.
      * assert (Hcs : cs !! i = None).
        { destruct (cs !! i) as [c|] eqn:Hc; [|reflexivity].
          destruct (M3 i c Hc) as (m1 & Hm1 & _). congruence. }
        assert (Hne : selector oc <> selector m).
        { intros Heq. destruct M4 as (j & m1 & Hj & Hs1).
          destruct (I3 j m1 Hj) as (m' & Hm' & Hs').
          assert (i = j).
          { eapply (NoDup_lookup _ i j (selector m) I1).
            - rewrite list_lookup_fmap, Hm. reflexivity.
            - rewrite list_lookup_fmap, Hm'. simpl. congruence. }
          subst j. congruence. }
        exists base1. simpl. rewrite bool_decide_false by exact Hne.
        split; [exact Hmeq|]. right. split; [exact Hcs|]. split; assumption.
    + intros i c Hc. destruct (M3 i c Hc) as (m1 & Hm1 & Hs1).
      destruct (I3 i m1 Hm1) as (m & Hm & Hs). exists m. split; [exact Hm|congruence].
    + intros other Hin. apply elem_of_cons in Hin as [->|Hin].
      * destruct M4 as (j & m1 & Hj & Hs1).
        destruct (I3 j m1 Hj) as (m & Hm & Hs). exists j, m. split; [exact Hm|congruence].
      * exact (I4 other Hin).
Qed.

(** The child at a place of a merged node, with the trees merged into it. *)
Lemma merge_all_child os base i m :
  unique_steps base = true ->
  children (merge_all offset os base) !! i = Some m ->
  exists base',
    m = merge_all offset
          (List.filter (same_step (selector m)) (concat (List.map children os))) base'
    /\ unique_steps base' = true
    /\ selector base' = selector m
    /\ (children base !! i = Some base'
        \/ (children base !! i = None /\ base' = empty_node (selector m)
            /\ List.filter (same_step (selector m))
                 (concat (List.map children os)) <> [])).
Proof.
  intros Hu Hm. rewrite merge_all_children in Hm.
  destruct (unique_steps_children base Hu) as [Hnd Hcs].
  destruct (merge_children_spec (concat (List.map children os)) (children base) Hnd)
    as (_ & H2 & _ & _).
  destruct (H2 i m Hm) as (base' & Heq & Hbase).
  exists base'. split; [exact Heq|].
  assert (Hsel : selector base' = selector m).
  { rewrite Heq. symmetry. apply merge_all_selector. }
  destruct Hbase as [Hb|(Hn & He & Hf)].
  - split; [eauto|]. split; [exact Hsel|]. now left.
  - split; [rewrite He; apply unique_steps_empty_node|]. split; [exact Hsel|].
    right. split; [exact Hn|]. split; assumption.
Qed.

Lemma elem_of_children_concat os o i c :
  o ∈ os -> children o !! i = Some c ->
  c ∈ concat (List.map children os).
Proof.
  intros Ho Hc. apply list_elem_of_In, in_concat. exists (children o). split.
  - apply in_map. now apply list_elem_of_In.
  - apply list_elem_of_In. eapply list_elem_of_lookup_2. exact Hc.
Qed.


Lemma elem_of_same_step s (l : list StyleSheetNode) c :
  c ∈ List.filter (same_step s) l <-> c ∈ l /\ selector c = s.
Proof.
  rewrite !list_elem_of_In, filter_In, bool_decide_eq_true. reflexivity.
Qed.


(** Every selector chain of the node merged into, and of every tree merged
    into it, is a chain of the result. *)
Lemma merge_all_has_chain chain : forall os base,
  unique_steps base = true ->
  (has_chain base chain = true -> has_chain (merge_all offset os base) chain = true)
  /\ (forall o, o ∈ os -> has_chain o chain = true ->
                has_chain (merge_all offset os base) chain = true).
Proof.
  induction chain as [|s chain IH]; intros os base Hu; [split; reflexivity|].
  destruct (unique_steps_children base Hu) as [Hnd Hcs].
  destruct (merge_children_spec (concat (List.map children os)) (children base) Hnd)
    as (_ & _ & H3 & H4).
  rewrite <- merge_all_children in H3, H4.
  split.
  - intros Hc. apply has_chain_cons in Hc as (i & c & Hi & Hs & Hc).
    destruct (H3 i c Hi) as (m & Hm & Hsm).
    apply has_chain_cons. exists i, m. split; [exact Hm|]. split; [congruence|].
    destruct (merge_all_child os base i m Hu Hm) as (base' & Heq & Hu' & _ & Hb).
    destruct Hb as [Hb|[Hb _]]; [|congruence].
    assert (base' = c) by congruence. subst base'.
    rewrite Heq. now apply IH.
  - intros o Ho Hc. apply has_chain_cons in Hc as (j & c & Hj & Hs & Hc).
    pose proof (elem_of_children_concat os o j c Ho Hj) as Hin.
    destruct (H4 c Hin) as (i & m & Hm & Hsm).
    apply has_chain_cons. exists i, m. split; [exact Hm|]. split; [congruence|].
    destruct (merge_all_child os base i m Hu Hm) as (base' & Heq & Hu' & _ & _).
    rewrite Heq. apply (proj2 (IH _ base' Hu') c); [|exact Hc].
    apply elem_of_same_step. split; [exact Hin | congruence].
Qed.





End MergeFacts.


(** *** The pass that optimises the properties keeps the selector chains *)

Lemma map_with_log_Forall2 {A B} (Q : A -> B -> Prop) (f : A -> Log -> B * Log) :
  (forall a log, Q a (fst (f a log))) ->
  forall l log, Forall2 Q l (fst (map_with_log f l log)).
Proof.
  intros Hf l. induction l as [|a l IH]; intros log; simpl; [constructor|].
  specialize (Hf a log). destruct (f a log) as [b log1].
  specialize (IH log1). destruct (map_with_log f l log1) as [rest log2].
  simpl in *. now constructor.
Qed.

Lemma existsb_Forall2 {A B} (p : A -> bool) (q : B -> bool) l k :
  Forall2 (fun a b => p a = q b) l k -> existsb p l = existsb q k.
Proof. induction 1 as [|a b l k Hab _ IH]; simpl; [reflexivity|]. now rewrite Hab, IH. Qed.

Lemma optimize_node_selector registry dm n log :
  selector (fst (optimize_node registry dm n log)) = selector n.
Proof.
  destruct n as [s spec dictionary cs]. simpl.
  destruct (optimize_properties registry dm dictionary log) as [d l].
  destruct (map_with_log (optimize_node registry dm) cs l) as [cs' l'].
  reflexivity.
Qed.

Lemma optimize_node_children registry dm n log :
  exists log',
    children (fst (optimize_node registry dm n log))
    = fst (map_with_log (optimize_node registry dm) (children n) log').
Proof.
  destruct n as [s spec dictionary cs]. simpl.
  destruct (optimize_properties registry dm dictionary log) as [d l].
  exists l. destruct (map_with_log (optimize_node registry dm) cs l) as [cs' l'].
  reflexivity.
Qed.

Lemma optimize_node_has_chain registry dm chain : forall n log,
  has_chain (fst (optimize_node registry dm n log)) chain = has_chain n chain.
Proof.
  induction chain as [|s chain IH]; intros n log; [reflexivity|].
  simpl. destruct (optimize_node_children registry dm n log) as [log' ->].
  symmetry. apply existsb_Forall2.
  apply (map_with_log_Forall2
           (fun a b => bool_decide (selector a = s) && has_chain a chain
                       = bool_decide (selector b = s) && has_chain b chain)).
  intros a l. now rewrite optimize_node_selector, IH.
Qed.

(** *** Combined sheets *)

(** C3. For every two sheets of which the first has distinct selector steps
    under every node, [CombineStyleSheet] followed by
    [BuildNodeIndexAndOptimizeProperties] gives a sheet (both are total
    functions, there is no failure) whose tree has every selector chain of
    the one and of the other. *)
Theorem CombineStyleSheet_keeps_selector_chains
    (effect_registry : gset string) (this sheet : t) (log : Log)
    (chain : list Selector) :
  unique_steps (root this) = true ->
  has_chain (root this) chain = true \/ has_chain (root sheet) chain = true ->
  exists combined log',
    BuildNodeIndexAndOptimizeProperties effect_registry
      (CombineStyleSheet this sheet) log = (combined, log')
    /\ has_chain (root combined) chain = true.
Proof.
  intros Hu Hchain.
  destruct (BuildNodeIndexAndOptimizeProperties effect_registry
              (CombineStyleSheet this sheet) log) as [combined log'] eqn:Hb.
  exists combined, log'. split; [reflexivity|].
  unfold BuildNodeIndexAndOptimizeProperties in Hb.
  pose proof (optimize_node_has_chain effect_registry
                (decorator_map (CombineStyleSheet this sheet)) chain
                (root (CombineStyleSheet this sheet)) log) as Hopt.
  destruct (optimize_node effect_registry _ (root (CombineStyleSheet this sheet)) log)
    as [new_root log1].
  injection Hb as <- _. simpl in *. rewrite Hopt.
  destruct (merge_all_has_chain (specificity_offset this) chain [root sheet]
              (root this) Hu) as [Hthis Hsheet].
  destruct Hchain as [Hc|Hc].
  - exact (Hthis Hc).
  - apply (Hsheet (root sheet)); [|exact Hc]. apply list_elem_of_singleton. reflexivity.
Qed.

(** The chain [div] comes from the second sample sheet, the chain [p] from
    the first; both are in the combined sheet. *)
Lemma CombineStyleSheet_keeps_selector_chains_witness :
  has_chain (root StyleSamples.combined) [StyleSamples.by_tag "div"] = true
  /\ has_chain (root StyleSamples.combined) [StyleSamples.by_tag "p"] = true.
Proof.
  split.
  - destruct (CombineStyleSheet_keeps_selector_chains StyleSamples.effect_registry
                StyleSamples.sheet_a StyleSamples.sheet_b []
                [StyleSamples.by_tag "div"] eq_refl (or_intror eq_refl))
      as (combined & log' & Hb & Hc).
    unfold StyleSamples.combined. rewrite Hb. exact Hc.
  - destruct (CombineStyleSheet_keeps_selector_chains StyleSamples.effect_registry
                StyleSamples.sheet_a StyleSamples.sheet_b []
                [StyleSamples.by_tag "p"] eq_refl (or_introl eq_refl))
      as (combined & log' & Hb & Hc).
    unfold StyleSamples.combined. rewrite Hb. exact Hc.
Defined.


(** *** The specificity offset *)

Section SpecificityFacts.

Variable textual_specificity : list Selector -> Z.



End SpecificityFacts.




(** *** Decorator and font-effect declarations *)

Section InstancingFacts.

Context {A : Type}.
Variable instance : string -> option A.
Variables kind source_file : string.
Variable source_line_number : Z.

#[local] Abbreviation diagnostic_of :=
  (diagnostic_of instance kind source_file source_line_number).

Lemma instance_loop (es : list string) : forall (instanced : list A) (log : Log),
  foldl (instance_step instance kind source_file source_line_number)
        (instanced, log) es
  = (instanced ++ omap instance es, log ++ omap diagnostic_of es).
Proof.
  induction es as [|e es IH]; intros instanced log; simpl.
  - now rewrite !app_nil_r.
  - unfold StyleSheet.diagnostic_of at 1. destruct (instance e) as [object|]; simpl.
    + rewrite IH. now rewrite <- app_assoc.
    + rewrite IH. now rewrite <- app_assoc.
Qed.

Lemma instance_entries_omap (declaration : string) (log : Log) :
  instance_entries instance kind declaration source_file source_line_number log
  = (omap instance (entries declaration),
     log ++ omap diagnostic_of (entries declaration)).
Proof. unfold instance_entries. now rewrite instance_loop. Qed.

(** Every entry that can be instanced is in the list, in the order of the
    declaration; every other entry has its diagnostic in the log, and the
    log gets nothing else. *)
Lemma instance_entries_complete (declaration : string) (log : Log) :
  let '(instanced, log') :=
    instance_entries instance kind declaration source_file source_line_number log in
  instanced = omap instance (entries declaration)
  /\ (forall entry object,
        entry ∈ entries declaration -> instance entry = Some object ->
        object ∈ instanced)
  /\ (forall entry,
        entry ∈ entries declaration -> instance entry = None ->
        instancing_diagnostic kind entry source_file source_line_number ∈ log')
  /\ (forall m, m ∈ log' ->
        m ∈ log
        \/ exists entry,
             entry ∈ entries declaration /\ instance entry = None
             /\ m = instancing_diagnostic kind entry source_file source_line_number).
Proof.
  rewrite instance_entries_omap. split; [reflexivity|]. split; [|split].
  - intros entry object Hin Hsome. apply list_elem_of_omap. eauto.
  - intros entry Hin Hnone. apply elem_of_app. right.
    apply list_elem_of_omap. exists entry. split; [exact Hin|].
    unfold StyleSheet.diagnostic_of. now rewrite Hnone.
  - intros m Hm. apply elem_of_app in Hm as [Hm|Hm]; [now left|right].
    apply list_elem_of_omap in Hm as (entry & Hin & Hd).
    unfold StyleSheet.diagnostic_of in Hd. destruct (instance entry) eqn:Hi; [discriminate|].
    exists entry. split; [exact Hin|]. split; [exact Hi|]. congruence.
Qed.

End InstancingFacts.

Lemma instance_decorator_malformed decorator_map entry :
  parse_entry entry = None -> instance_decorator decorator_map entry = None.
Proof. intros H. unfold instance_decorator. now rewrite H. Qed.

Lemma instance_font_effect_malformed effect_registry entry :
  parse_entry entry = None -> instance_font_effect effect_registry entry = None.
Proof. intros H. unfold instance_font_effect. now rewrite H. Qed.

(** C5. For every declaration, [InstanceDecoratorsFromString] and
    [InstanceFontEffectsFromString] return: each malformed entry (one that
    does not parse) is skipped and leaves a diagnostic in the log, whose
    text ends with the source file and the line number; every entry that
    can be instanced is in the list returned, in the order of the
    declaration, whatever the other entries are. *)
Theorem malformed_entries_are_skipped
    (decorator_map : DecoratorSpecificationMap) (effect_registry : gset string)
    (declaration source_file : string) (source_line_number : Z) (log : Log) :
  let '(decorators, decorator_log) :=
    InstanceDecoratorsFromString decorator_map declaration source_file
      source_line_number log in
  let '(effects, effect_log) :=
    InstanceFontEffectsFromString effect_registry declaration source_file
      source_line_number log in
  (decorators = omap (instance_decorator decorator_map) (entries declaration)
   /\ effects = omap (instance_font_effect effect_registry) (entries declaration))
  /\ (forall entry decorator,
        entry ∈ entries declaration ->
        instance_decorator decorator_map entry = Some decorator ->
        decorator ∈ decorators)
  /\ (forall entry effect,
        entry ∈ entries declaration ->
        instance_font_effect effect_registry entry = Some effect ->
        effect ∈ effects)
  /\ (forall entry,
        entry ∈ entries declaration -> parse_entry entry = None ->
        {| log_type := LT_WARNING;
           log_text := "Could not instance decorator '" +:+ entry
                       +:+ "', declared at " +:+ source_file +:+ ":"
                       +:+ pretty source_line_number |} ∈ decorator_log
        /\ {| log_type := LT_WARNING;
              log_text := "Could not instance font-effect '" +:+ entry
                          +:+ "', declared at " +:+ source_file +:+ ":"
                          +:+ pretty source_line_number |} ∈ effect_log).
Proof.
  unfold InstanceDecoratorsFromString, InstanceFontEffectsFromString.
  pose proof (instance_entries_complete (instance_decorator decorator_map)
                "decorator" source_file source_line_number declaration log) as Hd.
  pose proof (instance_entries_complete (instance_font_effect effect_registry)
                "font-effect" source_file source_line_number declaration log) as He.
  destruct (instance_entries (instance_decorator decorator_map) _ _ _ _ _)
    as [decorators decorator_log].
  destruct (instance_entries (instance_font_effect effect_registry) _ _ _ _ _)
    as [effects effect_log].
  destruct Hd as (Hd1 & Hd2 & Hd3 & _). destruct He as (He1 & He2 & He3 & _).
  split; [split; assumption|]. split; [exact Hd2|]. split; [exact He2|].
  intros entry Hin Hbad. split.
  - apply (Hd3 entry Hin). now apply instance_decorator_malformed.
  - apply (He3 entry Hin). now apply instance_font_effect_malformed.
Qed.

(** The declaration [frame, invalid-decorator(x] of the sample sheet: the
    decorator [frame] is instanced, the entry with the open parenthesis is
    logged with file and line; as font effects, [glow(2px)] is instanced
    next to the same malformed entry. *)
Lemma malformed_entries_are_skipped_witness :
  InstanceDecoratorsFromString (decorator_map StyleSamples.sheet_b)
    "frame, invalid-decorator(x" "b.rcss" 2 []
  = ([ {| decorator_instance_type := "tiled-box";
          decorator_instance_properties := "frame-image" |} ],
     [ {| log_type := LT_WARNING;
          log_text := "Could not instance decorator 'invalid-decorator(x', declared at b.rcss:2" |} ])
  /\ {| font_effect_type := "glow"; font_effect_properties := "2px" |}
     ∈ fst (InstanceFontEffectsFromString StyleSamples.effect_registry
              "invalid-decorator(x, glow(2px)" "b.rcss" 2 []).
Proof.
  split; [vm_compute; reflexivity|].
  pose proof (malformed_entries_are_skipped (decorator_map StyleSamples.sheet_b)
                StyleSamples.effect_registry "invalid-decorator(x, glow(2px)"
                "b.rcss" 2 []) as H.
  destruct (InstanceDecoratorsFromString _ _ _ _ _) as [decorators decorator_log].
  destruct (InstanceFontEffectsFromString _ _ _ _ _) as [effects effect_log].
  destruct H as (_ & _ & He & _). simpl.
  apply (He "glow(2px)"); [|vm_compute; reflexivity].
  vm_compute. apply list_elem_of_In. simpl. tauto.
Defined.

(** *** The cache of element definitions *)

Section CacheFacts.

Variable hash : list NodeRef -> N.

Lemma set_node_cache_applicable (s : t) (cache : gmap N nat) (e : Element) :
  applicable_nodes (set_node_cache s cache) e = applicable_nodes s e.
Proof. reflexivity. Qed.

(** [GetElementDefinition] changes the cache and the store only. *)
Lemma GetElementDefinition_frame (s : t) (store : DefinitionStore) (e : Element) :
  let '(_, s', _) := GetElementDefinition hash s store e in
  root s' = root s
  /\ specificity_offset s' = specificity_offset s
  /\ styled_node_index s' = styled_node_index s
  /\ complete_node_index s' = complete_node_index s.
Proof.
  unfold GetElementDefinition.
  destruct (node_cache s !! hash (applicable_nodes s e)); simpl; tauto.
Qed.

(** The pointer returned is the one the cache holds for the node set
    afterwards. *)
Lemma GetElementDefinition_cached (s : t) (store : DefinitionStore) (e : Element) :
  let '(d, s', _) := GetElementDefinition hash s store e in
  node_cache s' !! hash (applicable_nodes s e) = Some d.
Proof.
  unfold GetElementDefinition.
  destruct (node_cache s !! hash (applicable_nodes s e)) eqn:Hc; simpl.
  - exact Hc.
  - apply lookup_insert_eq.
Qed.

Lemma GetElementDefinition_hit (s : t) (store : DefinitionStore) (e : Element) (d : nat) :
  node_cache s !! hash (applicable_nodes s e) = Some d ->
  GetElementDefinition hash s store e = (d, s, store).
Proof. intros Hc. unfold GetElementDefinition. now rewrite Hc. Qed.

(** A step keeps every entry of the cache and every definition of the
    store. *)
Lemma step_keeps (st : State) (op : Operation) :
  let '(s, store, _) := st in
  let '(s', store', _) := step hash st op in
  (forall k d, node_cache s !! k = Some d -> node_cache s' !! k = Some d)
  /\ (forall i def, store !! i = Some def -> store' !! i = Some def).
Proof.
  destruct st as [[s store] log]. destruct op as [registry|e]; simpl.
  - unfold BuildNodeIndexAndOptimizeProperties.
    destruct (optimize_node registry (decorator_map s) (root s) log) as [r l].
    simpl. auto.
  - unfold GetElementDefinition.
    destruct (node_cache s !! hash (applicable_nodes s e)) eqn:Hc; simpl; [auto|].
    split.
    + intros k d Hk. rewrite lookup_insert_ne; [exact Hk|]. congruence.
    + intros i def Hi. now apply lookup_app_l_Some.
Qed.

Lemma run_keeps (ops : list Operation) : forall (st : State),
  let '(s, store, _) := st in
  let '(s', store', _) := run hash st ops in
  (forall k d, node_cache s !! k = Some d -> node_cache s' !! k = Some d)
  /\ (forall i def, store !! i = Some def -> store' !! i = Some def).
Proof.
  induction ops as [|op ops IH]; intros [[s store] log].
  - simpl. auto.
  - change (run hash (s, store, log) (op :: ops))
      with (run hash (step hash (s, store, log) op) ops).
    pose proof (step_keeps (s, store, log) op) as Hs.
    specialize (IH (step hash (s, store, log) op)). revert Hs IH.
    destruct (step hash (s, store, log) op) as [[s1 store1] log1].
    destruct (run hash (s1, store1, log1) ops) as [[s2 store2] log2].
    intros [Hs1 Hs2] [IH1 IH2]. split; eauto.
Qed.

(** C1. Let an element be resolved, let the sheet live on through any
    operations, and let a second element be resolved whose set of matching
    nodes, by identity, is the set of the first. Then the second call
    returns the very pointer the first call returned; the cache still holds
    that pointer for the node set, every entry the cache had after the first
    call is as it was, and so is every definition in the store. *)
Theorem GetElementDefinition_same_object
    (s : t) (store : DefinitionStore) (log : Log)
    (first : Element) (ops : list Operation) (second : Element) :
  let '(d1, s1, store1) := GetElementDefinition hash s store first in
  let '(s2, store2, log2) := run hash (s1, store1, log) ops in
  let '(d2, s3, store3) := GetElementDefinition hash s2 store2 second in
  applicable_nodes s2 second = applicable_nodes s first ->
  d2 = d1
  /\ node_cache s3 !! hash (applicable_nodes s first) = Some d1
  /\ (forall k d, node_cache s1 !! k = Some d -> node_cache s3 !! k = Some d)
  /\ (forall i def, store1 !! i = Some def -> store3 !! i = Some def).
Proof.
  pose proof (GetElementDefinition_cached s store first) as Hc1. revert Hc1.
  destruct (GetElementDefinition hash s store first) as [[d1 s1] store1].
  intros Hc1.
  pose proof (run_keeps ops (s1, store1, log)) as Hrun. revert Hrun.
  destruct (run hash (s1, store1, log) ops) as [[s2 store2] log2].
  intros [Hcache Hstore].
  destruct (GetElementDefinition hash s2 store2 second) as [[d2 s3] store3] eqn:H3.
  intros Hsame.
  rewrite (GetElementDefinition_hit s2 store2 second d1) in H3
    by (rewrite Hsame; apply Hcache, Hc1).
  injection H3 as <- <- <-.
  split; [reflexivity|]. split; [apply Hcache, Hc1|]. split; assumption.
Qed.

End CacheFacts.

(** *** Elements that match nothing *)

Section EmptyDefinition.

Variable hash : list NodeRef -> N.

Lemma build_definition_nil (tree : StyleSheetNode) :
  build_definition tree [] = {| definition_properties := ∅ |}.
Proof. reflexivity. Qed.




End EmptyDefinition.





(** Two paragraphs of class [big] match the nodes of [p] and of [.big]; an
    element without rules is resolved in between. Both calls return the
    definition at address 0. *)
Lemma GetElementDefinition_same_object_witness :
  fst (fst (GetElementDefinition StyleSamples.hash StyleSamples.combined []
              StyleSamples.first_paragraph)) = 0%nat
  /\ let '(_, s1, store1) :=
       GetElementDefinition StyleSamples.hash StyleSamples.combined []
         StyleSamples.first_paragraph in
     let '(s2, store2, _) :=
       run StyleSamples.hash (s1, store1, [])
         [OpGetElementDefinition StyleSamples.span] in
     fst (fst (GetElementDefinition StyleSamples.hash s2 store2
                 StyleSamples.second_paragraph)) = 0%nat.
Proof.
  pose proof (GetElementDefinition_same_object StyleSamples.hash
                StyleSamples.combined [] [] StyleSamples.first_paragraph
                [OpGetElementDefinition StyleSamples.span]
                StyleSamples.second_paragraph) as H.
  vm_compute in H. destruct (H eq_refl) as [Hd _].
  split; vm_compute; [reflexivity | exact Hd].
Defined.

End StyleSheetFacts.
